(** * acr-builder: the task executor and the tag-prefixing utilities

    A shallow embedding of

    - [util.PrefixRegistryToImageName] and [util.PrefixTags]
      (package [util]);
    - [Builder.RunTask], [Builder.processVertex] and [Builder.runStep]
      (package [builder], file [builder/builder.go]);
    - [Builder.CleanTask], [Builder.prepareVolumeSource],
      [Builder.createSecretFiles] and [Builder.populateSecretVolume]
      (the same file).

    Go strings are byte strings: they are modelled by [string] (a list of
    [ascii], one per byte).  Effectful code is modelled by programs over
    the operations the source performs, with a sequential trace semantics
    for one function and an interleaving semantics for the goroutines of
    one task run. *)

From Stdlib Require Import NArith ZArith Ascii String.
From stdpp Require Import base option list strings gmap.

Local Open Scope string_scope.

(** ** Package [util] *)

Module util.

(** *** The Go standard library functions the package calls *)

(** [strings.HasPrefix(s, prefix)]. *)
Definition HasPrefix (s pre : string) : bool := String.prefix pre s.

(** [utf8.RuneError]. *)
Definition RuneError : N := 0xFFFD%N.

Definition between (lo hi b : N) : bool := ((lo <=? b) && (b <=? hi))%N.

(** [utf8.DecodeRuneInString]: the first rune of [s] and its width in
    bytes; an invalid or short encoding is [RuneError] of width 1. *)
Definition DecodeRuneInString (s : string) : N * nat :=
  match s with
  | EmptyString => (RuneError, 0)
  | String c0 s1 =>
    let p0 := N_of_ascii c0 in
    if (p0 <? 0x80)%N then (p0, 1)
    else if ((p0 <? 0xC2) || (0xF4 <? p0))%N then (RuneError, 1)
    else
      let lo := (if p0 =? 0xE0 then 0xA0 else if p0 =? 0xF0 then 0x90 else 0x80)%N in
      let hi := (if p0 =? 0xED then 0x9F else if p0 =? 0xF4 then 0x8F else 0xBF)%N in
      match s1 with
      | EmptyString => (RuneError, 1)
      | String c1 s2 =>
        let b1 := N_of_ascii c1 in
        if (p0 <? 0xE0)%N then
          if between lo hi b1
          then (N.lor (N.shiftl (N.land p0 0x1F) 6) (N.land b1 0x3F), 2)
          else (RuneError, 1)
        else
          match s2 with
          | EmptyString => (RuneError, 1)
          | String c2 s3 =>
            let b2 := N_of_ascii c2 in
            if (p0 <? 0xF0)%N then
              if between lo hi b1 && between 0x80 0xBF b2
              then (N.lor (N.shiftl (N.land p0 0x0F) 12)
                      (N.lor (N.shiftl (N.land b1 0x3F) 6) (N.land b2 0x3F)), 3)
              else (RuneError, 1)
            else
              match s3 with
              | EmptyString => (RuneError, 1)
              | String c3 _ =>
                let b3 := N_of_ascii c3 in
                if between lo hi b1 && between 0x80 0xBF b2 && between 0x80 0xBF b3
                then (N.lor (N.shiftl (N.land p0 0x07) 18)
                        (N.lor (N.shiftl (N.land b1 0x3F) 12)
                           (N.lor (N.shiftl (N.land b2 0x3F) 6) (N.land b3 0x3F))), 4)
                else (RuneError, 1)
              end
          end
      end
  end.

(** [unicode.IsSpace]: the Latin-1 spaces and the code points of the
    Unicode [White_Space] property above Latin-1. *)
Definition IsSpace (r : N) : bool :=
  (between 0x09 0x0D r || (r =? 0x20) || (r =? 0x85) || (r =? 0xA0)
   || (r =? 0x1680) || between 0x2000 0x200A r || between 0x2028 0x2029 r
   || (r =? 0x202F) || (r =? 0x205F) || (r =? 0x3000))%N.

(** The loop of [strings.FieldsFunc(s, unicode.IsSpace)], which is what
    [strings.Fields] computes.  [skip] counts the bytes still belonging to
    the rune decoded last; [cur] is the field being read ([None] between
    fields, the source's [start < 0]). *)
Fixpoint fields_loop (s : string) (skip : nat) (cur : option string) : list string :=
  match s with
  | EmptyString => match cur with Some f => [f] | None => [] end
  | String c s' =>
    match skip with
    | S n =>
      fields_loop s' n (match cur with Some f => Some (f +:+ String c "") | None => None end)
    | O =>
      let '(r, w) := DecodeRuneInString s in
      if IsSpace r
      then match cur with
           | Some f => f :: fields_loop s' (pred w) None
           | None => fields_loop s' (pred w) None
           end
      else fields_loop s' (pred w)
             (Some (match cur with Some f => f | None => "" end +:+ String c ""))
    end
  end.

(** [strings.Fields]. *)
Definition Fields (s : string) : list string := fields_loop s 0 None.

(** [strings.Join]. *)
Fixpoint Join (elems : list string) (sep : string) : string :=
  match elems with
  | [] => ""
  | [e] => e
  | e :: rest => e +:+ sep +:+ Join rest sep
  end.

(** *** [PrefixRegistryToImageName] *)

Definition PrefixRegistryToImageName (registry img : string) : string :=
  if String.eqb registry "" then img
  else if negb (HasPrefix img registry) && negb (HasPrefix img "library/")
       then registry +:+ "/" +:+ img          (* fmt.Sprintf("%s/%s", registry, img) *)
       else img.

(** *** [PrefixTags] *)

Definition is_tag_flag (f : string) : bool := String.eqb f "-t" || String.eqb f "--tag".

(** One iteration of [for i := 1; i < len(fields); i++]: the slice
    [fields] is updated in place, [tags] is appended to.  The indices the
    loop uses are in range; out of range (where Go would panic) the state
    is left as it is. *)
Definition PrefixTags_iter (registry : string) (st : list string * list string) (i : nat)
  : list string * list string :=
  let '(fields, tags) := st in
  match fields !! (i - 1), fields !! i with
  | Some prev, Some cur =>
    if is_tag_flag prev then
      let img := PrefixRegistryToImageName registry cur in
      (<[i := img]> fields, (tags ++ [img])%list)   (* fields[i] = img; append(tags, fields[i]) *)
    else st
  | _, _ => st
  end.

Definition PrefixTags_loop (registry : string) (fields : list string)
  : list string * list string :=
  foldl (PrefixTags_iter registry) (fields, []) (seq 1 (length fields - 1)).

Definition PrefixTags (cmd registry : string) : string * list string :=
  let '(fields, tags) := PrefixTags_loop registry (Fields cmd) in
  (Join fields " ", tags).

End util.

(** ** Packages [graph], [volume], [image]: the data [builder] works on *)

Module graph.

(** [graph.StepStatus]. *)
Inductive status := Skipped | InProgress | Successful | Failed.

(** [image.Dependencies]: the references of the image built and of its
    base images. *)
Record Dependencies := {
  Image : string;
  Runtime : string;
  Buildtime : list string
}.

(** [graph.Step], with the fields [builder.go] reads or writes.  A [*Step]
    is identified by its [ID]; the channel [CompletedChan] of a step is
    named by the same [ID]. *)
Record Step := {
  ID : string;
  Cmd : string;
  Build : string;
  Push : list string;
  WorkingDirectory : string;
  EntryPoint : string;
  Network : string;
  Isolation : string;
  Tags : list string;
  BuildArgs : list string;
  Pull : bool;
  IgnoreErrors : bool;
  UsesBuildkit : bool;
  Timeout : Z;
  StartDelay : Z;
  Retries : Z;
  RetryOnErrors : list string;
  RetryDelayInSeconds : Z;
  Repeat : Z;
  CmdDownloadRetries : Z;
  CmdDownloadRetryDelayInSeconds : Z;
  StepStatus : status;
  StartTime : Z;
  EndTime : Z;
  ImageDependencies : list Dependencies
}.

(** [graph.Node]: the adjacency of a node lives in the [Dag]. *)
Record Node := { Name : string; Value : Step }.

(** [graph.Dag]: [Nodes] is the map [Dag.Nodes], as the sequence of nodes
    its [range] loop yields. *)
Record Dag := { Root : Node; Nodes : list Node }.

(** [graph.Network] (the field [Network] of a step holds a network's name). *)
Record network := { NetworkName : string; Driver : string; SkipCreation : bool }.

(** [volume.Volume]: a name and a source, of which only [Secret] exists. *)
Record Volume := { VolumeName : string; Secret : option (list (string * string)) }.

(** An entry of [graph.RegistryLoginCredentials], with the resolved values
    of the user name and of the password. *)
Record LoginCredential := { Registry : string; Username : string; Password : string }.

(** [graph.Task]: the two maps are given as the sequences their [range]
    loops yield; [UsingRegistryCreds] is the result of the method of that
    name. *)
Record Task := {
  Networks : list network;
  Volumes : list Volume;
  Steps : list Step;
  RegistryLoginCredentials : list LoginCredential;
  UsingRegistryCreds : bool;
  Credentials : list string;
  InitBuildkitContainer : bool;
  TaskDag : Dag
}.

End graph.

(** ** Package [builder] *)

Module builder.
Import graph.
Local Open Scope list_scope.

(** A Go [error]: [None] is [nil], [Some msg] an error with its message. *)
Definition error := option string.

(** [errors.Wrap(err, msg)], for an [err] that is not nil. *)
Definition Wrap (e msg : string) : string := msg +:+ ": " +:+ e.

Record Builder := { workspaceDir : string; debug : bool }.

Definition dockerImg : string := "docker".
Definition buildxImg : string := "buildx".

(** *** Operations

    The code of [builder.go] is a sequence of operations on its
    environment: the process manager and the other collaborators, the
    clock, the log, the [Dag], the fields of the steps, goroutines and
    channels.  A program is the tree of the operations it performs, each
    followed by what it does with the reply. *)

(** A [context.Context]: the context [RunTask] is given, or one derived
    from it with a timeout in seconds. *)
Inductive context := ctx | WithTimeout (parent : context) (seconds : Z).

(** The [io.Reader] and [io.Writer] arguments of the process manager. *)
Inductive stream := Nil | Stdout | Stderr | Buffer.

Inductive digester :=
| dockerStoreDigester
| remoteDigester (registryCreds : list LoginCredential).

(** The calls that reply with an error value (and, for some, a result). *)
Inductive call :=
| network_Create (c : context) (n : network)
| setupConfig (c : context)
| dockerLoginWithRetries (c : context) (registry user pw : string) (attempt : Z)
| prepareVolumeSource (c : context) (v : Volume)
| scrapeDependencies (c : context) (volName workDir stepID dockerfile dockerContext : string)
    (tags buildArgs : list string) (target : string) (credentials : list string)
| pushWithRetries (c : context) (images : list string)
| PopulateDigest (d : digester) (c : context) (ref : string)
| json_Marshal (deps : list Dependencies)
| Run (c : context) (args : list string) (stdin stdout stderr : stream) (cwd : string)
| RunWithRetries (c : context) (args : list string) (stdin stdout stderr : stream)
    (cwd : string) (retries : Z) (retryOnErrors : list string) (retryDelay : Z)
    (containerName : string)
| RunRepeatWithRetries (c : context) (args : list string) (stdin stdout stderr : stream)
    (cwd : string) (retries : Z) (retryOnErrors : list string) (retryDelay : Z)
    (containerName : string) (repeat : Z).

(** An assignment to a field of a step. *)
Inductive write :=
| WStepStatus (st : status)
| WStartTime (t : Z)
| WEndTime (t : Z)
| WImageDependencies (deps : list Dependencies)
| WBuild (b : string)
| WUpdateBuildStepWithDefaults.

Inductive op :=
| OLog (format : string)                 (* log.Printf, log.Println: the format only *)
| OCall (c : call)
| OSleep (seconds : Z)                   (* time.Sleep *)
| ONow                                   (* time.Now() *)
| ORead (id : string)                    (* the fields of step [id], as they stand *)
| OWrite (id : string) (w : write)
| ORemoveEdge (from to : string)         (* task.Dag.RemoveEdge *)
| OGetDegree (n : Node)                  (* n.GetDegree() *)
| OChildren (n : Node)                   (* n.Children() *)
| OOnceDo                                (* once.Do(f): is this the call that runs f? *)
| OGo (parent child : Node)              (* go b.processVertex(ctx, task, parent, child, errorChan) *)
| OSendError (e : string)                (* errorChan <- e *)
| OSendCompleted (id : string)           (* step.CompletedChan <- true *)
| OSelect (id : string).                 (* select over ctx.Done(), the channel of step [id], errorChan *)

(** The case a [select] of the barrier takes: with its error when the
    context is done ([ctx.Err()]), or with the error received. *)
Inductive selected := SelDone (e : string) | SelCompleted | SelError (e : string).

Inductive reply :=
| RUnit
| RErr (e : error)
| RMsgErr (msg : string) (e : error)
| RDeps (deps : list Dependencies) (e : error)
| RInt (z : Z)
| RStep (s : Step)
| RNodes (l : list Node)
| RBool (b : bool)
| RSel (s : selected).

(** The replies an operation can get. *)
Definition reply_ok (o : op) (r : reply) : bool :=
  match o, r with
  | OCall (network_Create _ _), RMsgErr _ _ => true
  | OCall (scrapeDependencies _ _ _ _ _ _ _ _ _ _), RDeps _ _ => true
  | OCall (network_Create _ _), _ => false
  | OCall (scrapeDependencies _ _ _ _ _ _ _ _ _ _), _ => false
  | OCall _, RErr _ => true
  | ONow, RInt _ => true
  | ORead _, RStep _ => true
  | ORemoveEdge _ _, RErr _ => true
  | OGetDegree _, RInt _ => true
  | OChildren _, RNodes _ => true
  | OOnceDo, RBool _ => true
  | OSelect _, RSel _ => true
  | (OLog _ | OSleep _ | OWrite _ _ | OGo _ _ | OSendError _ | OSendCompleted _), RUnit => true
  | _, _ => false
  end.

Inductive prog (R : Type) : Type :=
| Ret (r : R)
| Op (o : op) (k : reply → prog R).
Arguments Ret {R} r.
Arguments Op {R} o k.

Fixpoint bind {A B : Type} (p : prog A) (f : A → prog B) : prog B :=
  match p with
  | Ret a => f a
  | Op o k => Op o (λ r, bind (k r) f)
  end.

#[global] Instance prog_ret : MRet prog := @Ret.
#[global] Instance prog_bind : MBind prog := λ A B f p, bind p f.

(** One operation, and the reply read at the type the caller expects. *)
Definition perform (o : op) : prog unit := Op o (λ _, Ret tt).

Definition log (format : string) : prog unit := perform (OLog format).

Definition call_err (c : call) : prog error :=
  Op (OCall c) (λ r, Ret (match r with RErr e => e | _ => None end)).

Definition call_msg_err (c : call) : prog (string * error) :=
  Op (OCall c) (λ r, Ret (match r with RMsgErr m e => (m, e) | _ => ("", None) end)).

Definition call_deps_err (c : call) : prog (list Dependencies * error) :=
  Op (OCall c) (λ r, Ret (match r with RDeps d e => (d, e) | _ => ([], None) end)).

Definition now : prog Z :=
  Op ONow (λ r, Ret (match r with RInt z => z | _ => 0%Z end)).

Definition read_step (s : Step) : prog Step :=
  Op (ORead (ID s)) (λ r, Ret (match r with RStep s' => s' | _ => s end)).

Definition RemoveEdge (from to : string) : prog error :=
  Op (ORemoveEdge from to) (λ r, Ret (match r with RErr e => e | _ => None end)).

Definition GetDegree (n : Node) : prog Z :=
  Op (OGetDegree n) (λ r, Ret (match r with RInt z => z | _ => 0%Z end)).

Definition Children (n : Node) : prog (list Node) :=
  Op (OChildren n) (λ r, Ret (match r with RNodes l => l | _ => [] end)).

Definition once_Do (f : prog unit) : prog unit :=
  Op OOnceDo (λ r, match r with RBool true => f | _ => Ret tt end).

Definition select (id : string) : prog selected :=
  Op (OSelect id) (λ r, Ret (match r with RSel s => s | _ => SelCompleted end)).

(** [if c { p }]. *)
Definition when (c : bool) (p : prog unit) : prog unit := if c then p else Ret tt.

(** [for _, x := range xs { body }], with a body that does not return. *)
Fixpoint for_each {A : Type} (xs : list A) (body : A → prog unit) : prog unit :=
  match xs with
  | [] => Ret tt
  | x :: xs' => body x;; for_each xs' body
  end.

(** [for _, x := range xs { body }], with a body that may return an
    error from the function: the loop stops at the first one. *)
Fixpoint for_each_err {A : Type} (xs : list A) (body : A → prog error) : prog error :=
  match xs with
  | [] => Ret None
  | x :: xs' =>
    e ← body x;
    match e with Some _ => Ret e | None => for_each_err xs' body end
  end.

(** [if err := p; err != nil { return err }; k]. *)
Definition or_return (p : prog error) (k : prog error) : prog error :=
  e ← p; match e with Some _ => Ret e | None => k end.

Notation "'try' p ; k" := (or_return p k)
  (at level 20, p at level 100, k at level 200, only parsing, right associativity).

(** *** What [builder.go] uses and does not define

    Constants, functions of other files of the package, methods of
    [graph.Step], and [strings.ToLower] and [runtime.GOOS]: parameters of
    the development. *)
Class Collaborators := {
  GOOS : string;
  LinuxOS : string;
  WindowsOS : string;
  ToLower : string → string;
  WindowServerCore2019Image : string;
  DockerSocketVolumeMapping : string;
  configTimeoutInSec : Z;
  loginTimeoutInSec : Z;
  scrapeTimeoutInSec : Z;
  digestsTimeoutInSec : Z;
  buildkitdContainerRunTimeoutInSeconds : Z;
  buildkitdContainerInitRetries : Z;
  buildkitdContainerInitRetryDelay : Z;
  buildkitdContainerInitRepeat : Z;
  buildkitdContainerName : string;
  getDockerRunArgs :
    Builder → list (string * string) → string → string → bool → bool → bool →
    list string → list string → list string → bool →
    string → string → string → string → string → string → string → list string;
  getDockerRunArgsForStep :
    Builder → string → string → Step → string → string → list string;
  parseDockerBuildCmd : string → string * string * string;
  getContextFromGitURL : string → string;
  replacePositionalContext : string → string → string;
  IsLocalContext : string → bool;
  IsSourceControlURL : string → bool;
  IsCmdStep : Step → bool;
  IsBuildStep : Step → bool;
  IsPushStep : Step → bool;
  UseBuildCacheForBuildStep : Step → bool;
  ContainsImageDependency : Step → string → bool;
  UpdateBuildStepWithDefaults : Step → Step
}.

Section code.
Context `{Collaborators} (b : Builder).

(** The fields of a step after an assignment. *)
Definition apply_write (w : write) (s : Step) : Step :=
  match w with
  | WUpdateBuildStepWithDefaults => UpdateBuildStepWithDefaults s
  | _ =>
    {| ID := ID s; Cmd := Cmd s;
       Build := match w with WBuild x => x | _ => Build s end;
       Push := Push s; WorkingDirectory := WorkingDirectory s;
       EntryPoint := EntryPoint s; Network := Network s; Isolation := Isolation s;
       Tags := Tags s; BuildArgs := BuildArgs s; Pull := Pull s;
       IgnoreErrors := IgnoreErrors s; UsesBuildkit := UsesBuildkit s;
       Timeout := Timeout s; StartDelay := StartDelay s; Retries := Retries s;
       RetryOnErrors := RetryOnErrors s;
       RetryDelayInSeconds := RetryDelayInSeconds s; Repeat := Repeat s;
       CmdDownloadRetries := CmdDownloadRetries s;
       CmdDownloadRetryDelayInSeconds := CmdDownloadRetryDelayInSeconds s;
       StepStatus := match w with WStepStatus x => x | _ => StepStatus s end;
       StartTime := match w with WStartTime x => x | _ => StartTime s end;
       EndTime := match w with WEndTime x => x | _ => EndTime s end;
       ImageDependencies :=
         match w with WImageDependencies x => x | _ => ImageDependencies s end |}
  end.

(** An assignment through the pointer [step]; the program goes on with
    the fields as they are after it. *)
Definition assign (step : Step) (w : write) : prog Step :=
  Op (OWrite (ID step) w) (λ _, Ret (apply_write w step)).

(** [strings.Contains]. *)
Definition Contains (s substr : string) : bool :=
  match String.index 0 substr s with Some _ => true | None => false end.

Definition validateDockerContext (sourceContext : string) : prog unit :=
  let sourceContext := ToLower sourceContext in
  when (Contains sourceContext "github" && negb (Contains sourceContext ".git"))
    (log "WARNING: %s might not be valid context. Valid Git repositories should end with .git.\n").

(** [parseImageNameFromArgs]: [cmdArgs] up to its first space. *)
Fixpoint parseImageNameFromArgs (cmdArgs : string) : string :=
  match cmdArgs with
  | EmptyString => ""
  | String c rest =>
    if Ascii.eqb c " " then "" else String c (parseImageNameFromArgs rest)
  end.

Definition pullImageBeforeRun (c : context) (cmdArgs : string)
    (retries retryDelayInSeconds : Z) : prog error :=
  let imageName := parseImageNameFromArgs cmdArgs in
  let args := ["docker"; "run"; "--rm"; "--volume"; DockerSocketVolumeMapping;
               "docker"; "pull"; imageName] in
  when (debug b) (log "pull image args: %v\n");;
  call_err (RunWithRetries c args Nil Stdout Stdout "" retries [] retryDelayInSeconds "").

Definition preRunWindowsContainer (c : context) (step : Step) : prog unit :=
  let preRunArgs := ["docker"; "run"; "--rm"; "--name"; ID step +:+ "_prerun";
                     "--isolation"; "hyperv"; "--pull"; "always";
                     WindowServerCore2019Image] in
  when (debug b) (log "Pre-run args: %v\n");;
  err ← call_err (Run c preRunArgs Nil Nil Buffer "");
  when (debug b)
    (match err with
     | Some _ => log "Pre-run ran with error: %s\n"
     | None => log "Pre-run ran without issues\n"
     end).

(** The end of [runStep], from [if b.debug] on: what a build step and a
    cmd step do with their [args]. *)
Definition runStep_run (c : context) (step : Step) (args : list string) : prog error :=
  when (debug b) (log "Step args: %v\n");;
  let stepCtx := WithTimeout c (Timeout step) in
  when (String.eqb GOOS WindowsOS
        && (String.eqb (Isolation step) "" || String.eqb (Isolation step) "hyperv"))
    (when (String.eqb (parseImageNameFromArgs (Cmd step)) WindowServerCore2019Image
           || ContainsImageDependency step WindowServerCore2019Image)
       (once_Do (preRunWindowsContainer stepCtx step)));;
  call_err (RunRepeatWithRetries stepCtx args Nil Stdout Stderr ""
              (Retries step) (RetryOnErrors step) (RetryDelayInSeconds step)
              (ID step) (Repeat step)).

(** [runStep] from [var args []string] on; the deferred assignment of
    [EndTime] is in [runStep]. *)
Definition runStep_kind (c : context) (step : Step) (credentials : list string)
  : prog error :=
  if IsBuildStep step then
    let '(dockerfile, target, dockerContext) := parseDockerBuildCmd (Build step) in
    let volName := workspaceDir b in
    validateDockerContext dockerContext;;
    log "Scanning for dependencies...";;
    let scrapeCtx := WithTimeout c scrapeTimeoutInSec in
    r ← call_deps_err
          (scrapeDependencies scrapeCtx volName (WorkingDirectory step) (ID step)
             dockerfile dockerContext (Tags step) (BuildArgs step) target credentials);
    match r.2 with
    | Some e => Ret (Some (Wrap e "failed to scan dependencies"))
    | None =>
      log "Successfully scanned dependencies";;
      step ← assign step (WImageDependencies r.1);
      let workingDirectory :=
        if IsLocalContext dockerContext then WorkingDirectory step
        else if IsSourceControlURL dockerContext
             then ID step +:+ "/" +:+ getContextFromGitURL dockerContext
             else ID step in
      step ← (if IsLocalContext dockerContext then Ret step
              else assign step (WBuild (replacePositionalContext (Build step) ".")));
      step ← assign step WUpdateBuildStepWithDefaults;
      runStep_run c step
        (if UseBuildCacheForBuildStep step
         then getDockerRunArgsForStep b volName workingDirectory step ""
                (buildxImg +:+ " build " +:+ Build step)
         else getDockerRunArgsForStep b volName workingDirectory step ""
                (dockerImg +:+ " build " +:+ Build step))
    end
  else if IsPushStep step then
    let pushCtx := WithTimeout c (Timeout step) in
    call_err (pushWithRetries pushCtx (Push step))
  else
    runStep_run c step
      (getDockerRunArgsForStep b (workspaceDir b) (WorkingDirectory step) step
         (EntryPoint step) (Cmd step)).

Definition runStep (c : context) (step : Step) (credentials : list string) : prog error :=
  log "Executing step ID: %s. Timeout(sec): %d, Working directory: '%s', Network: '%s'\n";;
  when (0 <? StartDelay step)%Z
    (log "Waiting %d seconds before executing step ID: %s\n";;
     perform (OSleep (StartDelay step)));;
  try (if IsCmdStep step && Pull step
       then log "Step specified pull. Performing an explicit pull...\n";;
            pullImageBeforeRun c (Cmd step) (CmdDownloadRetries step)
              (CmdDownloadRetryDelayInSeconds step)
       else Ret None);
  step ← assign step (WStepStatus InProgress);
  t ← now;
  step ← assign step (WStartTime t);
  r ← runStep_kind c step credentials;
  t ← now;
  perform (OWrite (ID step) (WEndTime t));;     (* defer func() { step.EndTime = time.Now() }() *)
  Ret r.

Definition processVertex (task : Task) (parent child : Node) : prog unit :=
  err ← RemoveEdge (Name parent) (Name child);
  match err with
  | Some e => perform (OSendError (Wrap e "failed to remove edge"))
  | None =>
    degree ← GetDegree child;
    if (degree =? 0)%Z then
      let step := Value child in
      err ← runStep ctx step (Credentials task);
      match err with
      | Some e =>
        if IgnoreErrors step then
          log "Step ID: %s encountered an error: %v, but is set to ignore errors. Continuing...\n";;
          perform (OWrite (ID step) (WStepStatus Successful));;
          cs ← Children child;
          for_each cs (λ c, perform (OGo child c))
        else
          perform (OWrite (ID step) (WStepStatus Failed));;
          perform (OSendError (Wrap e ("failed to run step ID: " +:+ ID step)))
      | None =>
        perform (OWrite (ID step) (WStepStatus Successful));;
        cs ← Children child;
        for_each cs (λ c, perform (OGo child c))
      end;;
      (* Step must always be marked as complete. *)
      perform (OSendCompleted (ID step))
    else Ret tt
  end.

Definition getPopulateDigests (c : context) (dependencies : list Dependencies)
    (usingBuildkit : bool) (registryCreds : list LoginCredential) : prog error :=
  let baseImgDigester :=
    if usingBuildkit then remoteDigester registryCreds else dockerStoreDigester in
  for_each_err dependencies (λ entry,
    try call_err (PopulateDigest dockerStoreDigester c (Image entry));
    try call_err (PopulateDigest baseImgDigester c (Runtime entry));
    for_each_err (Buildtime entry) (λ buildtime,
      call_err (PopulateDigest baseImgDigester c buildtime))).

(** The block of [RunTask] under [if task.InitBuildkitContainer]. *)
Definition initBuildkitContainer : prog unit :=
  log "Task will use build cache, initializing buildkitd container";;
  let args := getDockerRunArgs b [] (workspaceDir b) "" false true true [] [] [] false
                "" "" "" "" "" buildkitdContainerName (buildxImg +:+ " create --use") in
  when (debug b) (log "buildkitd container args: %v\n");;
  let buildkitCtx := WithTimeout ctx buildkitdContainerRunTimeoutInSeconds in
  err ← call_err (RunRepeatWithRetries buildkitCtx args Nil Stdout Stderr ""
                    buildkitdContainerInitRetries [] buildkitdContainerInitRetryDelay
                    buildkitdContainerName buildkitdContainerInitRepeat);
  match err with
  | Some _ => log "buildx create --use failed with error: '%v'"
  | None => Ret tt
  end.

(** The loop of [RunTask] over [completedChans]: the result is the error
    [RunTask] returns from inside the loop, or [None] when the loop ends. *)
Fixpoint barrier (completedChans : list string) : prog error :=
  match completedChans with
  | [] => Ret None
  | ch :: rest =>
    s ← select ch;
    match s with
    | SelDone e => Ret (Some e)          (* case <-ctx.Done(): return ctx.Err() *)
    | SelCompleted => barrier rest       (* case <-ch: continue *)
    | SelError e => Ret (Some e)         (* case err := <-errorChan: return err *)
    end
  end.

(** The loop of [RunTask] over [task.Steps]: the error returned from
    inside the loop, if any, and [deps]. *)
Fixpoint populateDigests (task : Task) (steps : list Step) (deps : list Dependencies)
  : prog (error * list Dependencies) :=
  match steps with
  | [] => Ret (None, deps)
  | step :: rest =>
    step ← read_step step;
    log "Step ID: %v marked as %v (elapsed time in seconds: %f)\n";;
    if (0 <? length (ImageDependencies step))%nat then
      log "Populating digests for step ID: %s...\n";;
      let digestCtx := WithTimeout ctx digestsTimeoutInSec in
      let usingBuildkit :=
        (UseBuildCacheForBuildStep step && String.eqb GOOS LinuxOS) || UsesBuildkit step in
      when usingBuildkit (log "Image was built using buildkit, fetching Digest from remote...");;
      err ← getPopulateDigests digestCtx (ImageDependencies step) usingBuildkit
              (RegistryLoginCredentials task);
      match err with
      | Some e => Ret (Some e, deps)
      | None =>
        log "Successfully populated digests for step ID: %s\n";;
        populateDigests task rest (deps ++ ImageDependencies step)%list
      end
    else populateDigests task rest deps
  end.

Definition RunTask (task : Task) : prog error :=
  try for_each_err (Networks task) (λ network,
        if SkipCreation network then
          log "Skip creating network: %s\n";; Ret None
        else
          log "Creating Docker network: %s, driver: '%s'\n";;
          r ← call_msg_err (network_Create ctx network);
          match r.2 with
          | Some e =>
            Ret (Some ("failed to create network: " +:+ NetworkName network
                       +:+ ", err: " +:+ e +:+ ", msg: " +:+ r.1))
          | None => log "Successfully set up Docker network: %s\n";; Ret None
          end);
  log "Setting up Docker configuration...";;
  let configCtx := WithTimeout ctx configTimeoutInSec in
  try call_err (setupConfig configCtx);
  log "Successfully set up Docker configuration";;
  try (if UsingRegistryCreds task then
         for_each_err (RegistryLoginCredentials task) (λ cred,
           let loginCtx := WithTimeout ctx loginTimeoutInSec in
           log "Logging in to registry: %s\n";;
           try call_err (dockerLoginWithRetries loginCtx (Registry cred)
                           (Username cred) (Password cred) 0);
           log "Successfully logged into %s\n";; Ret None)
       else Ret None);
  let completedChans := (λ node, ID (Value node)) <$> Nodes (TaskDag task) in
  when (InitBuildkitContainer task) initBuildkitContainer;;
  try for_each_err (Volumes task) (λ volMount, call_err (prepareVolumeSource ctx volMount));
  children ← Children (Root (TaskDag task));
  for_each children (λ child, perform (OGo (Root (TaskDag task)) child));;
  try barrier completedChans;
  r ← populateDigests task (Steps task) [];
  match r.1 with
  | Some e => Ret (Some e)
  | None =>
    if (0 <? length r.2)%nat then
      err ← call_err (json_Marshal r.2);
      match err with
      | Some e => Ret (Some (Wrap e "failed to unmarshal image dependencies"))
      | None =>
        log "The following dependencies were found:";;
        log "\n%s";;
        Ret None
      end
    else Ret None
  end.

End code.

(** *** The runs of one function

    An event is an operation with the reply it got.  [runs_to p tr p']:
    the program [p] performs the operations of [tr], gets the replies of
    [tr], and has [p'] left to do.  The replies are those of the
    environment of the function: its collaborators and the other
    goroutines. *)

Definition event : Type := op * reply.

Fixpoint runs_to {R : Type} (p : prog R) (tr : list event) (p' : prog R) {struct tr}
  : Prop :=
  match tr with
  | [] => p = p'
  | ev :: tr' =>
    match p with
    | Ret _ => False
    | Op o k => o = ev.1 ∧ reply_ok o ev.2 = true ∧ runs_to (k ev.2) tr' p'
    end
  end.

(** [runs p tr res]: [p] runs to its end along [tr] and returns [res]. *)
Definition runs {R : Type} (p : prog R) (tr : list event) (res : R) : Prop :=
  runs_to p tr (Ret res).

(** *** The goroutines of one task run

    [RunTask] and the goroutines it starts, directly or not, run
    interleaved.  They share the [Dag], the fields of the steps, the
    latch [once], the context, the channel [errorChan] (made by
    [make(chan error)]: a send and a receive meet) and one channel
    [CompletedChan] per step. *)

(** The [Dag] of the task: what [RemoveEdge], [GetDegree] and [Children]
    do is not in [builder.go]. *)
Class DagOps (D : Type) := {
  dag_RemoveEdge : D → string → string → D * error;
  dag_GetDegree : D → Node → Z;
  dag_Children : D → Node → list Node
}.

Inductive thread := Main | Worker (i : nat).

#[global] Instance thread_eq_dec : EqDecision thread.
Proof. solve_decision. Defined.

(** The events of one goroutine in a sequence of events of the task
    run. *)
Fixpoint events_of (t : thread) (tr : list (thread * event)) : list event :=
  match tr with
  | [] => []
  | x :: tr' => if decide (x.1 = t) then x.2 :: events_of t tr' else events_of t tr'
  end.

Record state (D : Type) := State {
  st_dag : D;
  st_steps : gmap string Step;          (* the fields of the steps, by ID *)
  st_main : prog error;                 (* what RunTask has left to do *)
  st_pool : list (prog unit);           (* what each goroutine started has left to do *)
  st_done : error;                      (* ctx.Err() *)
  st_once : bool;                       (* once.Do has been called *)
  st_completed : gmap string nat        (* the values buffered in each CompletedChan *)
}.
Arguments State {D}.
Arguments st_dag {D}.
Arguments st_steps {D}.
Arguments st_main {D}.
Arguments st_pool {D}.
Arguments st_done {D}.
Arguments st_once {D}.
Arguments st_completed {D}.

Inductive action :=
| ACancel (e : string)       (* the context is cancelled, or its deadline passes *)
| AStep (t : thread) (r : reply)
                             (* [t] performs its next operation; [r] is the reply
                                when the environment chooses it *)
| ADone                      (* the select of RunTask takes <-ctx.Done() *)
| ARecvBuffered              (* ... receives a value buffered in the step's channel *)
| ARecvCompleted (i : nat)   (* ... receives what goroutine [i] sends on the step's channel *)
| ARecvError (i : nat).      (* ... receives what goroutine [i] sends on errorChan *)

Section run.
Context `{Collaborators} (b : Builder) (task : Task).
Context {D : Type} `{DagOps D}.
(** The capacity of the channels [CompletedChan], which are made outside
    [builder.go]. *)
Context (capacity : nat).

Definition buffered (σ : state D) (id : string) : nat :=
  default 0 (st_completed σ !! id).

Definition set_main (p : prog error) (σ : state D) : state D :=
  State (st_dag σ) (st_steps σ) p (st_pool σ) (st_done σ) (st_once σ) (st_completed σ).

Definition set_pool (l : list (prog unit)) (σ : state D) : state D :=
  State (st_dag σ) (st_steps σ) (st_main σ) l (st_done σ) (st_once σ) (st_completed σ).

Definition set_buffered (id : string) (n : nat) (σ : state D) : state D :=
  State (st_dag σ) (st_steps σ) (st_main σ) (st_pool σ) (st_done σ) (st_once σ)
        (<[id := n]> (st_completed σ)).

(** An operation a goroutine performs on its own: the state after it and
    the reply. *)
Definition local_op (σ : state D) (o : op) (r : reply) : option (state D * reply) :=
  match o with
  | OLog _ | OCall _ | OSleep _ | ONow =>
    if reply_ok o r then Some (σ, r) else None
  | ORead id =>
    match st_steps σ !! id with Some s => Some (σ, RStep s) | None => None end
  | OWrite id w =>
    Some (State (st_dag σ) (alter (apply_write w) id (st_steps σ)) (st_main σ)
            (st_pool σ) (st_done σ) (st_once σ) (st_completed σ), RUnit)
  | ORemoveEdge from to =>
    let de := dag_RemoveEdge (st_dag σ) from to in
    Some (State de.1 (st_steps σ) (st_main σ) (st_pool σ) (st_done σ) (st_once σ)
            (st_completed σ), RErr de.2)
  | OGetDegree n => Some (σ, RInt (dag_GetDegree (st_dag σ) n))
  | OChildren n => Some (σ, RNodes (dag_Children (st_dag σ) n))
  | OOnceDo =>
    Some (State (st_dag σ) (st_steps σ) (st_main σ) (st_pool σ) (st_done σ) true
            (st_completed σ), RBool (negb (st_once σ)))
  | OGo parent child =>
    Some (set_pool (st_pool σ ++ [processVertex b task parent child]) σ, RUnit)
  | OSendCompleted id =>
    if (buffered σ id <? capacity)%nat
    then Some (set_buffered id (S (buffered σ id)) σ, RUnit)
    else None
  | OSendError _ | OSelect _ => None
  end.

(** One step of the task run: the state after it and the events of the
    goroutines that take part. *)
Definition lts_step (σ : state D) (a : action)
  : option (state D * list (thread * event)) :=
  match a with
  | ACancel e =>
    match st_done σ with
    | None => Some (State (st_dag σ) (st_steps σ) (st_main σ) (st_pool σ) (Some e)
                      (st_once σ) (st_completed σ), [])
    | Some _ => None
    end
  | AStep Main r =>
    match st_main σ with
    | Op o k =>
      match local_op σ o r with
      | Some (σ', r') => Some (set_main (k r') σ', [(Main, (o, r'))])
      | None => None
      end
    | Ret _ => None
    end
  | AStep (Worker i) r =>
    match st_pool σ !! i with
    | Some (Op o k) =>
      match local_op σ o r with
      | Some (σ', r') =>
        Some (set_pool (<[i := k r']> (st_pool σ')) σ', [(Worker i, (o, r'))])
      | None => None
      end
    | _ => None
    end
  | ADone =>
    match st_main σ, st_done σ with
    | Op (OSelect id) k, Some e =>
      Some (set_main (k (RSel (SelDone e))) σ, [(Main, (OSelect id, RSel (SelDone e)))])
    | _, _ => None
    end
  | ARecvBuffered =>
    match st_main σ with
    | Op (OSelect id) k =>
      match buffered σ id with
      | S n => Some (set_main (k (RSel SelCompleted)) (set_buffered id n σ),
                     [(Main, (OSelect id, RSel SelCompleted))])
      | O => None
      end
    | _ => None
    end
  | ARecvCompleted i =>
    match st_main σ, st_pool σ !! i with
    | Op (OSelect id) k, Some (Op (OSendCompleted id') k') =>
      if String.eqb id id'
      then Some (set_main (k (RSel SelCompleted)) (set_pool (<[i := k' RUnit]> (st_pool σ)) σ),
                 [(Worker i, (OSendCompleted id', RUnit));
                  (Main, (OSelect id, RSel SelCompleted))])
      else None
    | _, _ => None
    end
  | ARecvError i =>
    match st_main σ, st_pool σ !! i with
    | Op (OSelect id) k, Some (Op (OSendError e) k') =>
      Some (set_main (k (RSel (SelError e))) (set_pool (<[i := k' RUnit]> (st_pool σ)) σ),
            [(Worker i, (OSendError e, RUnit));
             (Main, (OSelect id, RSel (SelError e)))])
    | _, _ => None
    end
  end.

(** [exec σ tr σ']: the task run goes from [σ] to [σ'], and [tr] is the
    sequence of the events on the way. *)
Inductive exec (σ : state D) : list (thread * event) → state D → Prop :=
| exec_refl : exec σ [] σ
| exec_snoc tr σ' a σ'' evs :
    exec σ tr σ' → lts_step σ' a = Some (σ'', evs) → exec σ (tr ++ evs) σ''.

(** The run along a given sequence of actions. *)
Fixpoint run_actions (σ : state D) (acts : list action)
  : option (state D * list (thread * event)) :=
  match acts with
  | [] => Some (σ, [])
  | a :: acts' =>
    match lts_step σ a with
    | Some (σ', evs) =>
      match run_actions σ' acts' with
      | Some (σ'', tr) => Some (σ'', evs ++ tr)
      | None => None
      end
    | None => None
    end
  end.

(** The state in which [RunTask] is called: no goroutine of the task run
    yet, nothing buffered; the step of each node and of [task.Steps] by
    its ID. *)
Definition init (d : D) (once : bool) : state D :=
  State d
    (list_to_map ((λ s, (ID s, s)) <$> (Steps task ++ (Value <$> Nodes (TaskDag task)))))
    (RunTask b task) [] None once ∅.

End run.

(** Modelled from the spec: [graph/dag.go] is not part of the sources.
    A node has its forward adjacency (the children, kept when an edge is
    removed) and its reverse adjacency (the parents not yet completed);
    [RemoveEdge from to] removes the reverse entry [to ← from], [Degree]
    is the size of the reverse adjacency, [Children] the forward
    adjacency.  [RemoveEdge] on a node the dag does not have is an
    error. *)
Record dag_state := DagState {
  dag_parents : gmap string (gset string);
  dag_children : gmap string (list Node)
}.

#[global] Instance dag_state_ops : DagOps dag_state := {|
  dag_RemoveEdge d from to :=
    match dag_parents d !! to with
    | Some ps => (DagState (<[to := ps ∖ {[from]}]> (dag_parents d)) (dag_children d), None)
    | None => (d, Some ("node not found: " +:+ to))
    end;
  dag_GetDegree d n := Z.of_nat (size (default ∅ (dag_parents d !! Name n)));
  dag_Children d n := default [] (dag_children d !! Name n)
|}.

End builder.

(** ** A task to run the definitions on *)

Module example.
Import graph builder.
Local Open Scope list_scope.

(** Modelled from the spec: the collaborators of [builder.go] are not part
    of the sources.  A step is a build, push or cmd step by the field it
    has (spec 3); the helpers that build the arguments of the engine keep
    the command only, and the other helpers change nothing; the constants
    have values of the right type. *)
#[global] Instance collaborators : Collaborators := {|
  GOOS := "linux";
  LinuxOS := "linux";
  WindowsOS := "windows";
  ToLower := λ s, s;
  WindowServerCore2019Image := "mcr.microsoft.com/windows/servercore:ltsc2019";
  DockerSocketVolumeMapping := "/var/run/docker.sock:/var/run/docker.sock";
  configTimeoutInSec := 120;
  loginTimeoutInSec := 120;
  scrapeTimeoutInSec := 120;
  digestsTimeoutInSec := 120;
  buildkitdContainerRunTimeoutInSeconds := 120;
  buildkitdContainerInitRetries := 3;
  buildkitdContainerInitRetryDelay := 5;
  buildkitdContainerInitRepeat := 0;
  buildkitdContainerName := "buildkitd";
  getDockerRunArgs := λ _ _ _ _ _ _ _ _ _ _ _ _ _ _ _ _ name cmd,
    ["docker"; "run"; "--name"; name; cmd];
  getDockerRunArgsForStep := λ _ _ _ step _ cmd, ["docker"; "run"; "--name"; ID step; cmd];
  parseDockerBuildCmd := λ _, ("Dockerfile", "", ".");
  getContextFromGitURL := λ s, s;
  replacePositionalContext := λ s _, s;
  IsLocalContext := λ _, true;
  IsSourceControlURL := λ _, false;
  IsCmdStep := λ s, negb (String.eqb (Cmd s) "");
  IsBuildStep := λ s, negb (String.eqb (Build s) "");
  IsPushStep := λ s, match Push s with [] => false | _ => true end;
  UseBuildCacheForBuildStep := λ _, false;
  ContainsImageDependency := λ _ _, false;
  UpdateBuildStepWithDefaults := λ s, s
|}.

Definition builder0 : Builder := {| workspaceDir := "/workspace"; debug := false |}.

(** A cmd step, as the loader leaves it. *)
Definition cmd_step (id cmd : string) (pull ignoreErrors : bool) : Step := {|
  ID := id; Cmd := cmd; Build := ""; Push := []; WorkingDirectory := "";
  EntryPoint := ""; Network := ""; Isolation := ""; Tags := []; BuildArgs := [];
  Pull := pull; IgnoreErrors := ignoreErrors; UsesBuildkit := false;
  Timeout := 600; StartDelay := 0; Retries := 3; RetryOnErrors := ["transient"];
  RetryDelayInSeconds := 2; Repeat := 1;
  CmdDownloadRetries := 5; CmdDownloadRetryDelayInSeconds := 7;
  StepStatus := Skipped; StartTime := 0; EndTime := 0; ImageDependencies := []
|}.

Definition push_step (id : string) (images : list string) : Step := {|
  ID := id; Cmd := ""; Build := ""; Push := images; WorkingDirectory := "";
  EntryPoint := ""; Network := ""; Isolation := ""; Tags := []; BuildArgs := [];
  Pull := false; IgnoreErrors := false; UsesBuildkit := false;
  Timeout := 600; StartDelay := 0; Retries := 3; RetryOnErrors := ["transient"];
  RetryDelayInSeconds := 2; Repeat := 1;
  CmdDownloadRetries := 5; CmdDownloadRetryDelayInSeconds := 7;
  StepStatus := Skipped; StartTime := 0; EndTime := 0; ImageDependencies := []
|}.

Definition node (s : Step) : Node := {| Name := ID s; Value := s |}.

Definition root : Node := node (cmd_step "acb_root" "" false false).

(** The task [a → b] of two cmd steps: [b] has [when: [a]]. *)
Definition step_a (ignoreErrors : bool) : Step := cmd_step "a" "bash echo a" false ignoreErrors.
Definition step_b : Step := cmd_step "b" "bash echo b" false false.

Definition chain (ignoreErrors : bool) (buildkit : bool) : Task := {|
  Networks := []; Volumes := [];
  Steps := [step_a ignoreErrors; step_b];
  RegistryLoginCredentials := []; UsingRegistryCreds := false; Credentials := [];
  InitBuildkitContainer := buildkit;
  TaskDag := {| Root := root; Nodes := [node (step_a ignoreErrors); node step_b] |}
|}.

Definition chain_dag (ignoreErrors : bool) : dag_state := {|
  dag_parents := {[ "a" := {[ "acb_root" ]}; "b" := {[ "a" ]} ]};
  dag_children := {[ "acb_root" := [node (step_a ignoreErrors)];
                     "a" := [node step_b]; "b" := [] ]}
|}.

(** A task without steps. *)
Definition empty_task (buildkit : bool) : Task := {|
  Networks := []; Volumes := []; Steps := [];
  RegistryLoginCredentials := []; UsingRegistryCreds := false; Credentials := [];
  InitBuildkitContainer := buildkit;
  TaskDag := {| Root := root; Nodes := [] |}
|}.

(** The events of [runStep] on a cmd step without pull, up to the reply
    [e] of the engine. *)
Definition cmd_events (s : Step) (e : error) : list event :=
  [ (OLog "Executing step ID: %s. Timeout(sec): %d, Working directory: '%s', Network: '%s'\n", RUnit);
    (OWrite (ID s) (WStepStatus InProgress), RUnit);
    (ONow, RInt 10);
    (OWrite (ID s) (WStartTime 10), RUnit);
    (OCall (RunRepeatWithRetries (WithTimeout ctx (Timeout s))
              ["docker"; "run"; "--name"; ID s; Cmd s] Nil Stdout Stderr ""
              (Retries s) (RetryOnErrors s) (RetryDelayInSeconds s) (ID s) (Repeat s)),
     RErr e);
    (ONow, RInt 20);
    (OWrite (ID s) (WEndTime 20), RUnit) ].

(** The actions of a run of the task [a → b]. *)
Definition main_start : list action :=
  [AStep Main RUnit;            (* log *)
   AStep Main (RErr None);      (* setupConfig *)
   AStep Main RUnit;            (* log *)
   AStep Main RUnit;            (* Root.Children() *)
   AStep Main RUnit].           (* go processVertex(Root, a) *)

(** Goroutine [i] up to the return of [runStep], the engine replying
    [e]. *)
Definition worker_runStep (i : nat) (e : error) : list action :=
  [AStep (Worker i) RUnit;      (* RemoveEdge *)
   AStep (Worker i) RUnit;      (* GetDegree *)
   AStep (Worker i) RUnit;      (* log *)
   AStep (Worker i) RUnit;      (* StepStatus = InProgress *)
   AStep (Worker i) (RInt 10);  (* time.Now() *)
   AStep (Worker i) RUnit;      (* StartTime *)
   AStep (Worker i) (RErr e);   (* RunRepeatWithRetries *)
   AStep (Worker i) (RInt 20);  (* time.Now() *)
   AStep (Worker i) RUnit].     (* EndTime *)

(** Both steps succeed. *)
Definition chain_actions : list action :=
  main_start
  ++ worker_runStep 0 None
  ++ [AStep (Worker 0) RUnit;   (* StepStatus = Successful *)
      AStep (Worker 0) RUnit;   (* Children() *)
      AStep (Worker 0) RUnit;   (* go processVertex(a, b) *)
      ARecvCompleted 0]
  ++ worker_runStep 1 None
  ++ [AStep (Worker 1) RUnit;   (* StepStatus = Successful *)
      AStep (Worker 1) RUnit;   (* Children() *)
      ARecvCompleted 1]
  ++ [AStep Main RUnit; AStep Main RUnit; AStep Main RUnit; AStep Main RUnit].

(** Step [a] fails. *)
Definition chain_fail_actions : list action :=
  main_start
  ++ worker_runStep 0 (Some "exit status 1")
  ++ [AStep (Worker 0) RUnit;   (* StepStatus = Failed *)
      ARecvError 0].

Definition chain_end (capacity : nat) : state dag_state * list (thread * event) :=
  let σ := init builder0 (chain false false) (chain_dag false) false in
  default (σ, []) (run_actions builder0 (chain false false) capacity σ chain_actions).

Definition chain_fail_end (capacity : nat) : state dag_state * list (thread * event) :=
  let σ := init builder0 (chain false false) (chain_dag false) false in
  default (σ, []) (run_actions builder0 (chain false false) capacity σ chain_fail_actions).

(** A run of [processVertex] for step [a], which succeeds. *)
Definition chain_a_run : list event :=
  [(ORemoveEdge "acb_root" "a", RErr None); (OGetDegree (node (step_a false)), RInt 0)]
  ++ cmd_events (step_a false) None
  ++ [(OWrite "a" (WStepStatus Successful), RUnit);
      (OChildren (node (step_a false)), RNodes [node step_b]);
      (OGo (node (step_a false)) (node step_b), RUnit);
      (OSendCompleted "a", RUnit)].

(** The same, with the completion signal pushed before the goroutine of
    the child is started. *)
Definition chain_a_run_signal_first : list event :=
  [(ORemoveEdge "acb_root" "a", RErr None); (OGetDegree (node (step_a false)), RInt 0)]
  ++ cmd_events (step_a false) None
  ++ [(OWrite "a" (WStepStatus Successful), RUnit);
      (OSendCompleted "a", RUnit);
      (OChildren (node (step_a false)), RNodes [node step_b]);
      (OGo (node (step_a false)) (node step_b), RUnit)].

(** What a goroutine does after [runStep] has failed on a step with
    [IgnoreErrors]. *)
Definition ignored_tail : list event :=
  [(OLog "Step ID: %s encountered an error: %v, but is set to ignore errors. Continuing...\n",
    RUnit);
   (OWrite "a" (WStepStatus Successful), RUnit);
   (OChildren (node (step_a true)), RNodes [node step_b]);
   (OGo (node (step_a true)) (node step_b), RUnit);
   (OSendCompleted "a", RUnit)].

(** A cmd step with [pull: true], and the run of [runStep] in which the
    pull fails. *)
Definition step_pull : Step := cmd_step "a" "bash echo a" true false.

Definition pull_call : call :=
  RunWithRetries ctx
    ["docker"; "run"; "--rm"; "--volume"; "/var/run/docker.sock:/var/run/docker.sock";
     "docker"; "pull"; "bash"]
    Nil Stdout Stdout "" 5 [] 7 "".

Definition pull_run : list event :=
  [(OLog "Executing step ID: %s. Timeout(sec): %d, Working directory: '%s', Network: '%s'\n",
    RUnit);
   (OLog "Step specified pull. Performing an explicit pull...\n", RUnit);
   (OCall pull_call, RErr (Some "pull access denied"))].

(** The initialization of the buildkitd container, and the run of
    [RunTask] on the task without steps that requires the build cache. *)
Definition init_call : call :=
  RunRepeatWithRetries (WithTimeout ctx 120)
    ["docker"; "run"; "--name"; "buildkitd"; "buildx create --use"]
    Nil Stdout Stderr "" 3 [] 5 "buildkitd" 0.

Definition init_start : list event :=
  [(OLog "Setting up Docker configuration...", RUnit);
   (OCall (setupConfig (WithTimeout ctx 120)), RErr None);
   (OLog "Successfully set up Docker configuration", RUnit);
   (OLog "Task will use build cache, initializing buildkitd container", RUnit)].

Definition empty_run : list event :=
  init_start ++ [(OCall init_call, RErr None); (OChildren root, RNodes [])].

End example.

(** ** More tasks *)

Module example_more.
Import graph builder example.
Local Open Scope list_scope.

Definition step_c : Step := cmd_step "c" "bash echo c" false false.
Definition step_d : Step := cmd_step "d" "bash echo d" false false.

(** The task [a → {b, c} → d]: [d] has [when: [b, c]]. *)
Definition diamond : Task := {|
  Networks := []; Volumes := [];
  Steps := [step_a false; step_b; step_c; step_d];
  RegistryLoginCredentials := []; UsingRegistryCreds := false; Credentials := [];
  InitBuildkitContainer := false;
  TaskDag := {| Root := root;
                Nodes := [node (step_a false); node step_b; node step_c; node step_d] |}
|}.

Definition diamond_dag : dag_state := {|
  dag_parents := {[ "a" := {[ "acb_root" ]}; "b" := {[ "a" ]}; "c" := {[ "a" ]};
                    "d" := {[ "b"; "c" ]} ]};
  dag_children := {[ "acb_root" := [node (step_a false)];
                     "a" := [node step_b; node step_c];
                     "b" := [node step_d]; "c" := [node step_d]; "d" := [] ]}
|}.

(** Goroutine [i] in [runStep], the engine replying [e]. *)
Definition worker_in_runStep (i : nat) (e : error) : list action :=
  drop 2 (worker_runStep i e).

Definition diamond_actions : list action :=
  main_start
  ++ worker_runStep 0 None
  ++ [AStep (Worker 0) RUnit;   (* a: StepStatus = Successful *)
      AStep (Worker 0) RUnit;   (* Children() *)
      AStep (Worker 0) RUnit;   (* go processVertex(a, b): goroutine 1 *)
      AStep (Worker 0) RUnit;   (* go processVertex(a, c): goroutine 2 *)
      ARecvCompleted 0]
  ++ worker_runStep 1 None
  ++ [AStep (Worker 1) RUnit;   (* b: StepStatus = Successful *)
      AStep (Worker 1) RUnit;   (* Children() *)
      AStep (Worker 1) RUnit;   (* go processVertex(b, d): goroutine 3 *)
      ARecvCompleted 1]
  ++ worker_runStep 2 None
  ++ [AStep (Worker 2) RUnit;   (* c: StepStatus = Successful *)
      AStep (Worker 2) RUnit;   (* Children() *)
      AStep (Worker 2) RUnit;   (* go processVertex(c, d): goroutine 4 *)
      ARecvCompleted 2]
  ++ [AStep (Worker 3) RUnit;   (* RemoveEdge(b, d) *)
      AStep (Worker 4) RUnit;   (* RemoveEdge(c, d) *)
      AStep (Worker 3) RUnit;   (* GetDegree(d) = 0 *)
      AStep (Worker 4) RUnit]   (* GetDegree(d) = 0 *)
  ++ worker_in_runStep 3 None
  ++ [AStep (Worker 3) RUnit]   (* d: StepStatus = Successful *)
  ++ worker_in_runStep 4 (Some "exit status 1")
  ++ [AStep (Worker 4) RUnit;   (* d: StepStatus = Failed *)
      AStep (Worker 3) RUnit;   (* Children() *)
      ARecvCompleted 3]
  ++ [AStep Main RUnit; AStep Main RUnit; AStep Main RUnit; AStep Main RUnit;
      AStep Main RUnit; AStep Main RUnit; AStep Main RUnit; AStep Main RUnit].

Definition diamond_end (capacity : nat) : state dag_state * list (thread * event) :=
  let σ := init builder0 diamond diamond_dag false in
  default (σ, []) (run_actions builder0 diamond capacity σ diamond_actions).

(** A task [a → b] that requires the build cache and mounts a volume, and
    what [RunTask] does on it after the initialization of the buildkitd
    container has failed. *)
Definition secrets : Volume :=
  {| VolumeName := "secrets"; Secret := Some [("token", "c2VjcmV0")] |}.

Definition chain_cached : Task := {|
  Networks := []; Volumes := [secrets];
  Steps := [step_a false; step_b];
  RegistryLoginCredentials := []; UsingRegistryCreds := false; Credentials := [];
  InitBuildkitContainer := true;
  TaskDag := {| Root := root; Nodes := [node (step_a false); node step_b] |}
|}.

Definition cached_tail : list event :=
  [(OLog "buildx create --use failed with error: '%v'", RUnit);
   (OCall (prepareVolumeSource ctx secrets), RErr None);
   (OChildren root, RNodes [node (step_a false)]);
   (OGo root (node (step_a false)), RUnit);
   (OSelect "a", RSel SelCompleted);
   (OSelect "b", RSel SelCompleted);
   (ORead "a", RStep (step_a false));
   (OLog "Step ID: %v marked as %v (elapsed time in seconds: %f)\n", RUnit);
   (ORead "b", RStep step_b);
   (OLog "Step ID: %v marked as %v (elapsed time in seconds: %f)\n", RUnit)].


(** The task [a → b] on a network of its own, and the run of [RunTask]
    in which the creation of the network fails. *)
Definition net : network :=
  {| NetworkName := "acb_default"; Driver := "bridge"; SkipCreation := false |}.

Definition chain_net : Task := {|
  Networks := [net]; Volumes := [];
  Steps := [step_a false; step_b];
  RegistryLoginCredentials := []; UsingRegistryCreds := false; Credentials := [];
  InitBuildkitContainer := false;
  TaskDag := {| Root := root; Nodes := [node (step_a false); node step_b] |}
|}.

Definition net_fails : list event :=
  [(OLog "Creating Docker network: %s, driver: '%s'\n", RUnit);
   (OCall (network_Create ctx net), RMsgErr "daemon unreachable" (Some "exit status 1"))].

End example_more.

(** ** Package [builder]: cleanup and secret volumes

    [CleanTask], [prepareVolumeSource], [createSecretFiles] and
    [populateSecretVolume] run no goroutine and touch no channel: they
    drive the process manager, one command after the other. *)

Module builder_shell.
Import graph builder.
Local Open Scope list_scope.

(** What these functions use and do not define: [getShell] and the
    constant [configImageName] of the package, and
    [base64.StdEncoding.DecodeString] ([None] when it returns an error,
    else the bytes decoded, as [string(decoded)]). *)
Class ShellCollaborators := {
  getShell : list string;
  configImageName : string;
  DecodeString : string → option string
}.

(** The bytes of a carriage return, of a line feed and of a double quote,
    which the Go literals write with a backslash. *)
Definition CR : string := String "013" "".
Definition LF : string := String "010" "".
Definition DQ : string := String "034" "".

Inductive command :=
| procManager_Run (c : context) (args : list string) (stdin stdout stderr : stream)
    (cwd : string)
| procManager_Stop
| network_Delete (c : context) (n : network)
| log_Printf (format : string) (args : list string)
| log_Println (line : string)
| step_StepStatus (id : string)            (* step.StepStatus, as it stands *)
| range_Secret (secret : list (string * string)).  (* range volMount.Source.Secret *)

(** The reply to a command.  [AOutErr out e]: the error returned, with
    the message [network.Delete] returns or, for [procManager.Run], what
    the process wrote to its output (the contents of the buffer when both
    writers are the buffer). *)
Inductive answer :=
| AUnit
| AErr (e : error)
| AOutErr (out : string) (e : error)
| AStatus (st : status)
| AEntries (kvs : list (string * string)).

(** The answers a command can get.  A [range] over a map yields its
    entries in an order Go does not fix. *)
Definition answer_ok (c : command) (a : answer) : Prop :=
  match c, a with
  | procManager_Run _ _ _ _ _ _, AOutErr _ _ => True
  | network_Delete _ _, AOutErr _ _ => True
  | procManager_Stop, AErr _ => True
  | (log_Printf _ _ | log_Println _), AUnit => True
  | step_StepStatus _, AStatus _ => True
  | range_Secret secret, AEntries kvs => kvs ≡ₚ secret
  | _, _ => False
  end.

Inductive proc (R : Type) : Type :=
| Done (r : R)
| Do (c : command) (k : answer → proc R).
Arguments Done {R} r.
Arguments Do {R} c k.

Fixpoint proc_bind {A B : Type} (p : proc A) (f : A → proc B) : proc B :=
  match p with
  | Done a => f a
  | Do c k => Do c (λ a, proc_bind (k a) f)
  end.

#[global] Instance proc_ret : MRet proc := @Done.
#[global] Instance proc_mbind : MBind proc := λ A B f p, proc_bind p f.

Definition Run (c : context) (args : list string) (stdin stdout stderr : stream)
    (cwd : string) : proc (string * error) :=
  Do (procManager_Run c args stdin stdout stderr cwd)
     (λ a, Done (match a with AOutErr out e => (out, e) | _ => ("", None) end)).

Definition Stop : proc error :=
  Do procManager_Stop (λ a, Done (match a with AErr e => e | _ => None end)).

Definition Delete (c : context) (n : network) : proc (string * error) :=
  Do (network_Delete c n)
     (λ a, Done (match a with AOutErr msg e => (msg, e) | _ => ("", None) end)).

Definition Printf (format : string) (args : list string) : proc unit :=
  Do (log_Printf format args) (λ _, Done tt).

Definition Println (line : string) : proc unit :=
  Do (log_Println line) (λ _, Done tt).

Definition get_StepStatus (step : Step) : proc status :=
  Do (step_StepStatus (ID step))
     (λ a, Done (match a with AStatus st => st | _ => StepStatus step end)).

Definition range_map (m : list (string * string)) : proc (list (string * string)) :=
  Do (range_Secret m) (λ a, Done (match a with AEntries kvs => kvs | _ => m end)).

(** [for _, x := range xs { body }], with a body that does not return. *)
Fixpoint range {A : Type} (xs : list A) (body : A → proc unit) : proc unit :=
  match xs with
  | [] => Done tt
  | x :: xs' => body x;; range xs' body
  end.

(** The same with a body that may return an error from the function: the
    loop stops at the first one. *)
Fixpoint range_err {A : Type} (xs : list A) (body : A → proc error) : proc error :=
  match xs with
  | [] => Done None
  | x :: xs' =>
    e ← body x;
    match e with Some _ => Done e | None => range_err xs' body end
  end.

Definition is_Skipped (st : status) : bool :=
  match st with Skipped => true | _ => false end.

Section code.
Context `{Collaborators} `{ShellCollaborators} (b : Builder).

(** [CleanTask]. *)
Definition CleanTask (c : context) (task : Task) : proc unit :=
  let args := ["docker"; "rm"; "-f"] in
  range (Nodes (TaskDag task)) (λ n,
    let step := Value n in
    st ← get_StepStatus step;
    if negb (is_Skipped st)
    then let killArgs := args ++ [ID step] in
         _ ← Run c killArgs Nil Nil Nil ""; Done tt
    else Done tt);;
  range (Networks task) (λ network,
    if SkipCreation network
    then Printf ("Skip deleting network: %s" +:+ LF) [NetworkName network]
    else
      r ← Delete c network;
      match r.2 with
      | Some e =>
        Printf ("Failed to delete network: %s, err: %v, msg: %s" +:+ LF)
               [NetworkName network; e; r.1]
      | None => Done tt
      end);;
  _ ← Stop; Done tt.

(** The command [createSecretFiles] writes the file of key [k] with. *)
Definition write_command (volMount : Volume) (k val : string) : string :=
  if String.eqb GOOS WindowsOS
  then "Add-Content -Path " +:+ (VolumeName volMount +:+ "/" +:+ k)
       +:+ (" -Value @" +:+ DQ +:+ CR +:+ LF) +:+ val +:+ (CR +:+ LF +:+ DQ +:+ "@")
  else "cat >> " +:+ (VolumeName volMount +:+ "/" +:+ k)
       +:+ (" <<EOL" +:+ LF) +:+ val +:+ (LF +:+ "EOL").

(** [createSecretFiles]. *)
Definition createSecretFiles (c : context) (volMount : Volume) : proc error :=
  let args := getShell ++ ["mkdir " +:+ VolumeName volMount] in
  r ← Run c args Nil Buffer Buffer "";
  match r.2 with
  | Some e => Done (Some (Wrap e ("failed to make directory, " +:+ r.1)))
  | None =>
    entries ← range_map (default [] (Secret volMount));
    range_err entries (λ kv,
      match DecodeString kv.2 with
      | None =>
        Done (Some "failed to decode Base64 value. please make sure value provided is Base64 encoded")
      | Some val =>
        let args := getShell ++ [write_command volMount kv.1 val] in
        r ← Run c args Nil Buffer Buffer "";
        match r.2 with
        | Some e => Done (Some (Wrap e ("failed to write value, " +:+ r.1)))
        | None => Done None
        end
      end)
  end.

(** The command [populateSecretVolume] runs; [entries] is what its loop
    over the map yields (the Windows command has no such loop). *)
Definition populate_command (volMount : Volume) (entries : list (string * string))
  : string :=
  if String.eqb GOOS WindowsOS
  then ("docker run --rm -v " +:+ workspaceDir b +:+ ":c:\source -v ")
       +:+ (VolumeName volMount +:+ ":c:\dest -w c:\source ")
       +:+ (configImageName +:+ " cmd.exe /c copy c:\source\" +:+ VolumeName volMount
            +:+ " c:\dest")
  else ("docker run --rm -v " +:+ workspaceDir b +:+ ":/source -v ")
       +:+ (VolumeName volMount +:+ ":/dest -w /source " +:+ configImageName +:+ " cp ")
       +:+ foldr (λ kv rest, (VolumeName volMount +:+ "/" +:+ kv.1) +:+ " " +:+ rest)
                 "/dest" entries.

(** [populateSecretVolume]. *)
Definition populateSecretVolume (c : context) (volMount : Volume) : proc error :=
  entries ← (if String.eqb GOOS WindowsOS then Done []
             else range_map (default [] (Secret volMount)));
  let dataContainerArgs := getShell ++ [populate_command volMount entries] in
  r ← Run c dataContainerArgs Nil Buffer Buffer "";
  match r.2 with
  | Some e => Done (Some (Wrap e ("failed to populate container, " +:+ r.1)))
  | None => Done None
  end.

(** [prepareVolumeSource]. *)
Definition prepareVolumeSource (c : context) (volMount : Volume) : proc error :=
  match Secret volMount with
  | Some _ =>
    err ← createSecretFiles c volMount;
    match err with
    | Some _ => Done err
    | None =>
      err ← populateSecretVolume c volMount;
      match err with
      | Some _ => Done err
      | None =>
        Println ("Volume source " +:+ VolumeName volMount +:+ " successfully created");;
        Done None
      end
    end
  | None => Done (Some "volume source type not supported yet")
  end.

End code.

(** *** The runs of one function *)

Definition occurrence : Type := command * answer.

(** [does p tr p']: the program [p] issues the commands of [tr], gets
    the answers of [tr], and has [p'] left to do. *)
Fixpoint does {R : Type} (p : proc R) (tr : list occurrence) (p' : proc R) {struct tr}
  : Prop :=
  match tr with
  | [] => p = p'
  | oc :: tr' =>
    match p with
    | Done _ => False
    | Do c k => c = oc.1 ∧ answer_ok c oc.2 ∧ does (k oc.2) tr' p'
    end
  end.

(** [completes p tr res]: [p] runs to its end along [tr] and returns
    [res]. *)
Definition completes {R : Type} (p : proc R) (tr : list occurrence) (res : R) : Prop :=
  does p tr (Done res).

End builder_shell.

(** ** Examples for the cleanup and for secret volumes *)

Module example_shell.
Import graph builder builder_shell example example_more.
Local Open Scope list_scope.

(** Values for the examples: [getShell] and [configImageName] are defined
    in other files of the package, [DecodeString] is Go's; here it
    decodes the one value the examples hold. *)
#[global] Instance shell : ShellCollaborators := {|
  getShell := ["/bin/sh"; "-c"];
  configImageName := "acb-config";
  DecodeString := λ s, if String.eqb s "c2VjcmV0" then Some "secret" else None
|}.

Definition host : network :=
  {| NetworkName := "host"; Driver := "host"; SkipCreation := true |}.

(** The task [a → b] with a network to delete and one to leave. *)
Definition chain_nets : Task := {|
  Networks := [net; host]; Volumes := [];
  Steps := [step_a false; step_b];
  RegistryLoginCredentials := []; UsingRegistryCreds := false; Credentials := [];
  InitBuildkitContainer := false;
  TaskDag := {| Root := root; Nodes := [node (step_a false); node step_b] |}
|}.

(** A cleanup after [a] failed: the removal of its container fails, and
    so does the deletion of the network. *)
Definition cleanup : list occurrence :=
  [(step_StepStatus "a", AStatus Failed);
   (procManager_Run ctx ["docker"; "rm"; "-f"; "a"] Nil Nil Nil "",
    AOutErr "" (Some "exit status 1"));
   (step_StepStatus "b", AStatus Skipped);
   (network_Delete ctx net, AOutErr "network has active endpoints" (Some "exit status 1"));
   (log_Printf ("Failed to delete network: %s, err: %v, msg: %s" +:+ LF)
      ["acb_default"; "exit status 1"; "network has active endpoints"], AUnit);
   (log_Printf ("Skip deleting network: %s" +:+ LF) ["host"], AUnit);
   (procManager_Stop, AErr None)].

(** The files of the volume [secrets] are created. *)
Definition files_created : list occurrence :=
  [(procManager_Run ctx ["/bin/sh"; "-c"; "mkdir secrets"] Nil Buffer Buffer "",
    AOutErr "" None);
   (range_Secret [("token", "c2VjcmV0")], AEntries [("token", "c2VjcmV0")]);
   (procManager_Run ctx
      ["/bin/sh"; "-c"; "cat >> secrets/token <<EOL" +:+ LF +:+ "secret" +:+ LF +:+ "EOL"]
      Nil Buffer Buffer "",
    AOutErr "" None)].

(** The volume is populated, or not. *)
Definition populated (out : string) (e : error) : list occurrence :=
  [(range_Secret [("token", "c2VjcmV0")], AEntries [("token", "c2VjcmV0")]);
   (procManager_Run ctx
      ["/bin/sh"; "-c";
       "docker run --rm -v /workspace:/source -v secrets:/dest -w /source acb-config cp secrets/token /dest"]
      Nil Buffer Buffer "",
    AOutErr out e)].

End example_shell.

(* ====================== THEOREMS ====================== *)

(** * Runs of programs *)

Module traces.
Import graph builder.
Local Open Scope list_scope.

Section runs.
Context {R : Type}.
Implicit Types (p q : prog R) (tr : list event).

Lemma runs_to_Ret (r : R) tr q : runs_to (Ret r) tr q → tr = [] ∧ q = Ret r.
Proof. destruct tr; simpl; [intros <-; done | done]. Qed.

Lemma runs_to_Op o k tr q :
  runs_to (Op o k) tr q →
  (tr = [] ∧ q = Op o k)
  ∨ ∃ r tr', tr = (o, r) :: tr' ∧ reply_ok o r = true ∧ runs_to (k r) tr' q.
Proof.
  destruct tr as [|[o' r] tr']; simpl.
  - intros <-. by left.
  - intros (-> & Hok & Hrun). right. eauto.
Qed.

Lemma runs_to_app p t1 t2 q :
  runs_to p (t1 ++ t2) q ↔ ∃ p', runs_to p t1 p' ∧ runs_to p' t2 q.
Proof.
  revert p. induction t1 as [|ev t1 IH]; intros p; simpl.
  - split; [eauto | by intros (p' & -> & ?)].
  - destruct p as [r|o k].
    + split; [done | by intros (? & [] & _)].
    + split.
      * intros (Ho & Hok & Hrun). apply IH in Hrun as (p' & ? & ?). eauto 6.
      * intros (p' & (Ho & Hok & Hrun) & Hq).
        split; [done|]. split; [done|]. apply IH. eauto.
Qed.

Lemma runs_to_det p tr q1 q2 : runs_to p tr q1 → runs_to p tr q2 → q1 = q2.
Proof.
  revert p. induction tr as [|ev tr IH]; intros p; simpl.
  - congruence.
  - destruct p; [done|]. intros (_ & _ & H1) (_ & _ & H2). eauto.
Qed.

End runs.

Lemma mbind_bind {A B} (p : prog A) (f : A → prog B) : p ≫= f = bind p f.
Proof. reflexivity. Qed.

(** The runs of [p ≫= f]: inside [p], or a run of [p] to its end and
    then a run of [f]. *)
Lemma runs_to_bind {A B} (p : prog A) (f : A → prog B) tr q :
  runs_to (bind p f) tr q →
  (∃ p', runs_to p tr p' ∧ q = bind p' f)
  ∨ (∃ t1 t2 a, tr = t1 ++ t2 ∧ runs p t1 a ∧ runs_to (f a) t2 q).
Proof.
  revert p. induction tr as [|ev tr IH]; intros p; simpl.
  - intros <-. left. by exists p.
  - destruct p as [a|o k]; simpl.
    + intros Hrun. right. exists [], (ev :: tr), a. done.
    + intros (Ho & Hok & Hrun). apply IH in Hrun as [(p' & Hp & ->)|(t1 & t2 & a & -> & H1 & H2)].
      * left. exists p'. done.
      * right. exists (ev :: t1), t2, a. done.
Qed.

Lemma runs_bind {A B} (p : prog A) (f : A → prog B) tr (res : B) :
  runs (bind p f) tr res ↔
  ∃ t1 t2 a, tr = t1 ++ t2 ∧ runs p t1 a ∧ runs (f a) t2 res.
Proof.
  split.
  - revert p. induction tr as [|ev tr IH]; intros p.
    + destruct p as [a|o k]; [|done]. intros Hrun. by exists [], [], a.
    + destruct p as [a|o k].
      * intros Hrun. by exists [], (ev :: tr), a.
      * intros (Ho & Hok & Hrun). apply IH in Hrun as (t1 & t2 & a & -> & H1 & H2).
        exists (ev :: t1), t2, a. done.
  - intros (t1 & t2 & a & -> & H1 & H2). revert p H1.
    induction t1 as [|ev t1 IH]; intros p.
    + intros E. unfold runs in E. simpl in E. subst p. exact H2.
    + destruct p as [|o k]; [done|]. intros (Ho & Hok & Hrun).
      split; [done|]. split; [done|]. by apply IH.
Qed.

Lemma runs_to_bind_end {A B} (p : prog A) (f : A → prog B) tr a :
  runs p tr a → runs_to (bind p f) tr (f a).
Proof.
  revert p. induction tr as [|ev tr IH]; intros p.
  - intros E. unfold runs in E. simpl in E. by subst p.
  - destruct p as [|o k]; [done|]. intros (Ho & Hok & Hrun).
    split; [done|]. split; [done|]. by apply IH.
Qed.

(** [all_ops P p]: every operation of [p] satisfies [P]. *)
Inductive all_ops {R : Type} (P : op → Prop) : prog R → Prop :=
| all_ops_Ret r : all_ops P (Ret r)
| all_ops_Op o k :
    P o → (∀ r, reply_ok o r = true → all_ops P (k r)) → all_ops P (Op o k).

Lemma all_ops_bind {A B} (P : op → Prop) (p : prog A) (f : A → prog B) :
  all_ops P p → (∀ a, all_ops P (f a)) → all_ops P (bind p f).
Proof. induction 1; simpl; [done|]. constructor; auto. Qed.

Lemma all_ops_mbind {A B} (P : op → Prop) (p : prog A) (f : A → prog B) :
  all_ops P p → (∀ a, all_ops P (f a)) → all_ops P (p ≫= f).
Proof. apply all_ops_bind. Qed.

Lemma all_ops_runs_to {R} (P : op → Prop) (p q : prog R) tr :
  all_ops P p → runs_to p tr q → Forall (λ ev, P ev.1) tr ∧ all_ops P q.
Proof.
  intros Hp. revert tr. induction Hp as [r|o k Ho Hk IH]; intros tr Hrun.
  - apply runs_to_Ret in Hrun as [-> ->]. split; constructor.
  - apply runs_to_Op in Hrun as [[-> ->]|(r & tr' & -> & Hok & Hrun)].
    + split; [constructor | by constructor].
    + apply IH in Hrun as [? ?]; [|done]. split; [by constructor | done].
Qed.

Lemma all_ops_events {R} (P : op → Prop) (p q : prog R) tr ev :
  all_ops P p → runs_to p tr q → ev ∈ tr → P ev.1.
Proof.
  intros Hp Hrun Hin. apply (all_ops_runs_to P) in Hrun as [Hall _]; [|done].
  rewrite Forall_forall in Hall. auto.
Qed.

Lemma all_ops_weaken {R} (P Q : op → Prop) (p : prog R) :
  (∀ o, P o → Q o) → all_ops P p → all_ops Q p.
Proof. intros HPQ. induction 1; constructor; auto. Qed.

Create HintDb ops discriminated.

Section ops.
Context `{Collaborators} (b : Builder) (P : op → Prop).

Lemma all_ops_perform o : P o → all_ops P (perform o).
Proof. intros. constructor; [done|]. constructor. Qed.

Lemma all_ops_log m : P (OLog m) → all_ops P (log m).
Proof. apply all_ops_perform. Qed.

Lemma all_ops_when c (p : prog unit) : all_ops P p → all_ops P (when c p).
Proof. destruct c; [done | constructor]. Qed.

Lemma all_ops_call_err c : P (OCall c) → all_ops P (call_err c).
Proof. intros. constructor; [done|]. constructor. Qed.

Lemma all_ops_call_msg_err c : P (OCall c) → all_ops P (call_msg_err c).
Proof. intros. constructor; [done|]. constructor. Qed.

Lemma all_ops_call_deps_err c : P (OCall c) → all_ops P (call_deps_err c).
Proof. intros. constructor; [done|]. constructor. Qed.

Lemma all_ops_now : P ONow → all_ops P now.
Proof. intros. constructor; [done|]. constructor. Qed.

Lemma all_ops_read_step s : P (ORead (ID s)) → all_ops P (read_step s).
Proof. intros. constructor; [done|]. constructor. Qed.

Lemma all_ops_assign s w : P (OWrite (ID s) w) → all_ops P (assign s w).
Proof. intros. constructor; [done|]. constructor. Qed.

Lemma all_ops_Children n : P (OChildren n) → all_ops P (Children n).
Proof. intros. constructor; [done|]. constructor. Qed.

Lemma all_ops_select id : P (OSelect id) → all_ops P (select id).
Proof. intros. constructor; [done|]. constructor. Qed.

Lemma all_ops_once_Do f : P OOnceDo → all_ops P f → all_ops P (once_Do f).
Proof.
  intros. constructor; [done|]. intros r _.
  destruct r as [| | | | | | |[]|]; by try constructor.
Qed.

Lemma all_ops_or_return (p k : prog error) :
  all_ops P p → all_ops P k → all_ops P (or_return p k).
Proof. intros. apply all_ops_bind; [done|]. intros [e|]; [constructor | done]. Qed.

Lemma all_ops_for_each {A} (xs : list A) (body : A → prog unit) :
  (∀ x, all_ops P (body x)) → all_ops P (for_each xs body).
Proof.
  intros Hbody. induction xs as [|x xs IH]; simpl; [constructor|].
  apply all_ops_bind; auto.
Qed.

Lemma all_ops_for_each_err {A} (xs : list A) (body : A → prog error) :
  (∀ x, all_ops P (body x)) → all_ops P (for_each_err xs body).
Proof.
  intros Hbody. induction xs as [|x xs IH]; simpl; [constructor|].
  apply all_ops_bind; [done|]. intros [e|]; [constructor | done].
Qed.

Lemma all_ops_barrier chs : (∀ id, P (OSelect id)) → all_ops P (barrier chs).
Proof.
  intros HP. induction chs as [|ch chs IH]; simpl; [constructor|].
  constructor; [done|]. intros r _.
  destruct r as [| | | | | | | |[e| |e]]; by try constructor.
Qed.

Lemma all_ops_getPopulateDigests c deps usingBuildkit creds :
  (∀ d c' ref, P (OCall (PopulateDigest d c' ref))) →
  all_ops P (getPopulateDigests c deps usingBuildkit creds).
Proof.
  intros HP. unfold getPopulateDigests.
  apply all_ops_for_each_err. intros entry.
  repeat (apply all_ops_or_return; [by apply all_ops_call_err|]).
  apply all_ops_for_each_err. intros. by apply all_ops_call_err.
Qed.

Lemma all_ops_populateDigests task steps deps :
  (∀ id, P (ORead id)) → (∀ m, P (OLog m)) →
  (∀ d c' ref, P (OCall (PopulateDigest d c' ref))) →
  all_ops P (populateDigests task steps deps).
Proof.
  intros HR HL HC. revert deps.
  induction steps as [|step steps IH]; intros deps; cbn [populateDigests].
  { constructor. }
  apply all_ops_mbind; [by apply all_ops_read_step|]. intros s.
  apply all_ops_mbind; [by apply all_ops_log|]. intros _.
  destruct (0 <? length (ImageDependencies s))%nat; [|done].
  apply all_ops_mbind; [by apply all_ops_log|]. intros _.
  apply all_ops_mbind; [by apply all_ops_when, all_ops_log|]. intros _.
  apply all_ops_mbind; [by apply all_ops_getPopulateDigests|]. intros [e|].
  - constructor.
  - apply all_ops_mbind; [by apply all_ops_log|]. intros _. apply IH.
Qed.

End ops.

(** [tree_inv Q p]: every operation of [p], with what [p] does with the
    reply, satisfies [Q]. *)
Inductive tree_inv {R : Type} (Q : op → (reply → prog R) → Prop) : prog R → Prop :=
| tree_inv_Ret r : tree_inv Q (Ret r)
| tree_inv_Op o k :
    Q o k → (∀ r, reply_ok o r = true → tree_inv Q (k r)) → tree_inv Q (Op o k).

Lemma tree_inv_runs_to {R} (Q : op → (reply → prog R) → Prop) p tr q :
  tree_inv Q p → runs_to p tr q → tree_inv Q q.
Proof.
  intros Hp. revert tr. induction Hp as [r|o k HQ Hk IH]; intros tr Hrun.
  - apply runs_to_Ret in Hrun as [_ ->]. constructor.
  - apply runs_to_Op in Hrun as [[_ ->]|(r & tr' & _ & Hok & Hrun)]; [by constructor|].
    by apply (IH r Hok tr').
Qed.

(** At an event of a run, the program is at that operation. *)
Lemma runs_to_event {R} (p q : prog R) t1 o r t2 :
  runs_to p (t1 ++ (o, r) :: t2) q →
  ∃ k, runs_to p t1 (Op o k) ∧ reply_ok o r = true ∧ runs_to (k r) t2 q.
Proof.
  intros Hrun. apply runs_to_app in Hrun as (p' & H1 & H2).
  destruct p' as [|o' k]; [done|]. destruct H2 as (Ho & Hok & H2).
  simpl in *. subst o'. by exists k.
Qed.

Lemma tree_inv_event {R} (Q : op → (reply → prog R) → Prop) p t1 o r t2 q :
  tree_inv Q p → runs_to p (t1 ++ (o, r) :: t2) q →
  ∃ k, runs_to p t1 (Op o k) ∧ Q o k ∧ reply_ok o r = true ∧ runs_to (k r) t2 q.
Proof.
  intros Hp Hrun. apply runs_to_event in Hrun as (k & H1 & Hok & H2).
  exists k. split; [done|]. split; [|done].
  apply (tree_inv_runs_to Q _ _ _ Hp) in H1. by inversion H1.
Qed.

Lemma tree_inv_all_ops {R} (Q : op → (reply → prog R) → Prop) (P : op → Prop) p :
  (∀ o k, P o → Q o k) → all_ops P p → tree_inv Q p.
Proof. intros HPQ. induction 1; constructor; auto. Qed.

Lemma tree_inv_bind {A B} (Q : op → (reply → prog B) → Prop) (P : op → Prop)
    (p : prog A) (f : A → prog B) :
  (∀ o k, P o → Q o k) → all_ops P p → (∀ a, tree_inv Q (f a)) →
  tree_inv Q (bind p f).
Proof. intros HPQ Hp Hf. induction Hp; simpl; [done|]. constructor; auto. Qed.

#[export] Hint Constructors all_ops : ops.
#[export] Hint Resolve all_ops_mbind all_ops_bind all_ops_perform all_ops_log all_ops_when
  all_ops_call_err all_ops_call_msg_err all_ops_call_deps_err all_ops_now
  all_ops_read_step all_ops_assign all_ops_Children all_ops_select all_ops_once_Do
  all_ops_or_return all_ops_for_each all_ops_for_each_err : ops.

End traces.

(** Walks a program of [builder.go], operation by operation. *)
Ltac walk_ops :=
  repeat (intros; lazymatch goal with
    | |- traces.all_ops _ (if ?c then _ else _) => destruct c
    | |- traces.all_ops _ (match ?x with _ => _ end) => destruct x
    | |- traces.all_ops _ (_ ≫= _) => apply traces.all_ops_mbind
    | |- traces.all_ops _ (builder.or_return _ _) => apply traces.all_ops_or_return
    | |- traces.all_ops _ (builder.when _ _) => apply traces.all_ops_when
    | |- traces.all_ops _ (builder.for_each _ _) => apply traces.all_ops_for_each
    | |- traces.all_ops _ (builder.for_each_err _ _) => apply traces.all_ops_for_each_err
    | |- traces.all_ops _ (builder.once_Do _) => apply traces.all_ops_once_Do
    | |- traces.all_ops _ (builder.Ret _) => constructor
    | |- traces.all_ops _ (builder.Op _ _) => constructor
    | |- traces.all_ops _ (let _ := _ in _) => cbv zeta
    | |- traces.all_ops _ _ => first
        [ apply traces.all_ops_log | apply traces.all_ops_perform
        | apply traces.all_ops_call_err | apply traces.all_ops_call_msg_err
        | apply traces.all_ops_call_deps_err | apply traces.all_ops_now
        | apply traces.all_ops_read_step | apply traces.all_ops_assign
        | apply traces.all_ops_Children | apply traces.all_ops_select
        | apply traces.all_ops_barrier | apply traces.all_ops_populateDigests
        | apply traces.all_ops_getPopulateDigests ]
    | |- _ => fail
    end).

(** Walks a program laid out as a tree, reply by reply and branch by
    branch; the goals left are those on the operations. *)
Ltac walk_tree :=
  repeat (cbn; lazymatch goal with
    | |- traces.all_ops _ (builder.Ret _) => constructor
    | |- traces.all_ops _ (builder.Op _ _) =>
        constructor;
        [ | let r := fresh "r" in
            let Hok := fresh "Hok" in
            intros r Hok; destruct r; try discriminate Hok; clear Hok ]
    | |- traces.all_ops _ ?p =>
        match p with
        | context [if ?c then _ else _] => destruct c eqn:?
        | context [match ?x with Some _ => _ | None => _ end] => destruct x eqn:?
        | context [let '(_, _) := ?x in _] => destruct x eqn:?
        end
    end).

(** Goes down a chain of binds whose operations satisfy [P], up to the
    bind of a program [stop]. *)
Ltac descend P stop :=
  repeat (cbv zeta; lazymatch goal with
    | |- traces.tree_inv _ (builder.or_return _ _) => unfold builder.or_return at 1
    | |- traces.tree_inv _ (?p ≫= _) =>
        lazymatch p with
        | context [stop] => fail
        | _ => apply (traces.tree_inv_bind _ P); [ | walk_ops | intros ? ]
        end
    | |- traces.tree_inv _ (match ?a with Some _ => _ | None => _ end) =>
        destruct a; [by constructor|]
    end).

(** Splits a run of a chain of binds that returns [nil] into the runs of
    its parts. *)
Ltac split_run H :=
  repeat (cbv zeta in H; cbn beta in H; lazymatch type of H with
    | builder.runs (builder.or_return _ _) _ _ => unfold builder.or_return at 1 in H
    | builder.runs (_ ≫= _) _ _ =>
        let t1 := fresh "t" in
        let t2 := fresh "t" in
        let a := fresh "a" in
        let H1 := fresh "Hpart" in
        apply traces.runs_bind in H as (t1 & t2 & a & -> & H1 & H)
    | builder.runs (match ?a with Some _ => builder.Ret _ | None => _ end) _ None =>
        destruct a; [by apply traces.runs_to_Ret in H as [_ ?]|]
    end).

(** * Properties of [runStep], [processVertex] and [RunTask] *)

Module builder_props.
Import graph builder traces.
Local Open Scope list_scope.

#[local] Arguments runStep : simpl never.
#[local] Arguments processVertex : simpl never.
#[local] Arguments RunTask : simpl never.
#[local] Arguments initBuildkitContainer : simpl never.
#[local] Arguments barrier : simpl never.
#[local] Arguments populateDigests : simpl never.

Section sequential.
Context `{Collaborators} (b : Builder).

(** The operations of [runStep]: calls, the log, the clock, the latch,
    and assignments other than of a final status. *)
Definition runStep_op (o : op) : Prop :=
  match o with
  | OLog _ | OCall _ | OSleep _ | ONow | OOnceDo => True
  | OWrite _ w => w ≠ WStepStatus Successful ∧ w ≠ WStepStatus Failed
  | _ => False
  end.

Lemma runStep_ops c step credentials :
  all_ops runStep_op (runStep b c step credentials).
Proof.
  unfold runStep, runStep_kind, runStep_run, pullImageBeforeRun,
    preRunWindowsContainer, validateDockerContext.
  walk_ops; simpl; done.
Qed.

(** Inverts the first operation of a run that goes to the end. *)
Ltac first_op H :=
  let r := fresh "r" in
  let tr := fresh "tr" in
  let Hok := fresh "Hok" in
  apply runs_to_Op in H as [[_ H]|(r & tr & -> & Hok & H)];
  [discriminate H|]; destruct r; try discriminate Hok; clear Hok; cbn in H.

(** The events of the goroutines started for the children [cs]. *)
Definition go_events (parent : Node) (cs : list Node) : list event :=
  (λ c, (OGo parent c, RUnit)) <$> cs.

Lemma runs_for_each_go {B} parent cs (f : unit → prog B) tr res :
  runs (bind (for_each cs (λ c, perform (OGo parent c))) f) tr res →
  ∃ tr', tr = go_events parent cs ++ tr' ∧ runs (f tt) tr' res.
Proof.
  revert tr. induction cs as [|c cs IH]; intros tr Hrun; simpl in *.
  - by exists tr.
  - unfold runs in Hrun. first_op Hrun.
    apply IH in Hrun as (tr' & -> & Hrun). by exists tr'.
Qed.

Lemma runs_for_each_go_intro {B} parent cs (f : unit → prog B) tr res :
  runs (f tt) tr res →
  runs (bind (for_each cs (λ c, perform (OGo parent c))) f) (go_events parent cs ++ tr) res.
Proof.
  intros Hrun. induction cs as [|c cs IH]; simpl; [done|].
  split; [done|]. split; [done|]. exact IH.
Qed.

(** What a goroutine does once [runStep] has returned [err]. *)
Definition outcome_events (child : Node) (err : error) (cs : list Node) (msg : string)
  : list event :=
  let step := Value child in
  match err with
  | Some e =>
    if IgnoreErrors step then
      [(OLog msg, RUnit); (OWrite (ID step) (WStepStatus Successful), RUnit);
       (OChildren child, RNodes cs)] ++ go_events child cs
    else
      [(OWrite (ID step) (WStepStatus Failed), RUnit);
       (OSendError (Wrap e ("failed to run step ID: " +:+ ID step)), RUnit)]
  | None =>
    [(OWrite (ID step) (WStepStatus Successful), RUnit);
     (OChildren child, RNodes cs)] ++ go_events child cs
  end.

(** The runs of [processVertex] to its end. *)
Inductive processVertex_run (task : Task) (parent child : Node) : list event → Prop :=
| pv_edge_error e :
    processVertex_run task parent child
      [(ORemoveEdge (Name parent) (Name child), RErr (Some e));
       (OSendError (Wrap e "failed to remove edge"), RUnit)]
| pv_not_ready d :
    d ≠ 0%Z →
    processVertex_run task parent child
      [(ORemoveEdge (Name parent) (Name child), RErr None); (OGetDegree child, RInt d)]
| pv_executed h0 err cs msg :
    runs (runStep b ctx (Value child) (Credentials task)) h0 err →
    processVertex_run task parent child
      ([(ORemoveEdge (Name parent) (Name child), RErr None); (OGetDegree child, RInt 0)]
       ++ h0 ++ outcome_events child err cs msg
       ++ [(OSendCompleted (ID (Value child)), RUnit)]).

Lemma processVertex_after_runStep child err tr :
  runs ((match err with
         | Some e =>
           if IgnoreErrors (Value child) then
             log "Step ID: %s encountered an error: %v, but is set to ignore errors. Continuing...\n";;
             perform (OWrite (ID (Value child)) (WStepStatus Successful));;
             cs ← Children child;
             for_each cs (λ c, perform (OGo child c))
           else
             perform (OWrite (ID (Value child)) (WStepStatus Failed));;
             perform (OSendError (Wrap e ("failed to run step ID: " +:+ ID (Value child))))
         | None =>
           perform (OWrite (ID (Value child)) (WStepStatus Successful));;
           cs ← Children child;
           for_each cs (λ c, perform (OGo child c))
         end);; perform (OSendCompleted (ID (Value child)))) tr tt →
  ∃ cs msg, tr = outcome_events child err cs msg
                 ++ [(OSendCompleted (ID (Value child)), RUnit)].
Proof.
  unfold outcome_events, runs. intros Hrun.
  destruct err as [e|]; [destruct (IgnoreErrors (Value child))|]; cbn in Hrun.
  - first_op Hrun. first_op Hrun. first_op Hrun.
    apply runs_for_each_go in Hrun as (tr' & -> & Hrun).
    unfold runs in Hrun. first_op Hrun. apply runs_to_Ret in Hrun as [-> _].
    eexists _, _. simpl. reflexivity.
  - first_op Hrun. first_op Hrun. first_op Hrun. apply runs_to_Ret in Hrun as [-> _].
    by exists [], "".
  - first_op Hrun. first_op Hrun.
    apply runs_for_each_go in Hrun as (tr' & -> & Hrun).
    unfold runs in Hrun. first_op Hrun. apply runs_to_Ret in Hrun as [-> _].
    eexists _, "". simpl. reflexivity.
Qed.

Lemma processVertex_runs task parent child h :
  runs (processVertex b task parent child) h tt → processVertex_run task parent child h.
Proof.
  unfold runs, processVertex. intros Hrun. cbn in Hrun.
  first_op Hrun. destruct e as [e|]; cbn in Hrun.
  - first_op Hrun. apply runs_to_Ret in Hrun as [-> _]. constructor.
  - first_op Hrun. destruct (z =? 0)%Z eqn:Hz.
    + apply Z.eqb_eq in Hz as ->.
      apply runs_bind in Hrun as (h0 & h1 & err & -> & Hstep & Hrun).
      apply processVertex_after_runStep in Hrun as (cs & msg & ->).
      by apply (pv_executed task parent child h0 err cs msg).
    + apply runs_to_Ret in Hrun as [-> _]. constructor. by apply Z.eqb_neq.
Qed.

(** [runStep] neither reads the degree, nor starts a goroutine, nor
    sends. *)
Lemma runStep_event c step credentials h q ev :
  runs_to (runStep b c step credentials) h q → ev ∈ h → runStep_op ev.1.
Proof. apply all_ops_events, runStep_ops. Qed.

(** The step [s'] has the identity, the command and the retry policy of
    [s]. *)
Definition same_policy (s s' : Step) : Prop :=
  ID s' = ID s ∧ Cmd s' = Cmd s ∧ Push s' = Push s ∧ Timeout s' = Timeout s
  ∧ Retries s' = Retries s ∧ RetryOnErrors s' = RetryOnErrors s
  ∧ RetryDelayInSeconds s' = RetryDelayInSeconds s ∧ Repeat s' = Repeat s.

(** [s'] is the step as [runStep] has it at hand: [step] after
    assignments to fields outside the policy, and, for a build step, after
    [UpdateBuildStepWithDefaults]. *)
Definition at_hand (step s' : Step) : Prop :=
  same_policy step s'
  ∨ ∃ s'', same_policy step s'' ∧ s' = UpdateBuildStepWithDefaults s''.

(** The calls of [runStep c0 step credentials]. *)
Inductive runStep_call (c0 : context) (step : Step) (credentials : list string)
  : call → Prop :=
| call_pull :
    IsCmdStep step && Pull step = true →
    runStep_call c0 step credentials
      (RunWithRetries c0
         ["docker"; "run"; "--rm"; "--volume"; DockerSocketVolumeMapping;
          "docker"; "pull"; parseImageNameFromArgs (Cmd step)]
         Nil Stdout Stdout "" (CmdDownloadRetries step) []
         (CmdDownloadRetryDelayInSeconds step) "")
| call_scrape s' dockerfile target dockerContext :
    same_policy step s' → IsBuildStep s' = true →
    parseDockerBuildCmd (Build s') = (dockerfile, target, dockerContext) →
    runStep_call c0 step credentials
      (scrapeDependencies (WithTimeout c0 scrapeTimeoutInSec) (workspaceDir b)
         (WorkingDirectory s') (ID s') dockerfile dockerContext (Tags s') (BuildArgs s')
         target credentials)
| call_push s' :
    same_policy step s' → IsBuildStep s' = false → IsPushStep s' = true →
    runStep_call c0 step credentials
      (pushWithRetries (WithTimeout c0 (Timeout step)) (Push step))
| call_prerun s' :
    at_hand step s' → String.eqb GOOS WindowsOS = true →
    runStep_call c0 step credentials
      (Run (WithTimeout c0 (Timeout s'))
         ["docker"; "run"; "--rm"; "--name"; ID s' +:+ "_prerun";
          "--isolation"; "hyperv"; "--pull"; "always"; WindowServerCore2019Image]
         Nil Nil Buffer "")
| call_run_cmd s' args :
    same_policy step s' → IsBuildStep s' = false → IsPushStep s' = false →
    runStep_call c0 step credentials
      (RunRepeatWithRetries (WithTimeout c0 (Timeout step)) args Nil Stdout Stderr ""
         (Retries step) (RetryOnErrors step) (RetryDelayInSeconds step) (ID step)
         (Repeat step))
| call_run_build s0 s'' args :
    same_policy step s0 → IsBuildStep s0 = true → same_policy step s'' →
    runStep_call c0 step credentials
      (RunRepeatWithRetries (WithTimeout c0 (Timeout (UpdateBuildStepWithDefaults s'')))
         args Nil Stdout Stderr ""
         (Retries (UpdateBuildStepWithDefaults s''))
         (RetryOnErrors (UpdateBuildStepWithDefaults s''))
         (RetryDelayInSeconds (UpdateBuildStepWithDefaults s''))
         (ID (UpdateBuildStepWithDefaults s''))
         (Repeat (UpdateBuildStepWithDefaults s''))).

Lemma same_policy_refl s : same_policy s s.
Proof. by repeat split. Qed.

Lemma same_policy_write step s w :
  w ≠ WUpdateBuildStepWithDefaults → same_policy step s →
  same_policy step (apply_write w s).
Proof. by destruct w. Qed.

Lemma all_ops_assign_bind {B} (P : op → Prop) s w (f : Step → prog B) :
  P (OWrite (ID s) w) → all_ops P (f (apply_write w s)) → all_ops P (assign s w ≫= f).
Proof. intros. constructor; [done|]. intros _ _. done. Qed.

Definition runStep_calls_at c0 step credentials (o : op) : Prop :=
  match o with OCall cl => runStep_call c0 step credentials cl | _ => True end.

Lemma runStep_run_calls c0 step credentials s' args :
  at_hand step s' →
  runStep_call c0 step credentials
    (RunRepeatWithRetries (WithTimeout c0 (Timeout s')) args Nil Stdout Stderr ""
       (Retries s') (RetryOnErrors s') (RetryDelayInSeconds s') (ID s') (Repeat s')) →
  all_ops (runStep_calls_at c0 step credentials) (runStep_run b c0 s' args).
Proof.
  intros Hs' Hcall. unfold runStep_run, preRunWindowsContainer.
  destruct (String.eqb GOOS WindowsOS) eqn:Hw; cbn [andb when].
  - walk_ops; try exact I; try exact Hcall. by apply (call_prerun _ _ _ s').
  - walk_ops; try exact I; exact Hcall.
Qed.

Lemma runStep_kind_calls c0 step credentials s1 :
  same_policy step s1 →
  all_ops (runStep_calls_at c0 step credentials) (runStep_kind b c0 s1 credentials).
Proof.
  intros Hs1. unfold runStep_kind.
  destruct (IsBuildStep s1) eqn:Hb; [|destruct (IsPushStep s1) eqn:Hp].
  - destruct (parseDockerBuildCmd (Build s1)) as [[dockerfile target] dockerContext]
      eqn:Hparse.
    cbv zeta.
    apply all_ops_mbind; [unfold validateDockerContext; walk_ops; exact I|]. intros _.
    apply all_ops_mbind; [by apply all_ops_log|]. intros _.
    apply all_ops_mbind.
    { apply all_ops_call_deps_err. by apply (call_scrape _ _ _ s1). }
    intros r. destruct (r.2); [constructor|].
    apply all_ops_mbind; [by apply all_ops_log|]. intros _.
    apply all_ops_assign_bind; [exact I|].
    assert (Hs2 : same_policy step (apply_write (WImageDependencies r.1) s1))
      by (by apply same_policy_write).
    set (s2 := apply_write (WImageDependencies r.1) s1) in *.
    assert (Hrun : ∀ s3 args, same_policy step s3 →
              all_ops (runStep_calls_at c0 step credentials)
                (assign s3 WUpdateBuildStepWithDefaults
                 ≫= λ step', runStep_run b c0 step' (args step'))).
    { intros s3 args Hs3. apply all_ops_assign_bind; [exact I|]. cbn [apply_write].
      apply runStep_run_calls; [right; by exists s3|].
      by apply (call_run_build _ _ _ s1 s3). }
    destruct (IsLocalContext dockerContext).
    + apply (Hrun s2 (λ step', if UseBuildCacheForBuildStep step' then _ else _) Hs2).
    + apply all_ops_assign_bind; [exact I|].
      apply (Hrun _ (λ step', if UseBuildCacheForBuildStep step' then _ else _)).
      by apply same_policy_write.
  - cbv zeta. apply all_ops_call_err.
    pose proof Hs1 as (_ & _ & HPush & HT & _). rewrite HPush, HT.
    by apply (call_push _ _ _ s1).
  - apply runStep_run_calls; [by left|].
    pose proof Hs1 as (HID & HCmd & HPush & HT & HR & HRE & HRD & HRp).
    rewrite HID, HT, HR, HRE, HRD, HRp.
    apply (call_run_cmd _ _ _ s1); by repeat split.
Qed.

Lemma runStep_calls_ops c0 step credentials :
  all_ops (runStep_calls_at c0 step credentials) (runStep b c0 step credentials).
Proof.
  unfold runStep.
  apply all_ops_mbind; [by apply all_ops_log|]. intros _.
  apply all_ops_mbind; [walk_ops; exact I|]. intros _.
  apply all_ops_or_return.
  { destruct (IsCmdStep step && Pull step) eqn:Hp; [|constructor].
    unfold pullImageBeforeRun. walk_ops; try exact I. by apply call_pull. }
  apply all_ops_assign_bind; [exact I|].
  apply all_ops_mbind; [by apply all_ops_now|]. intros t.
  apply all_ops_assign_bind; [exact I|].
  apply all_ops_mbind; [|intros r; walk_ops; exact I].
  apply runStep_kind_calls. by repeat split.
Qed.

(** The calls of [runStep], classified.  Every call of [runStep] is one of: the
    explicit pull of a cmd step, through [RunWithRetries] with
    [CmdDownloadRetries], no retry patterns and
    [CmdDownloadRetryDelayInSeconds]; the scan for dependencies of a build
    step; [pushWithRetries] for a push step, with the timeout of the step;
    the pre-run of a Windows container, through [Run]; and the command of a
    cmd or build step, through [RunRepeatWithRetries] with the [Retries],
    [RetryOnErrors], [RetryDelayInSeconds] and [Repeat] of the step (for a
    build step: as [UpdateBuildStepWithDefaults] leaves them). *)
Lemma runStep_calls c0 step credentials h q cl r :
  runs_to (runStep b c0 step credentials) h q →
  (OCall cl, r) ∈ h →
  runStep_call c0 step credentials cl.
Proof.
  intros Hrun Hin.
  apply (all_ops_events _ _ _ _ _ (runStep_calls_ops c0 step credentials) Hrun Hin).
Qed.

(** *** [RunTask] on its own *)

(** The operations of [RunTask]: it neither assigns to a step nor sends. *)
Definition RunTask_op (o : op) : Prop :=
  match o with
  | OLog _ | OCall _ | ORead _ | OChildren _ | OGo _ _ | OSelect _ => True
  | _ => False
  end.

Lemma RunTask_ops task : all_ops RunTask_op (RunTask b task).
Proof. unfold RunTask, initBuildkitContainer. walk_ops; simpl; done. Qed.

Definition is_RunRepeatWithRetries (o : op) : Prop :=
  match o with
  | OCall (RunRepeatWithRetries _ _ _ _ _ _ _ _ _ _ _) => True
  | _ => False
  end.

(** **** The initialization of the buildkitd container, counted *)

Definition calls_RunRepeatWithRetries (ev : event) : bool :=
  match ev.1 with
  | OCall (RunRepeatWithRetries _ _ _ _ _ _ _ _ _ _ _) => true
  | _ => false
  end.

(** The number of times the body of the initialization (its call of
    [RunRepeatWithRetries]) is executed in a run. *)
Definition initializations (h : list event) : nat :=
  length (List.filter calls_RunRepeatWithRetries h).

Lemma initializations_app h1 h2 :
  initializations (h1 ++ h2) = initializations h1 + initializations h2.
Proof. unfold initializations. by rewrite List.filter_app, length_app. Qed.

Lemma initializations_none {R} (p q : prog R) h :
  all_ops (λ o, ¬ is_RunRepeatWithRetries o) p → runs_to p h q → initializations h = 0.
Proof.
  intros Hp Hrun. apply (all_ops_runs_to _ _ _ _ Hp) in Hrun as [Hall _].
  unfold initializations. induction Hall as [|[o r] h Ho Hall IH]; [done|].
  simpl in *. unfold calls_RunRepeatWithRetries. simpl.
  destruct o as [|[]| | | | | | | | | | | |]; simpl in *; try done.
Qed.

(** After the initialization, [RunTask] does not initialize again. *)
Definition initializes_once (o : op) (k : reply → prog error) : Prop :=
  is_RunRepeatWithRetries o → ∀ r, all_ops (λ o, ¬ is_RunRepeatWithRetries o) (k r).

Lemma RunTask_initializes_once task : tree_inv initializes_once (RunTask b task).
Proof.
  unfold RunTask.
  descend (λ o, ¬ is_RunRepeatWithRetries o) initBuildkitContainer.
  all: try (simpl; by auto).
  all: try (intros o k Hno Hyes; by destruct Hno).
  match goal with
  | |- tree_inv _ (_ ≫= ?f) =>
      assert (Hrest : all_ops (λ o, ¬ is_RunRepeatWithRetries o) (f tt))
  end.
  { walk_ops; simpl; by auto. }
  assert (Hrest' := tree_inv_all_ops initializes_once _ _
                      (λ o k (Hno : ¬ is_RunRepeatWithRetries o) Hyes r,
                         False_ind _ (Hno Hyes)) Hrest).
  destruct (InitBuildkitContainer task); [|exact Hrest'].
  unfold initBuildkitContainer, when, log, perform, call_err.
  destruct (debug b); cbn.
  - constructor; [by intros []|]. intros _ _.
    constructor; [by intros []|]. intros _ _.
    constructor.
    + intros _ r. destruct r as [|[e|]| | | | | | |]; cbn; try exact Hrest.
      constructor; [by auto|]. intros _ _. exact Hrest.
    + intros r Hok.
      destruct r as [|[e|]| | | | | | |]; try discriminate Hok; cbn; [|exact Hrest'].
      constructor; [by intros []|]. intros _ _. exact Hrest'.
  - constructor; [by intros []|]. intros _ _.
    constructor.
    + intros _ r. destruct r as [|[e|]| | | | | | |]; cbn; try exact Hrest.
      constructor; [by auto|]. intros _ _. exact Hrest.
    + intros r Hok.
      destruct r as [|[e|]| | | | | | |]; try discriminate Hok; cbn; [|exact Hrest'].
      constructor; [by intros []|]. intros _ _. exact Hrest'.
Qed.

Lemma initializes_once_le {R} (p q : prog R) h :
  tree_inv (λ o k, is_RunRepeatWithRetries o →
                    ∀ r, all_ops (λ o, ¬ is_RunRepeatWithRetries o) (k r)) p →
  runs_to p h q → (initializations h ≤ 1)%nat.
Proof.
  intros Hp. revert h. induction Hp as [r|o k HQ Hk IH]; intros h Hrun.
  - apply runs_to_Ret in Hrun as [-> _]. unfold initializations. simpl. lia.
  - apply runs_to_Op in Hrun as [[-> _]|(r & h' & -> & Hok & Hrun)].
    { unfold initializations. simpl. lia. }
    change ((o, r) :: h') with ([(o, r)] ++ h'). rewrite initializations_app.
    destruct (calls_RunRepeatWithRetries (o, r)) eqn:Hc.
    + assert (Hyes : is_RunRepeatWithRetries o).
      { unfold calls_RunRepeatWithRetries in Hc. simpl in Hc.
        by destruct o as [|[]| | | | | | | | | | | |]. }
      rewrite (initializations_none _ _ _ (HQ Hyes r) Hrun).
      unfold initializations. simpl. rewrite Hc. simpl. lia.
    + specialize (IH r Hok h' Hrun).
      unfold initializations at 1. simpl. rewrite Hc. simpl. lia.
Qed.

(** The runs of the block of [RunTask] under [InitBuildkitContainer]. *)
Lemma initBuildkitContainer_runs flag h :
  runs (when flag (initBuildkitContainer b)) h tt →
  initializations h = if flag then 1 else 0.
Proof.
  unfold runs. destruct flag; cbn.
  - unfold initBuildkitContainer, when, log, perform, call_err.
    intros Hrun. destruct (debug b); cbn in Hrun.
    + first_op Hrun. first_op Hrun. first_op Hrun. destruct e as [e|]; cbn in Hrun.
      * first_op Hrun. by apply runs_to_Ret in Hrun as [-> _].
      * by apply runs_to_Ret in Hrun as [-> _].
    + first_op Hrun. first_op Hrun. destruct e as [e|]; cbn in Hrun.
      * first_op Hrun. by apply runs_to_Ret in Hrun as [-> _].
      * by apply runs_to_Ret in Hrun as [-> _].
  - intros Hrun. by apply runs_to_Ret in Hrun as [-> _].
Qed.

(** **** The barrier *)

(** At a [select] of the barrier, the cases of the context and of the
    error channel return at once, with the error. *)
Definition returns_at_select (o : op) (k : reply → prog error) : Prop :=
  ∀ id, o = OSelect id →
  ∀ e, k (RSel (SelDone e)) = Ret (Some e) ∧ k (RSel (SelError e)) = Ret (Some e).

Lemma barrier_returns_at_select chs (K : prog error) :
  all_ops (λ o, ∀ id, o ≠ OSelect id) K →
  tree_inv returns_at_select (barrier chs ≫= λ e, match e with Some _ => Ret e | None => K end).
Proof.
  intros HK. induction chs as [|ch chs IH]; cbn.
  - apply (tree_inv_all_ops _ _ _ (λ o k (Hne : ∀ id, o ≠ OSelect id) id Heq,
                                     False_ind _ (Hne id Heq)) HK).
  - constructor; [by intros id _ e|]. intros r Hok.
    destruct r as [| | | | | | | |[e| |e]]; try discriminate Hok; cbn.
    + constructor.
    + exact IH.
    + constructor.
Qed.

Lemma RunTask_returns_at_select task : tree_inv returns_at_select (RunTask b task).
Proof.
  unfold RunTask, initBuildkitContainer.
  descend (λ o, ∀ id, o ≠ OSelect id) barrier.
  all: try (simpl; by auto).
  all: try (intros o k Hne id Heq; by destruct (Hne id)).
  apply barrier_returns_at_select. walk_ops; simpl; by auto.
Qed.

Lemma barrier_None chs h :
  runs (barrier chs) h None → ∀ ch, ch ∈ chs → (OSelect ch, RSel SelCompleted) ∈ h.
Proof.
  unfold runs. revert h. induction chs as [|c chs IH]; intros h Hrun ch Hin.
  { by apply elem_of_nil in Hin. }
  cbn in Hrun. first_op Hrun. destruct s as [e| |e]; cbn in Hrun.
  - by apply runs_to_Ret in Hrun as [_ ?].
  - apply elem_of_cons in Hin as [->|Hin]; [by left|]. right. by apply IH.
  - by apply runs_to_Ret in Hrun as [_ ?].
Qed.

Lemma RunTask_nil_completed task h :
  runs (RunTask b task) h None →
  ∀ n, n ∈ Nodes (TaskDag task) → (OSelect (ID (Value n)), RSel SelCompleted) ∈ h.
Proof.
  intros Hrun n Hn. unfold RunTask in Hrun. split_run Hrun.
  match goal with
  | Hb : runs (barrier _) ?tb None |- _ =>
      assert (Hin : (OSelect (ID (Value n)), RSel SelCompleted) ∈ tb)
  end.
  { eapply barrier_None; [eassumption|]. apply list_elem_of_fmap. by exists n. }
  rewrite !elem_of_app. tauto.
Qed.

(** C6, as the code has it.  A call of [RunTask] executes the body of the
    initialization of the buildkitd container at most once, and exactly
    once when the task requires the build cache and [RunTask] returns nil;
    [RunTask] itself never goes through the latch [once], so the body is
    executed once for each such call, not once for the process. *)
Theorem RunTask_initializes_per_call task h res :
  runs (RunTask b task) h res →
  (initializations h ≤ 1)%nat
  ∧ (∀ ev, ev ∈ h → ev.1 ≠ OOnceDo)
  ∧ (res = None → initializations h = if InitBuildkitContainer task then 1 else 0).
Proof.
  intros Hrun. split; [|split].
  - exact (initializes_once_le _ _ _ (RunTask_initializes_once task) Hrun).
  - intros ev Hin Hop.
    pose proof (all_ops_events _ _ _ _ _ (RunTask_ops task) Hrun Hin) as Hev.
    rewrite Hop in Hev. done.
  - intros ->. unfold RunTask in Hrun. split_run Hrun.
    rewrite !initializations_app.
    repeat match goal with
    | Hp : runs (when _ (initBuildkitContainer _)) _ ?a |- _ =>
        destruct a; rewrite (initBuildkitContainer_runs _ _ Hp); clear Hp
    | Hp : runs ?p ?t _ |- _ =>
        rewrite (initializations_none p _ t ltac:(walk_ops; simpl; by auto) Hp);
        clear Hp
    end.
    destruct (InitBuildkitContainer task); lia.
Qed.

Definition is_SendCompleted (ev : event) : bool :=
  match ev.1 with OSendCompleted _ => true | _ => false end.

Definition is_Go (ev : event) : bool :=
  match ev.1 with OGo _ _ => true | _ => false end.

(** The number of pushes of a completion signal in a run. *)
Definition completions (h : list event) : nat := length (List.filter is_SendCompleted h).

Lemma completions_app h1 h2 : completions (h1 ++ h2) = completions h1 + completions h2.
Proof. unfold completions. by rewrite List.filter_app, length_app. Qed.

Lemma completions_none h :
  (∀ ev, ev ∈ h → is_SendCompleted ev = false) → completions h = 0.
Proof.
  unfold completions. induction h as [|ev h IH]; intros Hall; simpl; [done|].
  rewrite (Hall ev) by constructor. apply IH. intros. apply Hall. by constructor.
Qed.

Lemma runStep_quiet c step credentials h q ev :
  runs_to (runStep b c step credentials) h q → ev ∈ h →
  is_SendCompleted ev = false ∧ is_Go ev = false
  ∧ (∀ n z, ev ≠ (OGetDegree n, z)) ∧ (∀ e r, ev ≠ (OSendError e, r))
  ∧ (∀ id r, ev ≠ (OWrite id (WStepStatus Successful), r))
  ∧ (∀ id r, ev ≠ (OWrite id (WStepStatus Failed), r)).
Proof.
  intros Hrun Hin. pose proof (runStep_event _ _ _ _ _ _ Hrun Hin) as Hop.
  destruct ev as [[] r]; simpl in Hop; try done;
    repeat split; try done; intros; intros [=]; subst; by destruct Hop.
Qed.

Lemma go_events_elem parent cs ev :
  ev ∈ go_events parent cs ↔ ∃ c, c ∈ cs ∧ ev = (OGo parent c, RUnit).
Proof. unfold go_events. rewrite list_elem_of_fmap. naive_solver. Qed.

Lemma outcome_events_quiet child err cs msg ev :
  ev ∈ outcome_events child err cs msg →
  is_SendCompleted ev = false ∧ ∀ n z, ev ≠ (OGetDegree n, z).
Proof.
  unfold outcome_events.
  destruct err as [e|]; [destruct (IgnoreErrors (Value child))|];
    rewrite ?elem_of_app, ?elem_of_cons, ?elem_of_nil, ?go_events_elem;
    intros Hin; destruct_or?; try done; subst; try done;
    destruct Hin as (c & _ & ->); done.
Qed.

Lemma outcome_events_status child err cs msg :
  ∃ st, (st = Successful ∨ st = Failed)
        ∧ (OWrite (ID (Value child)) (WStepStatus st), RUnit)
          ∈ outcome_events child err cs msg.
Proof.
  unfold outcome_events.
  destruct err as [e|]; [destruct (IgnoreErrors (Value child))|].
  - exists Successful. split; [by left|]. set_solver.
  - exists Failed. split; [by right|]. set_solver.
  - exists Successful. split; [by left|]. set_solver.
Qed.

(** C3.  When the execution of the step of [child] returns an error and
    the step has [IgnoreErrors], the goroutine goes on as follows: it
    logs, sets the status to [Successful], starts a goroutine for each
    child [Children] yields, and pushes the completion signal; it posts
    nothing to the error channel. *)
Theorem processVertex_IgnoreErrors task parent child h0 e h1 :
  IgnoreErrors (Value child) = true →
  runs (runStep b ctx (Value child) (Credentials task)) h0 (Some e) →
  runs (processVertex b task parent child)
    ([(ORemoveEdge (Name parent) (Name child), RErr None); (OGetDegree child, RInt 0)]
     ++ h0 ++ h1) tt →
  (∃ cs msg,
     h1 = [(OLog msg, RUnit);
           (OWrite (ID (Value child)) (WStepStatus Successful), RUnit);
           (OChildren child, RNodes cs)]
          ++ go_events child cs
          ++ [(OSendCompleted (ID (Value child)), RUnit)])
  ∧ ∀ err r,
      (OSendError err, r)
      ∉ [(ORemoveEdge (Name parent) (Name child), RErr None); (OGetDegree child, RInt 0)]
        ++ h0 ++ h1.
Proof.
  intros Hignore Hstep Hrun.
  unfold runs, processVertex in Hrun. cbn in Hrun.
  destruct Hrun as (_ & _ & _ & _ & Hrun).
  apply runs_to_app in Hrun as (p' & Hp' & Hrun).
  match type of Hp' with
  | runs_to (_ ≫= ?f) _ _ => pose proof (runs_to_bind_end _ f _ _ Hstep) as Hend
  end.
  rewrite (runs_to_det _ _ _ _ Hp' Hend) in Hrun. clear Hp' Hend.
  apply (processVertex_after_runStep child (Some e)) in Hrun as (cs & msg & ->).
  unfold outcome_events. rewrite Hignore. split.
  - exists cs, msg. by rewrite <- app_assoc.
  - intros err r.
    rewrite !elem_of_app, !elem_of_cons, ?elem_of_nil, go_events_elem.
    intros Hin. destruct_or?; try done.
    + apply (runStep_quiet _ _ _ _ _ _ Hstep) in Hin as (_ & _ & _ & Hne & _).
      by apply (Hne err r).
    + by destruct Hin as (c & _ & ?).
Qed.

(** X10.  A goroutine that runs [processVertex] to its end and executes
    the step (the degree it reads is 0) has pushed the completion signal
    of that step exactly once, as its last operation and after a final
    status is set, whatever the execution returns; one that does not
    execute the step has pushed nothing. *)
Theorem processVertex_signals_once task parent child h :
  runs (processVertex b task parent child) h tt →
  (∀ id r, (OSendCompleted id, r) ∈ h → id = ID (Value child) ∧ r = RUnit)
  ∧ ((OGetDegree child, RInt 0) ∈ h →
     completions h = 1
     ∧ last h = Some (OSendCompleted (ID (Value child)), RUnit)
     ∧ ∃ st, (st = Successful ∨ st = Failed)
             ∧ (OWrite (ID (Value child)) (WStepStatus st), RUnit) ∈ h)
  ∧ ((OGetDegree child, RInt 0) ∉ h → completions h = 0).
Proof.
  intros Hrun. apply processVertex_runs in Hrun.
  destruct Hrun as [e|d Hd|h0 err cs msg Hstep].
  - split; [|split].
    + intros id r. rewrite !elem_of_cons, elem_of_nil. naive_solver.
    + rewrite !elem_of_cons, elem_of_nil. naive_solver.
    + done.
  - split; [|split].
    + intros id r. rewrite !elem_of_cons, elem_of_nil. naive_solver.
    + rewrite !elem_of_cons, elem_of_nil. naive_solver.
    + done.
  - assert (Hc0 : completions h0 = 0).
    { apply completions_none. intros ev Hin.
      by apply (runStep_quiet _ _ _ _ _ _ Hstep) in Hin as (? & _). }
    assert (Hc1 : completions (outcome_events child err cs msg) = 0).
    { apply completions_none. intros ev Hin.
      by apply outcome_events_quiet in Hin as (? & _). }
    split; [|split].
    + intros id r. rewrite !elem_of_app, !elem_of_cons, ?elem_of_nil.
      intros Hin. destruct_or?; try done.
      * by apply (runStep_quiet _ _ _ _ _ _ Hstep) in Hin as (? & _).
      * by apply outcome_events_quiet in Hin as (? & _).
      * by simplify_eq.
    + intros _. split; [|split].
      * rewrite !completions_app, Hc0, Hc1. done.
      * rewrite !app_assoc. apply last_snoc.
      * destruct (outcome_events_status child err cs msg) as (st & Hst & Hin).
        exists st. split; [done|]. set_solver.
    + intros Hnot. exfalso. apply Hnot. set_solver.
Qed.

Lemma app_cons_split {A} (P : A → Prop) (pre rest h1 : list A) x h2 :
  pre ++ rest = h1 ++ x :: h2 → Forall P pre → ¬ P x →
  ∃ r1, h1 = pre ++ r1 ∧ rest = r1 ++ x :: h2.
Proof.
  revert h1. induction pre as [|a pre IH]; intros h1 Heq Hpre Hx; simpl in *.
  - by exists h1.
  - apply Forall_cons in Hpre as [Ha Hpre].
    destruct h1 as [|a' h1]; simpl in Heq; simplify_eq; [done|].
    destruct (IH h1) as (r1 & -> & ->); [done..|]. by exists r1.
Qed.

Lemma snoc_cons_split {A} (gos r1 : list A) sc x h2 :
  gos ++ [sc] = r1 ++ x :: h2 → x ≠ sc →
  ∃ g2, gos = r1 ++ x :: g2 ∧ h2 = g2 ++ [sc].
Proof.
  revert gos. induction r1 as [|a r1 IH]; intros gos Heq Hne; simpl in *.
  - destruct gos as [|g gos]; simpl in Heq; simplify_eq. by exists gos.
  - destruct gos as [|g gos]; simpl in Heq; simplify_eq.
    + by destruct r1.
    + destruct (IH gos) as (g2 & -> & ->); [done..|]. by exists g2.
Qed.

Lemma outcome_events_go child err cs msg :
  (∃ pre, outcome_events child err cs msg = pre ++ go_events child cs
          ∧ Forall (λ ev, is_Go ev = false) pre
          ∧ (OWrite (ID (Value child)) (WStepStatus Successful), RUnit) ∈ pre
          ∧ (∀ ev, ev ∈ pre → is_SendCompleted ev = false))
  ∨ (Forall (λ ev, is_Go ev = false) (outcome_events child err cs msg)
     ∧ ∀ cs', (OChildren child, RNodes cs') ∉ outcome_events child err cs msg).
Proof.
  unfold outcome_events.
  destruct err as [e|]; [destruct (IgnoreErrors (Value child))|].
  - left. eexists. split; [reflexivity|]. split; [by repeat constructor|].
    split; [set_solver|]. intros ev. rewrite !elem_of_cons, elem_of_nil.
    intros Hin. by destruct_or?; subst.
  - right. split; [by repeat constructor|]. intros cs'. set_solver.
  - left. eexists. split; [reflexivity|]. split; [by repeat constructor|].
    split; [set_solver|]. intros ev. rewrite !elem_of_cons, elem_of_nil.
    intros Hin. by destruct_or?; subst.
Qed.

Lemma go_events_is_Go parent cs ev : ev ∈ go_events parent cs → is_Go ev = true.
Proof. intros (c & _ & ->)%go_events_elem. done. Qed.

(** C4, as the code has it.  In a run of [processVertex], a goroutine for
    a child is started after the status [Successful] is set and before
    the completion signal is pushed: the push comes last.  Every child
    that [Children] yields gets its goroutine. *)
Theorem processVertex_spawns_then_signals task parent child h :
  runs (processVertex b task parent child) h tt →
  (∀ h1 h2 p c r, h = h1 ++ (OGo p c, r) :: h2 →
     (OWrite (ID (Value child)) (WStepStatus Successful), RUnit) ∈ h1
     ∧ (∀ id r', (OSendCompleted id, r') ∉ h1)
     ∧ (OSendCompleted (ID (Value child)), RUnit) ∈ h2)
  ∧ (∀ cs c, (OChildren child, RNodes cs) ∈ h → c ∈ cs → (OGo child c, RUnit) ∈ h).
Proof.
  intros Hrun. apply processVertex_runs in Hrun.
  destruct Hrun as [e|d Hd|h0 err cs msg Hstep].
  - split.
    + intros h1 h2 p c r Heq.
      assert (Hin : (OGo p c, r) ∈ h1 ++ (OGo p c, r) :: h2)
        by (apply elem_of_app; right; left).
      rewrite <- Heq, !elem_of_cons, elem_of_nil in Hin. by destruct_or?.
    + intros cs c. rewrite !elem_of_cons, elem_of_nil. intros Hin. by destruct_or?.
  - split.
    + intros h1 h2 p c r Heq.
      assert (Hin : (OGo p c, r) ∈ h1 ++ (OGo p c, r) :: h2)
        by (apply elem_of_app; right; left).
      rewrite <- Heq, !elem_of_cons, elem_of_nil in Hin. by destruct_or?.
    + intros cs c. rewrite !elem_of_cons, elem_of_nil. intros Hin. by destruct_or?.
  - set (hd := [(ORemoveEdge (Name parent) (Name child), RErr None);
                (OGetDegree child, RInt 0)]).
    set (sc := (OSendCompleted (ID (Value child)), RUnit)).
    assert (Hhd : Forall (λ ev, is_Go ev = false) (hd ++ h0)).
    { apply Forall_app. split; [by repeat constructor|].
      apply Forall_forall. intros ev Hin.
      by apply (runStep_quiet _ _ _ _ _ _ Hstep) in Hin as (_ & ? & _). }
    assert (Hhd' : ∀ ev, ev ∈ hd ++ h0 → is_SendCompleted ev = false).
    { intros ev. rewrite elem_of_app. intros [Hin|Hin].
      - unfold hd in Hin. rewrite !elem_of_cons, elem_of_nil in Hin.
        by destruct_or?; subst.
      - by apply (runStep_quiet _ _ _ _ _ _ Hstep) in Hin as (? & _). }
    destruct (outcome_events_go child err cs msg)
      as [(pre & Hout & Hpre & Hw & Hpre')|[Hnogo Hnochildren]].
    + rewrite Hout.
      assert (Hshape : hd ++ h0 ++ (pre ++ go_events child cs) ++ [sc]
                       = ((hd ++ h0) ++ pre) ++ go_events child cs ++ [sc])
        by (by rewrite <- !app_assoc).
      rewrite Hshape. clear Hshape. split.
      * intros h1 h2 p c r Heq.
        apply (app_cons_split (λ ev, is_Go ev = false)) in Heq
          as (r1 & -> & Hrest); [| by apply Forall_app | done].
        apply snoc_cons_split in Hrest as (g2 & Hgos & ->); [|done].
        split; [|split].
        -- apply elem_of_app. left. apply elem_of_app. by right.
        -- intros id r'. rewrite elem_of_app. intros [Hin|Hin].
           ++ apply elem_of_app in Hin as [Hin|Hin];
                [by apply Hhd' in Hin | by apply Hpre' in Hin].
           ++ assert (Hin' : (OSendCompleted id, r') ∈ go_events child cs)
                by (rewrite Hgos; apply elem_of_app; by left).
              by apply go_events_is_Go in Hin'.
        -- apply elem_of_app. right. by left.
      * intros cs' c' Hin Hc'.
        assert (cs' = cs) as ->.
        { rewrite !elem_of_app in Hin. destruct Hin as [[[Hin|Hin]|Hin]|[Hin|Hin]].
          - unfold hd in Hin. rewrite !elem_of_cons, elem_of_nil in Hin.
            by destruct_or?.
          - by apply (runStep_event _ _ _ _ _ _ Hstep) in Hin.
          - assert (Hin' : (OChildren child, RNodes cs')
                           ∈ outcome_events child err cs msg)
              by (rewrite Hout; apply elem_of_app; by left).
            clear -Hin'. unfold outcome_events in Hin'.
            destruct err as [e|]; [destruct (IgnoreErrors (Value child))|];
              rewrite ?elem_of_app, ?elem_of_cons, ?elem_of_nil in Hin';
              destruct_or?; simplify_eq; try done;
              by apply go_events_is_Go in Hin'.
          - by apply go_events_is_Go in Hin.
          - unfold sc in Hin. rewrite elem_of_cons, elem_of_nil in Hin.
            by destruct_or?. }
        apply elem_of_app. right. apply elem_of_app. left.
        apply go_events_elem. eauto.
    + split.
      * intros h1 h2 p c r Heq. exfalso.
        assert (Hin : (OGo p c, r) ∈ h1 ++ (OGo p c, r) :: h2)
          by (apply elem_of_app; right; left).
        rewrite <- Heq, !elem_of_app in Hin. destruct Hin as [Hin|[Hin|[Hin|Hin]]].
        -- unfold hd in Hin. rewrite !elem_of_cons, elem_of_nil in Hin.
           by destruct_or?.
        -- by apply (runStep_quiet _ _ _ _ _ _ Hstep) in Hin as (_ & ? & _).
        -- rewrite Forall_forall in Hnogo. by apply Hnogo in Hin.
        -- unfold sc in Hin. rewrite elem_of_cons, elem_of_nil in Hin.
           by destruct_or?.
      * intros cs' c' Hin _. exfalso.
        rewrite !elem_of_app in Hin. destruct Hin as [Hin|[Hin|[Hin|Hin]]].
        -- unfold hd in Hin. rewrite !elem_of_cons, elem_of_nil in Hin.
           by destruct_or?.
        -- by apply (runStep_event _ _ _ _ _ _ Hstep) in Hin.
        -- by apply Hnochildren in Hin.
        -- unfold sc in Hin. rewrite elem_of_cons, elem_of_nil in Hin.
           by destruct_or?.
Qed.

Lemma outcome_events_result child err cs msg :
  (OWrite (ID (Value child)) (WStepStatus Successful), RUnit)
    ∈ outcome_events child err cs msg
  ∨ ∃ e, (OSendError e, RUnit) ∈ outcome_events child err cs msg.
Proof.
  unfold outcome_events.
  destruct err as [e|]; [destruct (IgnoreErrors (Value child))|].
  - left. right. left.
  - right. eexists. right. left.
  - left. left.
Qed.

(** A goroutine that has pushed a completion signal has pushed that of
    its step, after it has set the status [Successful], or after it has
    sent an error. *)
Lemma processVertex_signalled task parent child h q id r :
  runs_to (processVertex b task parent child) h q →
  (OSendCompleted id, r) ∈ h →
  id = ID (Value child)
  ∧ ((OWrite id (WStepStatus Successful), RUnit) ∈ h
     ∨ ∃ e, (OSendError e, RUnit) ∈ h).
Proof.
  unfold processVertex. cbn. intros Hrun Hin.
  apply runs_to_Op in Hrun as [[-> _]|(r1 & h1 & -> & Hok & Hrun)];
    [by apply elem_of_nil in Hin|].
  apply elem_of_cons in Hin as [Hin|Hin]; [done|].
  destruct r1 as [|[e|]| | | | | | |]; try discriminate Hok; cbn in Hrun.
  { assert (Hno : (λ o, ∀ id, o ≠ OSendCompleted id) (OSendCompleted id, r).1).
    { eapply all_ops_events; [|exact Hrun|exact Hin]. by apply all_ops_perform. }
    by destruct (Hno id). }
  apply runs_to_Op in Hrun as [[-> _]|(r2 & h2 & -> & Hok2 & Hrun)];
    [by apply elem_of_nil in Hin|].
  apply elem_of_cons in Hin as [Hin|Hin]; [done|].
  destruct r2; try discriminate Hok2; cbn in Hrun.
  destruct (z =? 0)%Z; [|apply runs_to_Ret in Hrun as [-> _]; by apply elem_of_nil in Hin].
  apply runs_to_bind in Hrun as [(p' & Hstep & _)|(t1 & t2 & err & -> & Hstep & Hrun)].
  { by apply (runStep_quiet _ _ _ _ _ _ Hstep) in Hin as (? & _). }
  apply elem_of_app in Hin as [Hin|Hin].
  { by apply (runStep_quiet _ _ _ _ _ _ Hstep) in Hin as (? & _). }
  cbn beta in Hrun.
  apply runs_to_bind in Hrun as [(p' & Hout & _)|(u1 & u2 & [] & -> & Hout & Hrun)].
  { assert (Hno : (λ o, ∀ id, o ≠ OSendCompleted id) (OSendCompleted id, r).1).
    { eapply all_ops_events; [|exact Hout|exact Hin]. walk_ops; simpl; done. }
    by destruct (Hno id). }
  assert (Hu1 : ∃ cs msg, u1 = outcome_events child err cs msg).
  { destruct (processVertex_after_runStep child err
                (u1 ++ [(OSendCompleted (ID (Value child)), RUnit)]))
      as (cs & msg & Heq).
    - apply runs_bind. exists u1, [(OSendCompleted (ID (Value child)), RUnit)], tt.
      split; [done|]. split; [exact Hout|]. by repeat split.
    - apply app_inj_tail in Heq as [-> _]. eauto. }
  destruct Hu1 as (cs & msg & ->).
  apply elem_of_app in Hin as [Hin|Hin].
  { by apply outcome_events_quiet in Hin as (? & _). }
  apply runs_to_Op in Hrun as [[-> _]|(r3 & h3 & -> & Hok3 & Hrun)];
    [by apply elem_of_nil in Hin|].
  apply runs_to_Ret in Hrun as [-> _].
  apply list_elem_of_singleton in Hin. injection Hin as -> ->.
  split; [done|].
  destruct (outcome_events_result child err cs msg) as [Hw|[e He]].
  - left. do 2 right. apply elem_of_app. right. apply elem_of_app. by left.
  - right. exists e. do 2 right. apply elem_of_app. right. apply elem_of_app. by left.
Qed.

End sequential.

(** *** The task run *)

Lemma events_of_app t tr1 tr2 : events_of t (tr1 ++ tr2) = events_of t tr1 ++ events_of t tr2.
Proof.
  induction tr1 as [|x tr1 IH]; simpl; [done|].
  case_decide; simpl; by rewrite IH.
Qed.

Lemma events_of_elem t tr ev : ev ∈ events_of t tr ↔ (t, ev) ∈ tr.
Proof.
  induction tr as [|[t' ev'] tr IH]; simpl.
  - by rewrite !elem_of_nil.
  - case_decide; simpl in *; rewrite ?elem_of_cons, IH; naive_solver.
Qed.

Section concurrent.
Context `{Collaborators} (b : Builder) (task : Task).
Context {D : Type} `{DagOps D} (capacity : nat).

Local Abbreviation lts_step := (lts_step b task capacity).
Local Abbreviation exec := (exec b task capacity).

(** What an operation of a goroutine on its own changes. *)
Lemma local_op_spec σ o r σ' r' :
  local_op b task capacity σ o r = Some (σ', r') →
  reply_ok o r' = true
  ∧ st_main σ' = st_main σ
  ∧ st_done σ' = st_done σ
  ∧ (st_pool σ' = st_pool σ
     ∨ ∃ parent child, o = OGo parent child
         ∧ st_pool σ' = st_pool σ ++ [processVertex b task parent child])
  ∧ (∀ e, o ≠ OSendError e) ∧ (∀ id, o ≠ OSelect id)
  ∧ (∀ id, buffered σ' id = buffered σ id
           ∨ (o = OSendCompleted id ∧ r' = RUnit)).
Proof.
  destruct o; simpl; intros Hop; repeat case_match; simplify_eq; simpl;
    repeat split; try done; eauto; try (by destruct r).
  intros id'. destruct (decide (id = id')) as [->|Hne]; [by right|].
  left. unfold buffered. simpl. by rewrite lookup_insert_ne.
Qed.

Lemma runs_to_snoc {R} (p : prog R) h o k r :
  runs_to p h (Op o k) → reply_ok o r = true → runs_to p (h ++ [(o, r)]) (k r).
Proof. intros Hrun Hok. apply runs_to_app. exists (Op o k). by repeat split. Qed.

(** What holds of the events of a task run and of the state it
    reaches. *)
Record inv (tr : list (thread * event)) (σ : state D) : Prop := {
  inv_main : runs_to (RunTask b task) (events_of Main tr) (st_main σ);
  inv_pool : ∀ i p, st_pool σ !! i = Some p →
    ∃ parent child,
      runs_to (processVertex b task parent child) (events_of (Worker i) tr) p;
  inv_workers : ∀ i ev, (Worker i, ev) ∈ tr → (i < length (st_pool σ))%nat;
  inv_error : ∀ t e r, (t, (OSendError e, r)) ∈ tr →
    ∃ id, (Main, (OSelect id, RSel (SelError e))) ∈ tr;
  inv_completed : ∀ id,
    (Main, (OSelect id, RSel SelCompleted)) ∈ tr ∨ (0 < buffered σ id)%nat →
    ∃ t, (t, (OSendCompleted id, RUnit)) ∈ tr;
  inv_done : ∀ id e, (Main, (OSelect id, RSel (SelDone e))) ∈ tr → st_done σ = Some e
}.

Lemma inv_init d once : inv [] (init b task d once).
Proof.
  split; simpl; try done.
  - intros i ev Hin. by apply elem_of_nil in Hin.
  - intros t e r Hin. by apply elem_of_nil in Hin.
  - intros id [Hin|Hlt]; [by apply elem_of_nil in Hin|].
    unfold buffered in Hlt. simpl in Hlt. rewrite lookup_empty in Hlt. simpl in Hlt. lia.
  - intros id e Hin. by apply elem_of_nil in Hin.
Qed.

Lemma events_of_other t t' ev tr :
  t ≠ t' → events_of t (tr ++ [(t', ev)]) = events_of t tr.
Proof.
  intros Hne. rewrite events_of_app. simpl. rewrite decide_False by done.
  by rewrite app_nil_r.
Qed.

Lemma events_of_same t ev tr :
  events_of t (tr ++ [(t, ev)]) = events_of t tr ++ [ev].
Proof. rewrite events_of_app. simpl. by rewrite decide_True. Qed.

Lemma events_of_fresh i tr σ :
  inv tr σ → (length (st_pool σ) ≤ i)%nat → events_of (Worker i) tr = [].
Proof.
  intros Hinv Hle. destruct (events_of (Worker i) tr) as [|ev h] eqn:Heq; [done|].
  assert (Hin : ev ∈ events_of (Worker i) tr) by (rewrite Heq; by left).
  apply events_of_elem, (inv_workers _ _ Hinv) in Hin. lia.
Qed.

(** A goroutine performs an operation on its own. *)
Lemma inv_local tr σ t o r σ1 r' (pool' : list (prog unit)) (main' : prog error) :
  inv tr σ →
  local_op b task capacity σ o r = Some (σ1, r') →
  runs_to (RunTask b task) (events_of Main (tr ++ [(t, (o, r'))])) main' →
  (∀ i p, pool' !! i = Some p →
     ∃ parent child,
       runs_to (processVertex b task parent child)
         (events_of (Worker i) (tr ++ [(t, (o, r'))])) p) →
  length pool' = length (st_pool σ1) →
  (∀ i, t = Worker i → (i < length (st_pool σ))%nat) →
  inv (tr ++ [(t, (o, r'))])
      (State (st_dag σ1) (st_steps σ1) main' pool' (st_done σ1) (st_once σ1)
             (st_completed σ1)).
Proof.
  intros Hinv Hop Hmain Hpool Hlen Ht.
  apply local_op_spec in Hop as (Hok & _ & Hdone & Hp & Hne & Hns & Hbuf).
  assert (Hgrow : (length (st_pool σ) ≤ length (st_pool σ1))%nat).
  { destruct Hp as [->|(? & ? & _ & ->)]; [done|]. rewrite length_app. lia. }
  split; simpl; try done.
  - intros i ev. rewrite elem_of_app, list_elem_of_singleton.
    intros [Hin|Heq].
    + apply (inv_workers _ _ Hinv) in Hin. lia.
    + simplify_eq. specialize (Ht i eq_refl). lia.
  - intros t0 e r0. rewrite elem_of_app, list_elem_of_singleton.
    intros [Hin|Heq].
    + apply (inv_error _ _ Hinv) in Hin as (id & Hin). exists id. set_solver.
    + simplify_eq. by destruct (Hne e).
  - intros id. rewrite elem_of_app, list_elem_of_singleton.
    intros [[Hin|Heq]|Hlt].
    + destruct (inv_completed _ _ Hinv id) as (t0 & Hin0); [by left|].
      exists t0. set_solver.
    + simplify_eq. by destruct (Hns id).
    + destruct (Hbuf id) as [Hsame|[-> ->]].
      * destruct (inv_completed _ _ Hinv id) as (t0 & Hin0).
        { right. unfold buffered in *. simpl in *. by rewrite <- Hsame. }
        exists t0. set_solver.
      * exists t. set_solver.
  - intros id e. rewrite elem_of_app, list_elem_of_singleton.
    intros [Hin|Heq].
    + rewrite Hdone. by apply (inv_done _ _ Hinv id).
    + simplify_eq. by destruct (Hns id).
Qed.

Lemma inv_step tr σ a σ' evs :
  inv tr σ → lts_step σ a = Some (σ', evs) → inv (tr ++ evs) σ'.
Proof.
  intros Hinv Hstep. destruct a as [e|[|i] r| | |i|i]; simpl in Hstep.
  - (* the context is done *)
    destruct (st_done σ) eqn:Hd; simplify_eq. rewrite app_nil_r.
    destruct Hinv. split; simpl; try done.
    intros id e' Hin. apply inv_done0 in Hin. congruence.
  - (* RunTask, on its own *)
    destruct (st_main σ) as [|o k] eqn:Hm; [done|].
    destruct (local_op b task capacity σ o r) as [[σ1 r']|] eqn:Hop; simplify_eq.
    pose proof (local_op_spec _ _ _ _ _ Hop) as (Hok & Hm1 & _ & Hp & _).
    unfold set_main. apply (inv_local _ _ _ _ _ _ _ _ _ Hinv Hop); try done.
    + rewrite events_of_same. apply runs_to_snoc; [|done].
      rewrite <- Hm. apply (inv_main _ _ Hinv).
    + intros i p Hi. rewrite events_of_other by done.
      destruct Hp as [Hp|(parent & child & _ & Hp)]; rewrite Hp in Hi.
      * by apply (inv_pool _ _ Hinv).
      * apply lookup_app_Some in Hi as [Hi|[Hle Hi]]; [by apply (inv_pool _ _ Hinv)|].
        apply list_lookup_singleton_Some in Hi as [Hi <-].
        exists parent, child.
        rewrite (events_of_fresh _ _ _ Hinv) by lia. done.
  - (* a goroutine, on its own *)
    destruct (st_pool σ !! i) as [[|o k]|] eqn:Hi; try done.
    destruct (local_op b task capacity σ o r) as [[σ1 r']|] eqn:Hop; simplify_eq.
    pose proof (local_op_spec _ _ _ _ _ Hop) as (Hok & Hm1 & _ & Hp & _).
    pose proof (lookup_lt_Some _ _ _ Hi) as Hlt.
    unfold set_pool.
    apply (inv_local _ _ _ _ _ _ _ _ _ Hinv Hop); try done.
    + rewrite events_of_other by done. rewrite Hm1. apply (inv_main _ _ Hinv).
    + intros j p Hj. destruct (decide (j = i)) as [->|Hne].
      * rewrite list_lookup_insert_eq in Hj
          by (destruct Hp as [->|(? & ? & _ & ->)]; rewrite ?length_app; lia).
        simplify_eq. destruct (inv_pool _ _ Hinv _ _ Hi) as (parent & child & Hrun).
        exists parent, child. rewrite events_of_same. by apply runs_to_snoc.
      * rewrite list_lookup_insert_ne in Hj by done.
        rewrite events_of_other by congruence.
        destruct Hp as [Hp|(parent & child & _ & Hp)]; rewrite Hp in Hj.
        -- by apply (inv_pool _ _ Hinv).
        -- apply lookup_app_Some in Hj as [Hj|[Hle Hj]]; [by apply (inv_pool _ _ Hinv)|].
           apply list_lookup_singleton_Some in Hj as [Hj <-].
           exists parent, child.
           rewrite (events_of_fresh _ _ _ Hinv) by lia. done.
    + by rewrite length_insert.
    + intros j [= <-]. done.
  - (* the select takes the context *)
    destruct (st_main σ) as [|[] k] eqn:Hm; try done.
    destruct (st_done σ) as [e|] eqn:Hd; simplify_eq.
    destruct Hinv. split; simpl; try done.
    + rewrite events_of_same. apply runs_to_snoc; [|done]. by rewrite <- Hm.
    + intros i p Hi. rewrite events_of_other by done. by apply inv_pool0.
    + intros i ev. rewrite elem_of_app, list_elem_of_singleton.
      intros [Hin|?]; [by apply inv_workers0 in Hin|done].
    + intros t e' r'. rewrite elem_of_app, list_elem_of_singleton.
      intros [Hin|?]; [|done]. apply inv_error0 in Hin as (id' & ?).
      exists id'. set_solver.
    + intros id'. rewrite elem_of_app, list_elem_of_singleton.
      intros [[Hin|?]|Hlt]; [| done |].
      * destruct (inv_completed0 id') as (t & ?); [by left|]. exists t. set_solver.
      * destruct (inv_completed0 id') as (t & ?); [by right|]. exists t. set_solver.
    + intros id' e'. rewrite elem_of_app, list_elem_of_singleton.
      intros [Hin|?]; [by apply (inv_done0 id')|]. by simplify_eq.
  - (* the select receives a buffered signal *)
    destruct (st_main σ) as [|[] k] eqn:Hm; try done.
    destruct (buffered σ id) as [|n] eqn:Hb; simplify_eq.
    destruct Hinv. split; simpl; try done.
    + rewrite events_of_same. apply runs_to_snoc; [|done]. by rewrite <- Hm.
    + intros i p Hi. rewrite events_of_other by done. by apply inv_pool0.
    + intros i ev. rewrite elem_of_app, list_elem_of_singleton.
      intros [Hin|?]; [by apply inv_workers0 in Hin|done].
    + intros t e' r'. rewrite elem_of_app, list_elem_of_singleton.
      intros [Hin|?]; [|done]. apply inv_error0 in Hin as (id' & ?).
      exists id'. set_solver.
    + intros id'. rewrite elem_of_app, list_elem_of_singleton.
      intros [[Hin|Heq]|Hlt].
      * destruct (inv_completed0 id') as (t & ?); [by left|]. exists t. set_solver.
      * assert (id' = id) as -> by congruence.
        destruct (inv_completed0 id) as (t & ?); [right; lia|].
        exists t. set_solver.
      * destruct (inv_completed0 id') as (t & ?); [|exists t; set_solver].
        right. unfold buffered in *. simpl in Hlt.
        destruct (decide (id = id')) as [->|Hne]; [lia|].
        by rewrite lookup_insert_ne in Hlt.
    + intros id' e'. rewrite elem_of_app, list_elem_of_singleton.
      intros [Hin|?]; [by apply (inv_done0 id')|]. by simplify_eq.
  - (* the select receives the signal a goroutine sends *)
    destruct (st_main σ) as [|[] k] eqn:Hm; try done.
    destruct (st_pool σ !! i) as [[|[] k']|] eqn:Hi; try done.
    destruct (String.eqb id id0) eqn:Heq; simplify_eq.
    apply String.eqb_eq in Heq as <-.
    pose proof (lookup_lt_Some _ _ _ Hi) as Hlt.
    destruct Hinv. split; simpl; try done.
    + change [(Worker i, (OSendCompleted id, RUnit)); (Main, (OSelect id, RSel SelCompleted))]
        with ([(Worker i, (OSendCompleted id, RUnit))] ++ [(Main, (OSelect id, RSel SelCompleted))]).
      rewrite app_assoc, events_of_same, events_of_other by done.
      apply runs_to_snoc; [|done]. by rewrite <- Hm.
    + intros j p Hj.
      change [(Worker i, (OSendCompleted id, RUnit)); (Main, (OSelect id, RSel SelCompleted))]
        with ([(Worker i, (OSendCompleted id, RUnit))] ++ [(Main, (OSelect id, RSel SelCompleted))]).
      rewrite app_assoc, (events_of_other (Worker j)) by done.
      destruct (decide (j = i)) as [->|Hne].
      * rewrite list_lookup_insert_eq in Hj by done. simplify_eq.
        destruct (inv_pool0 _ _ Hi) as (parent & child & Hrun).
        exists parent, child. rewrite events_of_same. by apply runs_to_snoc.
      * rewrite list_lookup_insert_ne in Hj by done.
        rewrite events_of_other by congruence. by apply inv_pool0.
    + intros j ev. rewrite length_insert, elem_of_app, !elem_of_cons, elem_of_nil.
      intros [Hin|[?|[?|[]]]]; [by apply inv_workers0 in Hin| by simplify_eq | done].
    + intros t e' r'. rewrite elem_of_app, !elem_of_cons, elem_of_nil.
      intros [Hin|[?|[?|[]]]]; try done. apply inv_error0 in Hin as (id' & ?).
      exists id'. set_solver.
    + intros id'. rewrite elem_of_app, !elem_of_cons, elem_of_nil.
      intros [[Hin|[?|[?|[]]]]|Hlt']; try done.
      * destruct (inv_completed0 id') as (t & ?); [by left|]. exists t. set_solver.
      * simplify_eq. exists (Worker i). set_solver.
      * destruct (inv_completed0 id') as (t & ?); [by right|]. exists t. set_solver.
    + intros id' e'. rewrite elem_of_app, !elem_of_cons, elem_of_nil.
      intros [Hin|[?|[?|[]]]]; try done. by apply (inv_done0 id').
  - (* the select receives the error a goroutine sends *)
    destruct (st_main σ) as [|[] k] eqn:Hm; try done.
    destruct (st_pool σ !! i) as [[|[] k']|] eqn:Hi; try done. simplify_eq.
    pose proof (lookup_lt_Some _ _ _ Hi) as Hlt.
    destruct Hinv. split; simpl; try done.
    + change [(Worker i, (OSendError e, RUnit)); (Main, (OSelect id, RSel (SelError e)))]
        with ([(Worker i, (OSendError e, RUnit))] ++ [(Main, (OSelect id, RSel (SelError e)))]).
      rewrite app_assoc, events_of_same, events_of_other by done.
      apply runs_to_snoc; [|done]. by rewrite <- Hm.
    + intros j p Hj.
      change [(Worker i, (OSendError e, RUnit)); (Main, (OSelect id, RSel (SelError e)))]
        with ([(Worker i, (OSendError e, RUnit))] ++ [(Main, (OSelect id, RSel (SelError e)))]).
      rewrite app_assoc, (events_of_other (Worker j)) by done.
      destruct (decide (j = i)) as [->|Hne].
      * rewrite list_lookup_insert_eq in Hj by done. simplify_eq.
        destruct (inv_pool0 _ _ Hi) as (parent & child & Hrun).
        exists parent, child. rewrite events_of_same. by apply runs_to_snoc.
      * rewrite list_lookup_insert_ne in Hj by done.
        rewrite events_of_other by congruence. by apply inv_pool0.
    + intros j ev. rewrite length_insert, elem_of_app, !elem_of_cons, elem_of_nil.
      intros [Hin|[?|[?|[]]]]; [by apply inv_workers0 in Hin| by simplify_eq | done].
    + intros t e' r'. rewrite elem_of_app, !elem_of_cons, elem_of_nil.
      intros [Hin|[?|[?|[]]]]; try done.
      * apply inv_error0 in Hin as (id' & ?). exists id'. set_solver.
      * simplify_eq. exists id. set_solver.
    + intros id'. rewrite elem_of_app, !elem_of_cons, elem_of_nil.
      intros [[Hin|[?|[?|[]]]]|Hlt']; try done.
      * destruct (inv_completed0 id') as (t & ?); [by left|]. exists t. set_solver.
      * destruct (inv_completed0 id') as (t & ?); [by right|]. exists t. set_solver.
    + intros id' e'. rewrite elem_of_app, !elem_of_cons, elem_of_nil.
      intros [Hin|[?|[?|[]]]]; try done. by apply (inv_done0 id').
Qed.

Lemma exec_inv d once tr σ : exec (init b task d once) tr σ → inv tr σ.
Proof.
  induction 1 as [|tr σ' a σ'' evs _ IH Hstep]; [apply inv_init|].
  by apply (inv_step _ _ _ _ _ IH Hstep).
Qed.

Lemma main_returned_at_select d once tr σ id s e :
  exec (init b task d once) tr σ →
  (Main, (OSelect id, RSel s)) ∈ tr → s = SelDone e ∨ s = SelError e →
  st_main σ = Ret (Some e).
Proof.
  intros Hexec Hin Hs. pose proof (exec_inv _ _ _ _ Hexec) as Hinv.
  pose proof (inv_main _ _ Hinv) as Hmain.
  apply events_of_elem, list_elem_of_split in Hin as (t1 & t2 & Heq).
  rewrite Heq in Hmain.
  apply (tree_inv_event _ _ _ _ _ _ _ (RunTask_returns_at_select b task)) in Hmain
    as (k & _ & HQ & _ & Hrest).
  destruct (HQ id eq_refl e) as [Hdone Herr].
  destruct Hs as [-> | ->].
  - rewrite Hdone in Hrest. by apply runs_to_Ret in Hrest as [_ ->].
  - rewrite Herr in Hrest. by apply runs_to_Ret in Hrest as [_ ->].
Qed.

Lemma main_at_select d once tr σ id k e :
  exec (init b task d once) tr σ → st_main σ = Op (OSelect id) k →
  k (RSel (SelDone e)) = Ret (Some e) ∧ k (RSel (SelError e)) = Ret (Some e).
Proof.
  intros Hexec Hm. pose proof (exec_inv _ _ _ _ Hexec) as Hinv.
  pose proof (inv_main _ _ Hinv) as Hmain. rewrite Hm in Hmain.
  apply (tree_inv_runs_to _ _ _ _ (RunTask_returns_at_select b task)) in Hmain.
  inversion Hmain as [|o k0 HQ _]; subst. by apply (HQ id).
Qed.

(** X11.  The barrier of [RunTask], in a task run.
    - When the select takes the case of the context, the context is done
      and [RunTask] has returned its error; the select can take that case
      whenever the context is done.
    - When the select receives an error, [RunTask] has returned that
      error: at once, whatever the other steps do; the select can receive
      it whenever a goroutine is sending one.
    - When [RunTask] has returned nil, the select has received the
      completion signal of every step, and for each step there is a
      goroutine that ran [processVertex] for it, set its status to
      [Successful] (the step succeeded, or failed under [IgnoreErrors]),
      pushed its signal and sent no error. *)
Theorem RunTask_barrier d once tr σ :
  exec (init b task d once) tr σ →
  (∀ id e, (Main, (OSelect id, RSel (SelDone e))) ∈ tr →
     st_done σ = Some e ∧ st_main σ = Ret (Some e))
  ∧ (∀ id k e, st_main σ = Op (OSelect id) k → st_done σ = Some e →
     ∃ σ', lts_step σ ADone = Some (σ', [(Main, (OSelect id, RSel (SelDone e)))])
           ∧ st_main σ' = Ret (Some e))
  ∧ (∀ id e, (Main, (OSelect id, RSel (SelError e))) ∈ tr → st_main σ = Ret (Some e))
  ∧ (∀ id k i e k', st_main σ = Op (OSelect id) k →
     st_pool σ !! i = Some (Op (OSendError e) k') →
     ∃ σ', lts_step σ (ARecvError i)
           = Some (σ', [(Worker i, (OSendError e, RUnit));
                        (Main, (OSelect id, RSel (SelError e)))])
           ∧ st_main σ' = Ret (Some e))
  ∧ (st_main σ = Ret None →
     ∀ n, n ∈ Nodes (TaskDag task) →
       (Main, (OSelect (ID (Value n)), RSel SelCompleted)) ∈ tr
       ∧ ∃ i parent child p,
           ID (Value child) = ID (Value n)
           ∧ st_pool σ !! i = Some p
           ∧ runs_to (processVertex b task parent child) (events_of (Worker i) tr) p
           ∧ (Worker i, (OWrite (ID (Value n)) (WStepStatus Successful), RUnit)) ∈ tr
           ∧ (Worker i, (OSendCompleted (ID (Value n)), RUnit)) ∈ tr
           ∧ ∀ e r, (Worker i, (OSendError e, r)) ∉ tr).
Proof.
  intros Hexec. pose proof (exec_inv _ _ _ _ Hexec) as Hinv.
  split; [|split; [|split; [|split]]].
  - intros id e Hin. split; [by apply (inv_done _ _ Hinv id)|].
    apply (main_returned_at_select _ _ _ _ _ _ e Hexec Hin). by left.
  - intros id k e Hm Hd. destruct (main_at_select _ _ _ _ _ _ e Hexec Hm) as [Hk _].
    eexists. simpl. rewrite Hm, Hd. split; [reflexivity|]. exact Hk.
  - intros id e Hin. apply (main_returned_at_select _ _ _ _ _ _ e Hexec Hin). by right.
  - intros id k i e k' Hm Hi. destruct (main_at_select _ _ _ _ _ _ e Hexec Hm) as [_ Hk].
    eexists. simpl. rewrite Hm, Hi. split; [reflexivity|]. exact Hk.
  - intros Hnil n Hn.
    pose proof (inv_main _ _ Hinv) as Hmain. rewrite Hnil in Hmain.
    pose proof (RunTask_nil_completed b task _ Hmain n Hn) as Hsel.
    apply events_of_elem in Hsel. split; [done|].
    destruct (inv_completed _ _ Hinv (ID (Value n))) as (t & Hsent); [by left|].
    destruct t as [|i].
    { apply events_of_elem in Hsent.
      by apply (all_ops_events _ _ _ _ _ (RunTask_ops b task) Hmain) in Hsent. }
    pose proof (inv_workers _ _ Hinv _ _ Hsent) as Hlt.
    apply lookup_lt_is_Some_2 in Hlt as [p Hp].
    destruct (inv_pool _ _ Hinv _ _ Hp) as (parent & child & Hrun).
    assert (Hnoerr : ∀ e r, (Worker i, (OSendError e, r)) ∉ tr).
    { intros e r Herr. apply (inv_error _ _ Hinv) in Herr as (id & Herr).
      pose proof (main_returned_at_select _ _ _ _ _ _ e Hexec Herr) as Hret.
      rewrite Hnil in Hret. by specialize (Hret ltac:(by right)). }
    pose proof Hsent as Hsent'. apply events_of_elem in Hsent'.
    destruct (processVertex_signalled b task _ _ _ _ _ _ Hrun Hsent')
      as (Hid & [Hw|(e & He)]).
    + exists i, parent, child, p. repeat split; try done.
      by apply events_of_elem.
    + apply events_of_elem in He. by apply Hnoerr in He.
Qed.

Lemma exec_cons σ a σ1 evs tr σ' :
  lts_step σ a = Some (σ1, evs) → exec σ1 tr σ' → exec σ (evs ++ tr) σ'.
Proof.
  intros Hstep Hexec. induction Hexec as [|tr σ' a' σ'' evs' _ IH Hstep'].
  - rewrite app_nil_r. rewrite <- (app_nil_l evs). by eapply exec_snoc; [constructor|].
  - rewrite app_assoc. by eapply exec_snoc.
Qed.

Lemma exec_trans σ tr1 σ1 tr2 σ2 :
  exec σ tr1 σ1 → exec σ1 tr2 σ2 → exec σ (tr1 ++ tr2) σ2.
Proof.
  intros H1 H2. induction H2 as [|tr σ' a' σ'' evs' _ IH Hstep'].
  - by rewrite app_nil_r.
  - rewrite app_assoc. by eapply exec_snoc.
Qed.

Lemma run_actions_exec σ acts σ' tr :
  run_actions b task capacity σ acts = Some (σ', tr) → exec σ tr σ'.
Proof.
  revert σ tr. induction acts as [|a acts IH]; intros σ tr; simpl.
  - intros [= <- <-]. constructor.
  - destruct (lts_step σ a) as [[σ1 evs]|] eqn:Hstep; [|done].
    destruct (run_actions b task capacity σ1 acts) as [[σ2 tr2]|] eqn:Hrun; [|done].
    intros [= <- <-]. eapply exec_cons; [done|]. by apply IH.
Qed.

End concurrent.

(** *** The definitions at work on the task [a → b] *)

Section instances.
Import example.

Lemma processVertex_IgnoreErrors_witness :
  (∃ cs msg,
     ignored_tail
     = [(OLog msg, RUnit); (OWrite "a" (WStepStatus Successful), RUnit);
        (OChildren (node (step_a true)), RNodes cs)]
       ++ go_events (node (step_a true)) cs ++ [(OSendCompleted "a", RUnit)])
  ∧ ∀ err r,
      (OSendError err, r)
      ∉ [(ORemoveEdge "acb_root" "a", RErr None);
         (OGetDegree (node (step_a true)), RInt 0)]
        ++ cmd_events (step_a true) (Some "exit status 1") ++ ignored_tail.
Proof.
  apply (processVertex_IgnoreErrors builder0 (chain true false) root (node (step_a true))
           (cmd_events (step_a true) (Some "exit status 1")) "exit status 1" ignored_tail).
  - reflexivity.
  - vm_compute. repeat split.
  - vm_compute. repeat split.
Defined.

Lemma processVertex_signals_once_witness :
  completions chain_a_run = 1
  ∧ last chain_a_run = Some (OSendCompleted "a", RUnit).
Proof.
  assert (Hrun : runs (processVertex builder0 (chain false false) root (node (step_a false)))
                   chain_a_run tt) by (vm_compute; repeat split).
  destruct (processVertex_signals_once builder0 (chain false false) root
              (node (step_a false)) chain_a_run Hrun) as (_ & Hexecuted & _).
  destruct Hexecuted as (Hone & Hlast & _); [right; left|].
  exact (conj Hone Hlast).
Defined.

(** C4 fails as stated: in this run of [processVertex] for step [a], the
    goroutine of the child [b] is started (event 11) before the
    completion signal of [a] is pushed (event 12); the same operations
    with the signal first are not a run of [processVertex]. *)
Lemma processVertex_signal_first_counterexample :
  runs (processVertex builder0 (chain false false) root (node (step_a false)))
    chain_a_run tt
  ∧ chain_a_run !! 11%nat = Some (OGo (node (step_a false)) (node step_b), RUnit)
  ∧ chain_a_run !! 12%nat = Some (OSendCompleted "a", RUnit)
  ∧ ¬ runs (processVertex builder0 (chain false false) root (node (step_a false)))
        chain_a_run_signal_first tt.
Proof.
  split; [vm_compute; repeat split|]. split; [reflexivity|]. split; [reflexivity|].
  vm_compute. intros H. decompose [and] H. discriminate.
Qed.

Lemma processVertex_spawns_then_signals_witness :
  (OWrite "a" (WStepStatus Successful), RUnit) ∈ take 11 chain_a_run
  ∧ (∀ id r', (OSendCompleted id, r') ∉ take 11 chain_a_run)
  ∧ (OSendCompleted "a", RUnit) ∈ [(OSendCompleted "a", RUnit)].
Proof.
  assert (Hrun : runs (processVertex builder0 (chain false false) root (node (step_a false)))
                   chain_a_run tt) by (vm_compute; repeat split).
  exact (proj1 (processVertex_spawns_then_signals builder0 (chain false false) root
                  (node (step_a false)) chain_a_run Hrun)
           (take 11 chain_a_run) [(OSendCompleted "a", RUnit)]
           (node (step_a false)) (node step_b) RUnit eq_refl).
Defined.

(** What C5 says of a call: it is a call of [RunRepeatWithRetries] with
    the [Retries], [RetryOnErrors], [RetryDelayInSeconds] and [Repeat] of
    the step. *)
Definition through_RunRepeatWithRetries (step : Step) (cl : call) : Prop :=
  ∃ c args stdin stdout stderr cwd name,
    cl = RunRepeatWithRetries c args stdin stdout stderr cwd (Retries step)
           (RetryOnErrors step) (RetryDelayInSeconds step) name (Repeat step).

(** C5 fails as stated: the explicit pull of a cmd step invokes the
    engine through [RunWithRetries], with [CmdDownloadRetries] (5, not the
    3 [Retries] of the step), no retry patterns and no repeat. *)
Lemma runStep_pull_counterexample :
  runs (runStep builder0 ctx step_pull []) pull_run (Some "pull access denied")
  ∧ (OCall pull_call, RErr (Some "pull access denied")) ∈ pull_run
  ∧ ¬ through_RunRepeatWithRetries step_pull pull_call.
Proof.
  split; [vm_compute; repeat split|]. split; [do 2 right; left|].
  intros (c & args & i & o & e & cwd & name & Heq). discriminate Heq.
Qed.

(** C6 fails as stated: two calls of [RunTask] in one process, on a task
    that requires the build cache, execute the body of the initialization
    twice. *)
Lemma RunTask_initializes_twice_counterexample :
  runs (RunTask builder0 (empty_task true) ≫= λ _, RunTask builder0 (empty_task true))
    (empty_run ++ empty_run) None
  ∧ initializations (empty_run ++ empty_run) = 2.
Proof. split; [vm_compute; repeat split | reflexivity]. Qed.

Lemma RunTask_initializes_per_call_witness :
  (initializations empty_run ≤ 1)%nat
  ∧ (∀ ev, ev ∈ empty_run → ev.1 ≠ OOnceDo)
  ∧ (@None string = None → initializations empty_run = 1).
Proof.
  apply (RunTask_initializes_per_call builder0 (empty_task true) empty_run None).
  vm_compute. repeat split.
Defined.

Lemma chain_end_exec capacity :
  exec builder0 (chain false false) capacity
    (init builder0 (chain false false) (chain_dag false) false)
    (chain_end capacity).2 (chain_end capacity).1.
Proof. apply (run_actions_exec _ _ _ _ chain_actions). by vm_compute. Qed.

Lemma chain_fail_end_exec capacity :
  exec builder0 (chain false false) capacity
    (init builder0 (chain false false) (chain_dag false) false)
    (chain_fail_end capacity).2 (chain_fail_end capacity).1.
Proof. apply (run_actions_exec _ _ _ _ chain_fail_actions). by vm_compute. Qed.

Lemma RunTask_barrier_witness :
  (Main, (OSelect "b", RSel SelCompleted)) ∈ (chain_end 0).2
  ∧ ∃ i parent child p,
      ID (Value child) = "b"
      ∧ st_pool (chain_end 0).1 !! i = Some p
      ∧ runs_to (processVertex builder0 (chain false false) parent child)
          (events_of (Worker i) (chain_end 0).2) p
      ∧ (Worker i, (OWrite "b" (WStepStatus Successful), RUnit)) ∈ (chain_end 0).2
      ∧ (Worker i, (OSendCompleted "b", RUnit)) ∈ (chain_end 0).2
      ∧ ∀ e r, (Worker i, (OSendError e, r)) ∉ (chain_end 0).2.
Proof.
  destruct (RunTask_barrier builder0 (chain false false) 0 (chain_dag false) false
              (chain_end 0).2 (chain_end 0).1 (chain_end_exec 0))
    as (_ & _ & _ & _ & Hnil).
  apply (Hnil eq_refl (node step_b)). right. left.
Defined.

(** After step [a] has failed, nothing pushes the completion signal of
    [b]. *)
Definition a_failed (σ : state dag_state) : Prop :=
  st_main σ = Ret (Some "failed to run step ID: a: exit status 1")
  ∧ (st_pool σ = [perform (OSendCompleted "a")] ∨ st_pool σ = [Ret tt]).

Lemma a_failed_step capacity σ a σ' evs :
  a_failed σ → lts_step builder0 (chain false false) capacity σ a = Some (σ', evs) →
  a_failed σ' ∧ ∀ t r, (t, (OSendCompleted "b", r)) ∉ evs.
Proof.
  intros [Hm Hp] Hstep. destruct a as [e|[|i] r0| | |i|i]; simpl in Hstep.
  - destruct (st_done σ); simplify_eq. split; [done|]. intros t r Hin.
    by apply elem_of_nil in Hin.
  - by rewrite Hm in Hstep.
  - destruct Hp as [Hp|Hp]; rewrite Hp in Hstep;
      destruct i as [|i]; simpl in Hstep; try done.
    destruct (buffered σ "a" <? capacity)%nat; simplify_eq. simpl. rewrite Hp. simpl.
    split; [split; [done|by right]|].
    intros t r Hin. apply list_elem_of_singleton in Hin. discriminate Hin.
  - by rewrite Hm in Hstep.
  - by rewrite Hm in Hstep.
  - by rewrite Hm in Hstep.
  - by rewrite Hm in Hstep.
Qed.

Lemma a_failed_exec capacity σ tr σ' :
  a_failed σ → exec builder0 (chain false false) capacity σ tr σ' →
  a_failed σ' ∧ ∀ t r, (t, (OSendCompleted "b", r)) ∉ tr.
Proof.
  intros Hσ. induction 1 as [|tr σ' a σ'' evs _ [IH1 IH2] Hstep].
  - split; [done|]. intros t r Hin. by apply elem_of_nil in Hin.
  - destruct (a_failed_step _ _ _ _ _ IH1 Hstep) as [Hσ'' Hevs].
    split; [done|]. intros t r Hin. apply elem_of_app in Hin as [Hin|Hin].
    + by apply IH2 in Hin.
    + by apply Hevs in Hin.
Qed.

Lemma chain_fail_unreached capacity :
  st_main (chain_fail_end capacity).1 = Ret (Some "failed to run step ID: a: exit status 1")
  ∧ ∀ tr' σ',
      exec builder0 (chain false false) capacity (chain_fail_end capacity).1 tr' σ' →
      ∀ t r, (t, (OSendCompleted "b", r)) ∉ (chain_fail_end capacity).2 ++ tr'.
Proof.
  split; [by vm_compute|]. intros tr' σ' Hexec t r Hin.
  apply elem_of_app in Hin as [Hin|Hin].
  - revert Hin. vm_compute. intros Hin.
    repeat (apply elem_of_cons in Hin as [Hin|Hin]; [discriminate Hin|]).
    by apply elem_of_nil in Hin.
  - assert (Hσ : a_failed (chain_fail_end capacity).1) by (split; [|left]; by vm_compute).
    by apply (a_failed_exec _ _ _ _ Hσ Hexec) in Hin.
Qed.

End instances.

End builder_props.

(** * Properties of package [util] *)

Module util_props.
Import util.
Local Open Scope list_scope.

Lemma prefix_app (r x : string) : String.prefix r (r +:+ x) = true.
Proof.
  induction r as [|c r IH]; simpl.
  - by destruct x.
  - destruct (ascii_dec c c); [exact IH | done].
Qed.

Lemma prefix_app_l (r s x : string) :
  String.prefix (r +:+ s) x = true → String.prefix r x = true.
Proof.
  revert x. induction r as [|c r IH]; intros x; simpl.
  - by destruct x.
  - destruct x as [|d x]; simpl; [done|].
    destruct (ascii_dec c d); [apply IH | done].
Qed.

Lemma HasPrefix_registry_slash (r img : string) :
  HasPrefix img (r +:+ "/") = true → HasPrefix img r = true.
Proof. apply prefix_app_l. Qed.

Lemma PrefixRegistryToImageName_has_prefix (r img : string) :
  HasPrefix img r = true → PrefixRegistryToImageName r img = img.
Proof.
  intros H. unfold PrefixRegistryToImageName. rewrite H. simpl.
  by destruct (String.eqb r "").
Qed.

Lemma PrefixRegistryToImageName_library (r img : string) :
  HasPrefix img "library/" = true → PrefixRegistryToImageName r img = img.
Proof.
  intros H. unfold PrefixRegistryToImageName. rewrite H.
  rewrite andb_false_r. by destruct (String.eqb r "").
Qed.

Lemma PrefixRegistryToImageName_cases (r img : string) :
  PrefixRegistryToImageName r img = img
  ∨ PrefixRegistryToImageName r img = r +:+ "/" +:+ img.
Proof.
  unfold PrefixRegistryToImageName.
  destruct (String.eqb r ""); [by left|].
  destruct (negb (HasPrefix img r) && negb (HasPrefix img "library/")); auto.
Qed.

(** C8.  [PrefixRegistryToImageName r] is idempotent, and it returns
    [img] unchanged when [img] starts with [r/] or with [library/]. *)
Theorem PrefixRegistryToImageName_idempotent_noop (r img : string) :
  PrefixRegistryToImageName r (PrefixRegistryToImageName r img)
    = PrefixRegistryToImageName r img
  ∧ (HasPrefix img (r +:+ "/") = true ∨ HasPrefix img "library/" = true →
     PrefixRegistryToImageName r img = img).
Proof.
  split.
  - destruct (PrefixRegistryToImageName_cases r img) as [H|H]; rewrite !H.
    + reflexivity.
    + apply PrefixRegistryToImageName_has_prefix, prefix_app.
  - intros [H|H].
    + by apply PrefixRegistryToImageName_has_prefix, HasPrefix_registry_slash.
    + by apply PrefixRegistryToImageName_library.
Qed.

Lemma PrefixRegistryToImageName_idempotent_noop_witness :
  PrefixRegistryToImageName "reg" (PrefixRegistryToImageName "reg" "app")
    = PrefixRegistryToImageName "reg" "app"
  ∧ PrefixRegistryToImageName "reg" "reg/app" = "reg/app".
Proof.
  split.
  - apply (PrefixRegistryToImageName_idempotent_noop "reg" "app").
  - apply (PrefixRegistryToImageName_idempotent_noop "reg" "reg/app").
    left. reflexivity.
Defined.

(** C10.  [PrefixRegistryToImageName r img] returns [img] unchanged
    whenever [r] is a plain string prefix of [img], no ['/'] needed: with
    registry [reg] the image [registry.io/app] is left as it is. *)
Theorem PrefixRegistryToImageName_plain_prefix :
  (∀ r img : string, HasPrefix img r = true → PrefixRegistryToImageName r img = img)
  ∧ HasPrefix "registry.io/app" "reg/" = false
  ∧ PrefixRegistryToImageName "reg" "registry.io/app" = "registry.io/app".
Proof.
  split; [|split; reflexivity].
  intros r img. apply PrefixRegistryToImageName_has_prefix.
Qed.

Lemma PrefixRegistryToImageName_plain_prefix_witness :
  HasPrefix "registry.io/app" "registry" = true
  ∧ PrefixRegistryToImageName "registry" "registry.io/app" = "registry.io/app".
Proof.
  split; [reflexivity|].
  apply (proj1 PrefixRegistryToImageName_plain_prefix). reflexivity.
Defined.

(** *** [PrefixTags] *)

(** The claim's reading of [PrefixTags], following its words: a field of
    the command that comes right after a [-t] or [--tag] field is replaced
    by [<registry>/<field>] unless it starts with [<registry>/] or with
    [library/]; the fields so treated are the tags. *)
Definition prefix_unless_slash (registry tag : string) : string :=
  if HasPrefix tag (registry +:+ "/") || HasPrefix tag "library/" then tag
  else registry +:+ "/" +:+ tag.

Fixpoint claimed_fields (registry prev : string) (rest : list string)
  : list string * list string :=
  match rest with
  | [] => ([], [])
  | cur :: rest' =>
    let '(out, tags) := claimed_fields registry cur rest' in
    if is_tag_flag prev
    then (prefix_unless_slash registry cur :: out, prefix_unless_slash registry cur :: tags)
    else (cur :: out, tags)
  end.

Definition PrefixTags_claimed (cmd registry : string) : string * list string :=
  match Fields cmd with
  | [] => ("", [])
  | f0 :: rest =>
    let '(out, tags) := claimed_fields registry f0 rest in (Join (f0 :: out) " ", tags)
  end.

(** [flagged_at out i]: field [i] of [out] is [-t] or [--tag]. *)
Definition flagged_at (out : list string) (i : nat) : bool :=
  from_option is_tag_flag false (out !! i).

(** The fields of [out] that come right after a flag, in order. *)
Definition tags_upto (out : list string) (k : nat) : list string :=
  omap (λ i, if flagged_at out i then out !! S i else None) (seq 0 k).

Definition tags_in_order (out : list string) : list string :=
  tags_upto out (length out - 1).

Lemma tags_upto_S out k :
  tags_upto out (S k)
  = tags_upto out k ++ (if flagged_at out k then option_list (out !! S k) else []).
Proof.
  unfold tags_upto. rewrite seq_S, omap_app. simpl.
  destruct (flagged_at out k); [by destruct (out !! S k)|done].
Qed.

Lemma tags_upto_insert out (k j : nat) x :
  (k < j)%nat → tags_upto (<[j := x]> out) k = tags_upto out k.
Proof.
  intros Hlt. induction k as [|k IH]; [done|].
  rewrite !tags_upto_S, IH by lia.
  unfold flagged_at. rewrite !list_lookup_insert_ne by lia. done.
Qed.

(** The state of the loop of [PrefixTags] after the iterations
    [i = 1 .. k]. *)
Record loop_inv (registry : string) (fs : list string) (k : nat)
    (st : list string * list string) : Prop := {
  inv_length : length st.1 = length fs;
  inv_rest : ∀ j : nat, (k < j)%nat → st.1 !! j = fs !! j;
  inv_head : st.1 !! 0 = fs !! 0;
  inv_done : ∀ (i : nat) x, (S i ≤ k)%nat → fs !! S i = Some x →
    st.1 !! S i = Some (if flagged_at st.1 i then PrefixRegistryToImageName registry x else x);
  inv_tags : st.2 = tags_upto st.1 k
}.

Lemma PrefixTags_iter_inv registry fs (k : nat) st :
  (S k < length fs)%nat → loop_inv registry fs k st →
  loop_inv registry fs (S k) (PrefixTags_iter registry st (S k)).
Proof.
  intros Hk [Hlen Hrest Hhead Hdone Htags]. destruct st as [fields tags]. simpl in *.
  unfold PrefixTags_iter. replace (S k - 0) with (S k) by lia. simpl. rewrite Nat.sub_0_r.
  destruct (lookup_lt_is_Some_2 fields k) as [prev Hprev]; [lia|].
  destruct (lookup_lt_is_Some_2 fields (S k)) as [cur Hcur]; [lia|].
  rewrite Hprev, Hcur.
  assert (Hcur' : fs !! S k = Some cur) by (by rewrite <- Hrest by lia).
  assert (Hflag : flagged_at fields k = is_tag_flag prev)
    by (unfold flagged_at; by rewrite Hprev).
  destruct (is_tag_flag prev) eqn:Hp.
  - split; simpl.
    + by rewrite length_insert.
    + intros j Hj. rewrite list_lookup_insert_ne by lia. apply Hrest. lia.
    + by rewrite list_lookup_insert_ne by lia.
    + intros i x Hi Hx. unfold flagged_at.
      rewrite (list_lookup_insert_ne _ (S k) i) by lia.
      destruct (decide (i = k)) as [->|Hne].
      * rewrite list_lookup_insert_eq by lia. rewrite Hprev. simpl. rewrite Hp.
        congruence.
      * rewrite list_lookup_insert_ne by lia. apply Hdone; [lia|done].
    + rewrite tags_upto_S, tags_upto_insert by lia.
      unfold flagged_at. rewrite list_lookup_insert_ne by lia.
      rewrite Hprev. simpl. rewrite Hp.
      rewrite list_lookup_insert_eq by lia. simpl. by rewrite Htags.
  - split; simpl; try done.
    + intros j Hj. apply Hrest. lia.
    + intros i x Hi Hx.
      destruct (decide (i = k)) as [->|Hne].
      * rewrite Hflag. congruence.
      * apply Hdone; [lia|done].
    + rewrite tags_upto_S, Hflag, app_nil_r. done.
Qed.

Lemma PrefixTags_loop_inv registry fs (m : nat) :
  (m ≤ length fs - 1)%nat →
  loop_inv registry fs m (foldl (PrefixTags_iter registry) (fs, []) (seq 1 m)).
Proof.
  induction m as [|m IH]; intros Hm.
  - split; simpl; try done. intros; lia.
  - rewrite seq_S, foldl_app. simpl.
    apply PrefixTags_iter_inv; [lia|]. apply IH. lia.
Qed.

(** C7, as the code has it.  [PrefixTags] replaces every field whose
    preceding field (as it stands after its own replacement, if any) is
    [-t] or [--tag] by [PrefixRegistryToImageName registry field], leaves
    the other fields alone, joins the fields with single spaces, and
    returns the replaced fields in order of appearance. *)
Theorem PrefixTags_fields (cmd registry : string) :
  ∃ out : list string,
    PrefixTags cmd registry = (Join out " ", tags_in_order out)
    ∧ length out = length (Fields cmd)
    ∧ out !! 0 = Fields cmd !! 0
    ∧ ∀ (i : nat) x, Fields cmd !! S i = Some x →
        out !! S i
        = Some (if flagged_at out i then PrefixRegistryToImageName registry x else x).
Proof.
  pose proof (PrefixTags_loop_inv registry (Fields cmd) (length (Fields cmd) - 1)
                ltac:(lia)) as [Hlen Hrest Hhead Hdone Htags].
  unfold PrefixTags, PrefixTags_loop.
  destruct (foldl _ _ _) as [out tags]. simpl in *. exists out.
  split; [|split; [done|split; [done|]]].
  - unfold tags_in_order. by rewrite Htags, Hlen.
  - intros i x Hx. apply Hdone; [|done].
    apply lookup_lt_Some in Hx. lia.
Qed.

Lemma PrefixTags_fields_witness :
  ∃ out : list string,
    PrefixTags "build -t app ." "reg" = (Join out " ", tags_in_order out)
    ∧ out !! 2%nat = Some "reg/app".
Proof.
  destruct (PrefixTags_fields "build -t app ." "reg") as (out & Heq & _ & H0 & Hi).
  exists out. split; [exact Heq|].
  pose proof (Hi 0%nat "-t" eq_refl) as H1.
  unfold flagged_at in H1. rewrite H0 in H1. simpl in H1.
  pose proof (Hi 1%nat "app" eq_refl) as H2.
  unfold flagged_at in H2. rewrite H1 in H2. exact H2.
Defined.

(** C7 fails as stated: with registry [reg], the tag [registry.io/app]
    starts neither with [reg/] nor with [library/], and is not replaced. *)
Lemma PrefixTags_plain_prefix_counterexample :
  Fields "build -t registry.io/app ." = ["build"; "-t"; "registry.io/app"; "."]
  ∧ HasPrefix "registry.io/app" "reg/" = false
  ∧ HasPrefix "registry.io/app" "library/" = false
  ∧ PrefixTags "build -t registry.io/app ." "reg"
    = ("build -t registry.io/app .", ["registry.io/app"])
  ∧ PrefixTags_claimed "build -t registry.io/app ." "reg"
    = ("build -t reg/registry.io/app .", ["reg/registry.io/app"])
  ∧ PrefixTags "build -t registry.io/app ." "reg"
    ≠ PrefixTags_claimed "build -t registry.io/app ." "reg".
Proof. repeat split; try reflexivity. by vm_compute. Qed.

End util_props.

(** * More on package [util] *)

Module util_more.
Import util util_props.
Local Open Scope list_scope.

Lemma PrefixRegistryToImageName_again (r img : string) :
  PrefixRegistryToImageName r (PrefixRegistryToImageName r img)
  = PrefixRegistryToImageName r img.
Proof.
  destruct (PrefixRegistryToImageName_cases r img) as [H|H]; rewrite !H.
  - reflexivity.
  - apply PrefixRegistryToImageName_has_prefix, prefix_app.
Qed.

Lemma PrefixRegistryToImageName_prefixed (r img : string) :
  r ≠ "" →
  HasPrefix (PrefixRegistryToImageName r img) r = true
  ∨ HasPrefix (PrefixRegistryToImageName r img) "library/" = true.
Proof.
  intros Hr. unfold PrefixRegistryToImageName.
  destruct (String.eqb r "") eqn:He; [by apply String.eqb_eq in He|].
  destruct (HasPrefix img r) eqn:H1; simpl; [by left|].
  destruct (HasPrefix img "library/") eqn:H2; simpl; [by right|].
  left. apply prefix_app.
Qed.

(** X1.  With a registry that is not empty, what
    [PrefixRegistryToImageName] returns starts with the registry or with
    [library/]; with the empty registry, it returns the image as it is. *)
Theorem PrefixRegistryToImageName_qualified (r img : string) :
  PrefixRegistryToImageName "" img = img
  ∧ (r ≠ "" →
     HasPrefix (PrefixRegistryToImageName r img) r = true
     ∨ HasPrefix (PrefixRegistryToImageName r img) "library/" = true).
Proof. split; [reflexivity | apply PrefixRegistryToImageName_prefixed]. Qed.

Lemma PrefixRegistryToImageName_qualified_witness :
  HasPrefix (PrefixRegistryToImageName "reg" "app") "reg" = true
  ∨ HasPrefix (PrefixRegistryToImageName "reg" "app") "library/" = true.
Proof. apply (PrefixRegistryToImageName_qualified "reg" "app"). discriminate. Defined.

(** The loop of [PrefixTags] on fields [out] that it has produced. *)
Lemma loop_inv_fixed registry fs out tags out' tags' :
  loop_inv registry fs (length fs - 1) (out, tags) →
  loop_inv registry out (length out - 1) (out', tags') →
  out' = out ∧ tags' = tags.
Proof.
  intros [Hlen _ Hhead Hdone Htags] [Hlen' _ Hhead' Hdone' Htags']. simpl in *.
  assert (Heq : ∀ i : nat, out' !! i = out !! i).
  { intros i. induction i as [|i IH]; [done|].
    destruct (out !! S i) as [y|] eqn:Hy.
    - pose proof (lookup_lt_Some _ _ _ Hy) as Hlt.
      rewrite (Hdone' i y ltac:(lia) Hy).
      unfold flagged_at at 1. rewrite IH. fold (flagged_at out i).
      destruct (flagged_at out i) eqn:Hf; [|done].
      destruct (fs !! S i) as [x|] eqn:Hx.
      + pose proof (lookup_lt_Some _ _ _ Hx) as Hltx.
        rewrite (Hdone i x ltac:(lia) Hx) in Hy.
        rewrite Hf in Hy. injection Hy as <-.
        by rewrite PrefixRegistryToImageName_again.
      + apply lookup_ge_None in Hx. apply lookup_lt_Some in Hy. lia.
    - apply lookup_ge_None in Hy. apply lookup_ge_None. lia. }
  assert (out' = out) as -> by (by apply list_eq).
  split; [done|]. by rewrite Htags', Htags, Hlen.
Qed.

(** X2.  The loop of [PrefixTags] is idempotent: on the fields it has
    produced it changes nothing, and returns the same tags. *)
Theorem PrefixTags_loop_idempotent (registry : string) (fields : list string) :
  PrefixTags_loop registry (PrefixTags_loop registry fields).1
  = PrefixTags_loop registry fields.
Proof.
  pose proof (PrefixTags_loop_inv registry fields (length fields - 1) ltac:(lia)) as H1.
  fold (PrefixTags_loop registry fields) in H1.
  destruct (PrefixTags_loop registry fields) as [out tags] eqn:Hout. simpl.
  pose proof (PrefixTags_loop_inv registry out (length out - 1) ltac:(lia)) as H2.
  fold (PrefixTags_loop registry out) in H2.
  destruct (PrefixTags_loop registry out) as [out' tags'].
  destruct (loop_inv_fixed _ _ _ _ _ _ H1 H2) as [-> ->]. done.
Qed.

Lemma loop_inv_empty_registry fs out tags :
  loop_inv "" fs (length fs - 1) (out, tags) → out = fs.
Proof.
  intros [Hlen _ Hhead Hdone _]. simpl in *. apply list_eq. intros i.
  destruct i as [|i]; [done|].
  destruct (fs !! S i) as [x|] eqn:Hx.
  - pose proof (lookup_lt_Some _ _ _ Hx) as Hltx.
    rewrite (Hdone i x ltac:(lia) Hx).
    by destruct (flagged_at out i).
  - apply lookup_ge_None in Hx. apply lookup_ge_None. lia.
Qed.

(** X3.  With the empty registry, [PrefixTags] leaves every field as it
    is: the command it returns is the fields of [cmd] joined by single
    spaces, and the tags are the fields that follow a [-t] or [--tag]. *)
Theorem PrefixTags_empty_registry (cmd : string) :
  PrefixTags cmd "" = (Join (Fields cmd) " ", tags_in_order (Fields cmd)).
Proof.
  pose proof (PrefixTags_loop_inv "" (Fields cmd) (length (Fields cmd) - 1) ltac:(lia)) as H1.
  unfold PrefixTags. fold (PrefixTags_loop "" (Fields cmd)) in H1.
  destruct (PrefixTags_loop "" (Fields cmd)) as [out tags].
  pose proof (loop_inv_empty_registry _ _ _ H1) as ->.
  destruct H1 as [_ _ _ _ Htags]. simpl in Htags. by rewrite Htags.
Qed.

(** X4.  With a registry that is not empty, every tag [PrefixTags]
    returns starts with the registry or with [library/]. *)
Theorem PrefixTags_tags_qualified (cmd registry tag : string) :
  registry ≠ "" → tag ∈ (PrefixTags cmd registry).2 →
  HasPrefix tag registry = true ∨ HasPrefix tag "library/" = true.
Proof.
  intros Hr.
  pose proof (PrefixTags_loop_inv registry (Fields cmd) (length (Fields cmd) - 1)
                ltac:(lia)) as H1.
  unfold PrefixTags. fold (PrefixTags_loop registry (Fields cmd)) in H1.
  destruct (PrefixTags_loop registry (Fields cmd)) as [out tags].
  destruct H1 as [Hlen _ _ Hdone Htags]. simpl in *. rewrite Htags.
  unfold tags_upto. rewrite list_elem_of_omap. intros (i & Hi & Hflag).
  apply elem_of_seq in Hi.
  destruct (flagged_at out i) eqn:Hf; [|done].
  destruct (Fields cmd !! S i) as [x|] eqn:Hx.
  - rewrite (Hdone i x ltac:(lia) Hx) in Hflag. rewrite Hf in Hflag.
    injection Hflag as <-. by apply PrefixRegistryToImageName_prefixed.
  - apply lookup_ge_None in Hx. apply lookup_lt_Some in Hflag. lia.
Qed.

Lemma PrefixTags_tags_qualified_witness :
  HasPrefix "reg/app" "reg" = true ∨ HasPrefix "reg/app" "library/" = true.
Proof.
  apply (PrefixTags_tags_qualified "build -t app ." "reg" "reg/app").
  - discriminate.
  - vm_compute. left.
Defined.

End util_more.

(** * More on package [builder] *)

Module builder_more.
Import graph builder traces builder_props.
Local Open Scope list_scope.

#[local] Arguments runStep : simpl never.
#[local] Arguments runStep_kind : simpl never.
#[local] Arguments runStep_run : simpl never.
#[local] Arguments processVertex : simpl never.
#[local] Arguments RunTask : simpl never.
#[local] Arguments initBuildkitContainer : simpl never.
#[local] Arguments barrier : simpl never.
#[local] Arguments populateDigests : simpl never.

(** Inverts the first operation of a run that goes to the end. *)
Ltac next_op H :=
  let r := fresh "r" in
  let tr := fresh "tr" in
  let Hok := fresh "Hok" in
  apply runs_to_Op in H as [[_ H]|(r & tr & -> & Hok & H)];
  [discriminate H|]; destruct r; try discriminate Hok; clear Hok; cbn in H.

(** A run that is at its end. *)
Ltac at_end H :=
  let Heq := fresh "Heq" in
  apply runs_to_Ret in H as [-> Heq]; injection Heq as Heq; subst.

(** ** [parseImageNameFromArgs] *)

(** X5.  [parseImageNameFromArgs] returns the part of [cmdArgs] before its
    first space: the result has no space, and it is [cmdArgs] itself or is
    followed by a space in [cmdArgs]. *)
Theorem parseImageNameFromArgs_first_field (cmdArgs : string) :
  (∀ c, c ∈ list_ascii_of_string (parseImageNameFromArgs cmdArgs) → c ≠ " "%char)
  ∧ (parseImageNameFromArgs cmdArgs = cmdArgs
     ∨ ∃ rest, cmdArgs = parseImageNameFromArgs cmdArgs +:+ " " +:+ rest).
Proof.
  induction cmdArgs as [|a s [IHc IHs]]; simpl.
  - split; [|by left]. intros c Hin. by apply elem_of_nil in Hin.
  - destruct (Ascii.eqb a " ") eqn:Ha.
    + apply Ascii.eqb_eq in Ha as ->. split.
      * intros c Hin. by apply elem_of_nil in Hin.
      * right. by exists s.
    + apply Ascii.eqb_neq in Ha. split.
      * intros c. simpl. rewrite elem_of_cons. intros [->|Hin]; [exact Ha|exact (IHc c Hin)].
      * destruct IHs as [Heq|(rest & Heq)].
        -- left. by f_equal.
        -- right. exists rest.
           change (String a s = String a (parseImageNameFromArgs s +:+ " " +:+ rest)).
           by rewrite <- Heq.
Qed.

(** ** [getPopulateDigests] *)

(** The digests [getPopulateDigests] asks for, for one entry: that of the
    image in the store of the engine; those of the base images there too,
    or remotely when the image was built with buildkit. *)
Definition digest_calls (c : context) (usingBuildkit : bool)
    (registryCreds : list LoginCredential) (entry : Dependencies) : list call :=
  let base := if usingBuildkit then remoteDigester registryCreds else dockerStoreDigester in
  PopulateDigest dockerStoreDigester c (Image entry)
  :: PopulateDigest base c (Runtime entry)
  :: (PopulateDigest base c <$> Buildtime entry).

Definition replied_nil (cs : list call) : list event := (λ cl, (OCall cl, RErr None)) <$> cs.

(** The runs of a sequence of calls that stops at the first error, and
    returns it. *)
Inductive stops_at_first_error (cs : list call) : list event → error → Prop :=
| all_nil : stops_at_first_error cs (replied_nil cs) None
| first_error pre cl post e :
    cs = pre ++ cl :: post →
    stops_at_first_error cs (replied_nil pre ++ [(OCall cl, RErr (Some e))]) (Some e).

Lemma stops_cons cl cs h res :
  stops_at_first_error cs h res →
  stops_at_first_error (cl :: cs) ((OCall cl, RErr None) :: h) res.
Proof.
  intros [|pre cl' post e ->].
  - apply (all_nil (cl :: cs)).
  - by apply (first_error (cl :: pre ++ cl' :: post) (cl :: pre) cl' post e).
Qed.

Lemma stops_app cs1 cs2 h res :
  stops_at_first_error cs2 h res →
  stops_at_first_error (cs1 ++ cs2) (replied_nil cs1 ++ h) res.
Proof. intros Hs. induction cs1 as [|cl cs1 IH]; simpl; [done|]. by apply stops_cons. Qed.

Lemma stops_app_error cs1 cs2 h e :
  stops_at_first_error cs1 h (Some e) → stops_at_first_error (cs1 ++ cs2) h (Some e).
Proof.
  inversion 1 as [|pre cl post e' Hcs]; subst.
  apply (first_error _ pre cl (post ++ cs2) e). by rewrite <- app_assoc.
Qed.

Lemma stops_nil_inv cs h : stops_at_first_error cs h None → h = replied_nil cs.
Proof. by inversion 1. Qed.

Lemma PopulateDigest_runs d c refs h res :
  runs (for_each_err refs (λ ref, call_err (PopulateDigest d c ref))) h res →
  stops_at_first_error (PopulateDigest d c <$> refs) h res.
Proof.
  revert h. induction refs as [|ref refs IH]; intros h Hrun; unfold runs in Hrun;
    cbn in Hrun.
  - at_end Hrun. apply (all_nil []).
  - next_op Hrun. destruct e as [e|]; cbn in Hrun.
    + at_end Hrun. eapply (first_error _ [] _ _ e). reflexivity.
    + apply stops_cons. by apply IH.
Qed.

(** X6.  [getPopulateDigests] asks for the digests of the entries in
    order: for each entry that of its image, always in the store of the
    engine, then that of its runtime image and those of its buildtime
    images, remotely when [usingBuildkit] and in the store otherwise.  It
    returns nil when all the calls have replied nil; it stops at the first
    call that replies with an error and returns that error as it is. *)
Theorem getPopulateDigests_runs c dependencies usingBuildkit registryCreds h res :
  runs (getPopulateDigests c dependencies usingBuildkit registryCreds) h res →
  stops_at_first_error
    (concat (digest_calls c usingBuildkit registryCreds <$> dependencies)) h res.
Proof.
  unfold getPopulateDigests. revert h.
  induction dependencies as [|entry deps IH]; intros h Hrun; unfold runs in Hrun;
    cbn in Hrun.
  - at_end Hrun. apply (all_nil []).
  - cbn [fmap list_fmap concat digest_calls]. cbv zeta.
    next_op Hrun. destruct e as [e|]; cbn in Hrun.
    { at_end Hrun. eapply (first_error _ [] _ _ e). reflexivity. }
    apply stops_cons.
    next_op Hrun. destruct e as [e|]; cbn in Hrun.
    { at_end Hrun. eapply (first_error _ [] _ _ e). reflexivity. }
    apply stops_cons.
    apply runs_bind in Hrun as (t1 & t2 & a & -> & H1 & H2).
    apply PopulateDigest_runs in H1.
    destruct a as [e|].
    + unfold runs in H2. at_end H2. rewrite app_nil_r. by apply stops_app_error.
    + apply stops_nil_inv in H1 as ->. apply stops_app. by apply IH.
Qed.

(** ** [runStep] *)

Section runStep.
Context `{Collaborators} (b : Builder).

(** The explicit pull of a cmd step. *)
Definition pull_of (c : context) (step : Step) : call :=
  RunWithRetries c
    ["docker"; "run"; "--rm"; "--volume"; DockerSocketVolumeMapping;
     "docker"; "pull"; parseImageNameFromArgs (Cmd step)]
    Nil Stdout Stdout "" (CmdDownloadRetries step) []
    (CmdDownloadRetryDelayInSeconds step) "".

(** The command of a cmd or build step. *)
Definition run_of (c : context) (step : Step) (args : list string) : call :=
  RunRepeatWithRetries (WithTimeout c (Timeout step)) args Nil Stdout Stderr ""
    (Retries step) (RetryOnErrors step) (RetryDelayInSeconds step) (ID step) (Repeat step).

Definition is_write (o : op) : Prop :=
  match o with OWrite _ _ => True | _ => False end.

Definition is_call (o : op) : Prop :=
  match o with OCall _ => True | _ => False end.

(** An assignment of the status or of a time. *)
Definition status_or_time (w : write) : bool :=
  match w with
  | WStepStatus _ | WStartTime _ | WEndTime _ => true
  | _ => false
  end.

(** The part of [runStep] before the assignment of [InProgress]. *)
Lemma runStep_pull_runs c step h res :
  runs (if IsCmdStep step && Pull step
        then log "Step specified pull. Performing an explicit pull...\n";;
             pullImageBeforeRun b c (Cmd step) (CmdDownloadRetries step)
               (CmdDownloadRetryDelayInSeconds step)
        else Ret None) h res →
  Forall (λ ev, ¬ is_write ev.1 ∧ ¬ is_RunRepeatWithRetries ev.1) h
  ∧ (res = None
     ∨ IsCmdStep step && Pull step = true
       ∧ ∃ h', h = h' ++ [(OCall (pull_of c step), RErr res)]).
Proof.
  intros Hrun. split.
  - eapply (all_ops_runs_to (λ o, ¬ is_write o ∧ ¬ is_RunRepeatWithRetries o));
      [|exact Hrun].
    unfold pullImageBeforeRun. walk_ops; simpl; by auto.
  - destruct (IsCmdStep step && Pull step); [|left; unfold runs in Hrun; by at_end Hrun].
    right. split; [done|]. unfold pullImageBeforeRun, runs in *. cbn in Hrun.
    next_op Hrun. destruct (debug b); cbn in Hrun.
    + next_op Hrun. next_op Hrun. at_end Hrun. by eexists [_; _].
    + next_op Hrun. at_end Hrun. by eexists [_].
Qed.

Lemma runStep_run_runs c step args h res :
  runs (runStep_run b c step args) h res →
  ∃ h', h = h' ++ [(OCall (run_of c step args), RErr res)]
        ∧ Forall (λ ev, ¬ is_write ev.1) h'.
Proof.
  unfold runStep_run. cbv zeta. intros Hrun.
  apply runs_bind in Hrun as (t1 & t2 & [] & -> & H1 & Hrun).
  apply runs_bind in Hrun as (t3 & t4 & [] & -> & H2 & Hrun).
  unfold runs in Hrun. cbn in Hrun. next_op Hrun. at_end Hrun.
  exists (t1 ++ t3). split; [by rewrite <- app_assoc|].
  apply Forall_app. split.
  - eapply (all_ops_runs_to (λ o, ¬ is_write o)); [|exact H1]. walk_ops; simpl; by auto.
  - eapply (all_ops_runs_to (λ o, ¬ is_write o)); [|exact H2].
    unfold preRunWindowsContainer. walk_ops; simpl; by auto.
Qed.

(** What decides the result of [runStep]: the reply of the pull, of the
    push or of the command is returned as it is; a failure of the scan for
    dependencies is returned wrapped. *)
Definition decides (cl : call) (r : reply) (res : error) : Prop :=
  match cl with
  | RunWithRetries _ _ _ _ _ _ _ _ _ _
  | pushWithRetries _ _
  | RunRepeatWithRetries _ _ _ _ _ _ _ _ _ _ _ => r = RErr res
  | scrapeDependencies _ _ _ _ _ _ _ _ _ _ =>
    ∃ deps e, r = RDeps deps (Some e) ∧ res = Some (Wrap e "failed to scan dependencies")
  | _ => False
  end.

Definition ends_with_call (h : list event) (res : error) : Prop :=
  ∃ h' cl r, h = h' ++ [(OCall cl, r)] ∧ decides cl r res.

Lemma ends_with_call_app h1 h2 res : ends_with_call h2 res → ends_with_call (h1 ++ h2) res.
Proof.
  intros (h' & cl & r & -> & Hd). exists (h1 ++ h'), cl, r. by rewrite <- app_assoc.
Qed.

Lemma ends_with_call_cons ev h res : ends_with_call h res → ends_with_call (ev :: h) res.
Proof. apply (ends_with_call_app [ev]). Qed.

Lemma runStep_run_ends c step args h res :
  runs (runStep_run b c step args) h res → ends_with_call h res.
Proof.
  intros Hrun. apply runStep_run_runs in Hrun as (h' & -> & _).
  eexists h', _, _. split; [reflexivity|]. done.
Qed.

Lemma runStep_kind_ends c step credentials h res :
  runs (runStep_kind b c step credentials) h res → ends_with_call h res.
Proof.
  unfold runStep_kind. intros Hrun.
  destruct (IsBuildStep step); [|destruct (IsPushStep step)].
  - destruct (parseDockerBuildCmd (Build step)) as [[dockerfile target] dockerContext].
    cbv zeta in Hrun.
    apply runs_bind in Hrun as (t1 & t2 & [] & -> & _ & Hrun).
    apply ends_with_call_app.
    unfold runs in Hrun. cbn in Hrun.
    next_op Hrun. apply ends_with_call_cons.
    next_op Hrun. destruct e as [e|]; cbn in Hrun.
    { at_end Hrun. eexists [], _, _. split; [done|]. simpl. eauto. }
    apply ends_with_call_cons.
    next_op Hrun. apply ends_with_call_cons.
    next_op Hrun. apply ends_with_call_cons.
    destruct (IsLocalContext dockerContext); cbn in Hrun.
    + next_op Hrun. apply ends_with_call_cons. by apply runStep_run_ends in Hrun.
    + next_op Hrun. apply ends_with_call_cons.
      next_op Hrun. apply ends_with_call_cons. by apply runStep_run_ends in Hrun.
  - cbv zeta in Hrun. unfold runs in Hrun. cbn in Hrun. next_op Hrun. at_end Hrun.
    eexists [], _, _. split; [reflexivity|]. done.
  - by apply runStep_run_ends in Hrun.
Qed.


Lemma runStep_kind_writes c step credentials :
  all_ops (λ o, ∀ id w, o = OWrite id w → status_or_time w = false)
    (runStep_kind b c step credentials).
Proof.
  unfold runStep_kind, runStep_run, preRunWindowsContainer, validateDockerContext.
  walk_ops; simpl; intros; by simplify_eq.
Qed.

(** The runs of [runStep]. *)
Lemma runStep_runs c step credentials h res :
  runs (runStep b c step credentials) h res →
  (∃ e h', res = Some e ∧ IsCmdStep step && Pull step = true
     ∧ h = h' ++ [(OCall (pull_of c step), RErr (Some e))]
     ∧ Forall (λ ev, ¬ is_write ev.1 ∧ ¬ is_RunRepeatWithRetries ev.1) h')
  ∨ (∃ h1 t0 h2 t1,
       h = h1 ++ [(OWrite (ID step) (WStepStatus InProgress), RUnit); (ONow, RInt t0);
                  (OWrite (ID step) (WStartTime t0), RUnit)]
              ++ h2 ++ [(ONow, RInt t1); (OWrite (ID step) (WEndTime t1), RUnit)]
       ∧ Forall (λ ev, ¬ is_write ev.1 ∧ ¬ is_RunRepeatWithRetries ev.1) h1
       ∧ runs (runStep_kind b c
                 (apply_write (WStartTime t0) (apply_write (WStepStatus InProgress) step))
                 credentials) h2 res).
Proof.
  unfold runStep. intros Hrun.
  apply runs_bind in Hrun as (t1 & t2 & [] & -> & H1 & Hrun).
  apply runs_bind in Hrun as (t3 & t4 & [] & -> & H2 & Hrun).
  unfold or_return in Hrun.
  apply runs_bind in Hrun as (t5 & t6 & e & -> & H3 & Hrun).
  assert (Ht1 : Forall (λ ev, ¬ is_write ev.1 ∧ ¬ is_RunRepeatWithRetries ev.1) t1).
  { eapply (all_ops_runs_to (λ o, ¬ is_write o ∧ ¬ is_RunRepeatWithRetries o));
      [|exact H1].
    walk_ops; simpl; by auto. }
  assert (Ht3 : Forall (λ ev, ¬ is_write ev.1 ∧ ¬ is_RunRepeatWithRetries ev.1) t3).
  { eapply (all_ops_runs_to (λ o, ¬ is_write o ∧ ¬ is_RunRepeatWithRetries o));
      [|exact H2].
    walk_ops; simpl; by auto. }
  apply runStep_pull_runs in H3 as [Ht5 Hpull].
  destruct e as [e|].
  - unfold runs in Hrun. at_end Hrun. left.
    destruct Hpull as [|[Hc (h' & ->)]]; [done|].
    exists e, (t1 ++ t3 ++ h'). split; [done|]. split; [done|].
    split; [by rewrite app_nil_r, <- !app_assoc|].
    apply Forall_app in Ht5 as [Ht5 _].
    rewrite !Forall_app. by repeat split.
  - right. unfold runs in Hrun. cbn in Hrun.
    next_op Hrun. next_op Hrun. next_op Hrun.
    apply runs_bind in Hrun as (h2 & t8 & r & -> & Hkind & Hrun).
    unfold runs in Hrun. cbn in Hrun. next_op Hrun. next_op Hrun. at_end Hrun.
    exists (t1 ++ t3 ++ t5), z, h2, z0. split; [by rewrite <- !app_assoc|].
    split; [|done].
    rewrite !Forall_app. by repeat split.
Qed.

(** X7.  [runStep] either returns the error of the explicit pull, and has
    then assigned nothing to the step; or it assigns [InProgress], then
    the time it reads to [StartTime], and, whatever it returns, the time it
    reads at the end to [EndTime], as its last operation; in between it
    assigns neither a status nor a time. *)
Theorem runStep_times c step credentials h res :
  runs (runStep b c step credentials) h res →
  (∃ e h', res = Some e ∧ IsCmdStep step && Pull step = true
     ∧ h = h' ++ [(OCall (pull_of c step), RErr (Some e))]
     ∧ Forall (λ ev, ¬ is_write ev.1) h)
  ∨ (∃ h1 t0 h2 t1,
       h = h1 ++ [(OWrite (ID step) (WStepStatus InProgress), RUnit); (ONow, RInt t0);
                  (OWrite (ID step) (WStartTime t0), RUnit)]
              ++ h2 ++ [(ONow, RInt t1); (OWrite (ID step) (WEndTime t1), RUnit)]
       ∧ Forall (λ ev, ¬ is_write ev.1) h1
       ∧ Forall (λ ev, ∀ id w r, ev = (OWrite id w, r) → status_or_time w = false) h2).
Proof.
  intros Hrun.
  apply runStep_runs in Hrun
    as [(e & h' & -> & Hc & -> & Hh')|(h1 & t0 & h2 & t1 & -> & Hh1 & Hkind)].
  - left. exists e, h'. split; [done|]. split; [done|]. split; [done|].
    apply Forall_app. split.
    + eapply Forall_impl; [exact Hh'|]. by intros ? [? ?].
    + constructor; [simpl; by auto|constructor].
  - right. exists h1, t0, h2, t1. split; [done|].
    split; [eapply Forall_impl; [exact Hh1|]; by intros ? [? ?]|].
    apply (all_ops_runs_to _ _ _ _ (runStep_kind_writes _ _ _)) in Hkind as [Hall _].
    eapply Forall_impl; [exact Hall|]. intros [o r] Ho id w r' [= -> ->]. by apply (Ho id).
Qed.

(** X8.  The result of [runStep] is decided by its last call: it is the
    reply of the explicit pull, of the push or of the command of the step,
    as it is, or the error of the scan for dependencies, wrapped.  The
    pre-run of a Windows container never decides it. *)
Theorem runStep_result c step credentials h res :
  runs (runStep b c step credentials) h res →
  ∃ h1 cl r h2,
    h = h1 ++ (OCall cl, r) :: h2 ∧ decides cl r res ∧ Forall (λ ev, ¬ is_call ev.1) h2.
Proof.
  intros Hrun.
  apply runStep_runs in Hrun
    as [(e & h' & -> & Hc & -> & Hh')|(h1 & t0 & h2 & t1 & -> & Hh1 & Hkind)].
  - exists h', (pull_of c step), (RErr (Some e)), []. split; [done|]. split; [done|constructor].
  - apply runStep_kind_ends in Hkind as (h' & cl & r & -> & Hd).
    exists (h1 ++ [(OWrite (ID step) (WStepStatus InProgress), RUnit); (ONow, RInt t0);
                   (OWrite (ID step) (WStartTime t0), RUnit)] ++ h'), cl, r,
           [(ONow, RInt t1); (OWrite (ID step) (WEndTime t1), RUnit)].
    split; [|split; [exact Hd|]].
    + rewrite <- !app_assoc. reflexivity.
    + constructor; [simpl; by auto|]. constructor; [simpl; by auto|]. constructor.
Qed.

(** The scan for the dependencies of a build step. *)
Definition scan_of (c : context) (s : Step) (credentials : list string) : call :=
  let '(dockerfile, target, dockerContext) := parseDockerBuildCmd (Build s) in
  scrapeDependencies (WithTimeout c scrapeTimeoutInSec) (workspaceDir b)
    (WorkingDirectory s) (ID s) dockerfile dockerContext (Tags s) (BuildArgs s) target
    credentials.

(** The fields of a build step when its command is run, the scan having
    replied [deps]: [ImageDependencies] is assigned, the context of a
    remote build is replaced, and the defaults are filled in. *)
Definition build_step (s : Step) (deps : list Dependencies) : Step :=
  let '(dockerfile, target, dockerContext) := parseDockerBuildCmd (Build s) in
  let s := apply_write (WImageDependencies deps) s in
  UpdateBuildStepWithDefaults
    (if IsLocalContext dockerContext then s
     else apply_write (WBuild (replacePositionalContext (Build s) ".")) s).

(** The arguments of the command of a build step. *)
Definition build_args (s : Step) (deps : list Dependencies) : list string :=
  let '(dockerfile, target, dockerContext) := parseDockerBuildCmd (Build s) in
  let workingDirectory :=
    if IsLocalContext dockerContext then WorkingDirectory s
    else if IsSourceControlURL dockerContext
         then ID s +:+ "/" +:+ getContextFromGitURL dockerContext
         else ID s in
  let s' := build_step s deps in
  if UseBuildCacheForBuildStep s'
  then getDockerRunArgsForStep b (workspaceDir b) workingDirectory s' ""
         (buildxImg +:+ " build " +:+ Build s')
  else getDockerRunArgsForStep b (workspaceDir b) workingDirectory s' ""
         (dockerImg +:+ " build " +:+ Build s').

(** The runs of [runStep] from [var args []string] on, for the step [s]
    as it is then. *)
Inductive step_ran (c : context) (s : Step) (credentials : list string)
  : list event → error → Prop :=
| ran_cmd h' res :
    IsBuildStep s = false → IsPushStep s = false →
    Forall (λ ev, ¬ is_RunRepeatWithRetries ev.1) h' →
    step_ran c s credentials
      (h' ++ [(OCall (run_of c s
                        (getDockerRunArgsForStep b (workspaceDir b) (WorkingDirectory s) s
                           (EntryPoint s) (Cmd s))), RErr res)]) res
| ran_push res :
    IsBuildStep s = false → IsPushStep s = true →
    step_ran c s credentials
      [(OCall (pushWithRetries (WithTimeout c (Timeout s)) (Push s)), RErr res)] res
| scan_failed h' deps e :
    IsBuildStep s = true →
    Forall (λ ev, ¬ is_call ev.1) h' →
    step_ran c s credentials
      (h' ++ [(OCall (scan_of c s credentials), RDeps deps (Some e))])
      (Some (Wrap e "failed to scan dependencies"))
| ran_build h' deps h'' res :
    IsBuildStep s = true →
    Forall (λ ev, ¬ is_call ev.1) h' →
    Forall (λ ev, ¬ is_RunRepeatWithRetries ev.1) h'' →
    step_ran c s credentials
      (h' ++ [(OCall (scan_of c s credentials), RDeps deps None)] ++ h''
       ++ [(OCall (run_of c (build_step s deps) (build_args s deps)), RErr res)]) res.

Lemma runStep_run_once c s args h res :
  runs (runStep_run b c s args) h res →
  ∃ h', h = h' ++ [(OCall (run_of c s args), RErr res)]
        ∧ Forall (λ ev, ¬ is_RunRepeatWithRetries ev.1) h'.
Proof.
  unfold runStep_run. cbv zeta. intros Hrun.
  apply runs_bind in Hrun as (t1 & t2 & [] & -> & H1 & Hrun).
  apply runs_bind in Hrun as (t3 & t4 & [] & -> & H2 & Hrun).
  unfold runs in Hrun. cbn in Hrun. next_op Hrun. at_end Hrun.
  exists (t1 ++ t3). split; [by rewrite <- app_assoc|].
  apply Forall_app. split.
  - eapply (all_ops_runs_to (λ o, ¬ is_RunRepeatWithRetries o)); [|exact H1].
    walk_ops; simpl; by auto.
  - eapply (all_ops_runs_to (λ o, ¬ is_RunRepeatWithRetries o)); [|exact H2].
    unfold preRunWindowsContainer. walk_ops; simpl; by auto.
Qed.

Lemma runStep_kind_ran c s credentials h res :
  runs (runStep_kind b c s credentials) h res → step_ran c s credentials h res.
Proof.
  unfold runStep_kind. intros Hrun.
  destruct (IsBuildStep s) eqn:Hb; [|destruct (IsPushStep s) eqn:Hp].
  - pose proof (scan_failed c s credentials) as Hfail.
    pose proof (ran_build c s credentials) as Hran.
    unfold scan_of, build_args, build_step in Hfail, Hran.
    destruct (parseDockerBuildCmd (Build s)) as [[dockerfile target] dockerContext].
    cbv zeta in Hrun, Hran.
    apply runs_bind in Hrun as (t1 & t2 & [] & -> & H1 & Hrun).
    assert (Ht1 : Forall (λ ev, ¬ is_call ev.1) t1).
    { eapply (all_ops_runs_to (λ o, ¬ is_call o)); [|exact H1].
      unfold validateDockerContext. walk_ops; simpl; by auto. }
    clear H1. unfold runs in Hrun. cbn in Hrun.
    next_op Hrun. next_op Hrun. destruct e as [e|]; cbn in Hrun.
    { at_end Hrun.
      specialize (Hfail (t1 ++ [(OLog "Scanning for dependencies...", RUnit)]) deps e Hb).
      rewrite <- app_assoc in Hfail. apply Hfail.
      apply Forall_app. split; [done|]. constructor; [simpl; by auto|constructor]. }
    next_op Hrun. next_op Hrun.
    destruct (IsLocalContext dockerContext); cbn in Hrun.
    + next_op Hrun. apply runStep_run_once in Hrun as (h' & -> & Hh').
      specialize (Hran (t1 ++ [(OLog "Scanning for dependencies...", RUnit)]) deps
        ([(OLog "Successfully scanned dependencies", RUnit);
          (OWrite (ID s) (WImageDependencies deps), RUnit);
          (OWrite (ID s) WUpdateBuildStepWithDefaults, RUnit)] ++ h') res Hb).
      rewrite <- !app_assoc in Hran. apply Hran.
      * apply Forall_app. split; [done|]. constructor; [simpl; by auto|constructor].
      * repeat (constructor; [simpl; by auto|]). done.
    + next_op Hrun. next_op Hrun. apply runStep_run_once in Hrun as (h' & -> & Hh').
      specialize (Hran (t1 ++ [(OLog "Scanning for dependencies...", RUnit)]) deps
        ([(OLog "Successfully scanned dependencies", RUnit);
          (OWrite (ID s) (WImageDependencies deps), RUnit);
          (OWrite (ID s) (WBuild (replacePositionalContext (Build s) ".")), RUnit);
          (OWrite (ID s) WUpdateBuildStepWithDefaults, RUnit)] ++ h') res Hb).
      rewrite <- !app_assoc in Hran. apply Hran.
      * apply Forall_app. split; [done|]. constructor; [simpl; by auto|constructor].
      * repeat (constructor; [simpl; by auto|]). done.
  - cbv zeta in Hrun. unfold runs in Hrun. cbn in Hrun. next_op Hrun. at_end Hrun.
    by apply ran_push.
  - apply runStep_run_once in Hrun as (h' & -> & Hh'). by apply ran_cmd.
Qed.


(** C5, as the code has it.  Every call of [runStep] is one of those of
    [runStep_call]; and a run of [runStep] to its end either stops at the
    explicit pull of a cmd step, which has failed, and runs no command; or
    it goes on, with the fields [s1] of the step as they are once
    [InProgress] and [StartTime] are assigned, as follows.
    - A cmd step runs its command through one call of
      [RunRepeatWithRetries], with the timeout, [Retries], [RetryOnErrors],
      [RetryDelayInSeconds] and [Repeat] of the step and the arguments
      [getDockerRunArgsForStep] gives for its [Cmd]; that call is the last
      call, and its reply is the result.
    - A build step scans for dependencies; when the scan fails no command
      is run and the error is returned wrapped; otherwise the command is
      run through one call of [RunRepeatWithRetries], with the timeout and
      the retry policy [UpdateBuildStepWithDefaults] leaves, and its reply
      is the result.
    - A push step makes one call, of [pushWithRetries] with the timeout of
      the step, and none of [RunRepeatWithRetries]. *)
Theorem runStep_runs_command c0 step credentials h res :
  runs (runStep b c0 step credentials) h res →
  (∀ cl r, (OCall cl, r) ∈ h → runStep_call b c0 step credentials cl)
  ∧ ((∃ e h', res = Some e ∧ IsCmdStep step && Pull step = true
        ∧ h = h' ++ [(OCall (pull_of c0 step), RErr (Some e))]
        ∧ Forall (λ ev, ¬ is_RunRepeatWithRetries ev.1) h)
     ∨ (∃ h1 t0 h2 t1 s1,
          s1 = apply_write (WStartTime t0) (apply_write (WStepStatus InProgress) step)
          ∧ same_policy step s1
          ∧ h = h1 ++ [(OWrite (ID step) (WStepStatus InProgress), RUnit); (ONow, RInt t0);
                       (OWrite (ID step) (WStartTime t0), RUnit)]
                   ++ h2 ++ [(ONow, RInt t1); (OWrite (ID step) (WEndTime t1), RUnit)]
          ∧ Forall (λ ev, ¬ is_RunRepeatWithRetries ev.1) h1
          ∧ step_ran c0 s1 credentials h2 res)).
Proof.
  intros Hrun. split.
  { intros cl r Hin. exact (runStep_calls b c0 step credentials h _ cl r Hrun Hin). }
  apply runStep_runs in Hrun
    as [(e & h' & -> & Hc & -> & Hh')|(h1 & t0 & h2 & t1 & -> & Hh1 & Hkind)].
  - left. exists e, h'. split; [done|]. split; [done|]. split; [done|].
    apply Forall_app. split.
    + eapply Forall_impl; [exact Hh'|]. by intros ? [? ?].
    + constructor; [simpl; by auto|constructor].
  - right. eexists h1, t0, h2, t1, _. split; [reflexivity|].
    split; [by repeat split|]. split; [done|].
    split; [eapply Forall_impl; [exact Hh1|]; by intros ? [? ?]|].
    by apply runStep_kind_ran.
Qed.

End runStep.

(** ** [processVertex] and the error channel *)

Section processVertex.
Context `{Collaborators} (b : Builder).


End processVertex.

(** ** The setup of [RunTask] *)


Section setup.
Context `{Collaborators} (b : Builder).






(** The error [RunTask] returns when a call of its setup fails. *)
Definition setup_error (cl : call) (r : reply) : option string :=
  match cl, r with
  | network_Create _ n, RMsgErr msg (Some e) =>
    Some ("failed to create network: " +:+ NetworkName n +:+ ", err: " +:+ e
          +:+ ", msg: " +:+ msg)
  | setupConfig _, RErr (Some e)
  | dockerLoginWithRetries _ _ _ _ _, RErr (Some e)
  | prepareVolumeSource _ _, RErr (Some e) => Some e
  | _, _ => None
  end.

Definition aborts_on_setup_error (o : op) (k : reply → prog error) : Prop :=
  ∀ cl r e, o = OCall cl → setup_error cl r = Some e → k r = Ret (Some e).

Definition no_setup (o : op) : Prop := ∀ cl r, o = OCall cl → setup_error cl r = None.

Lemma aborts_quiet {A} (p : prog A) (f : A → prog error) :
  all_ops no_setup p → (∀ a, tree_inv aborts_on_setup_error (f a)) →
  tree_inv aborts_on_setup_error (bind p f).
Proof.
  apply tree_inv_bind. intros o k Ho cl r e Hcl Hse. by rewrite (Ho cl r Hcl) in Hse.
Qed.

Lemma aborts_log m (rest : prog error) :
  tree_inv aborts_on_setup_error rest →
  tree_inv aborts_on_setup_error (log m;; rest).
Proof. intros Hrest. constructor; [by intros ??? [=]|]. intros _ _. exact Hrest. Qed.

Lemma aborts_call cl (rest : prog error) :
  (∀ r e, setup_error cl r = Some e → r = RErr (Some e)) →
  tree_inv aborts_on_setup_error rest →
  tree_inv aborts_on_setup_error (or_return (call_err cl) rest).
Proof.
  intros Hcl Hrest. constructor.
  - intros cl' r e [= <-] Hse. by rewrite (Hcl r e Hse).
  - intros r _. destruct r as [|[e|]| | | | | | |]; cbn; by try constructor.
Qed.

Lemma aborts_networks task (rest : prog error) :
  tree_inv aborts_on_setup_error rest →
  tree_inv aborts_on_setup_error
    (or_return
       (for_each_err (Networks task) (λ network,
          if SkipCreation network then
            log "Skip creating network: %s\n";; Ret None
          else
            log "Creating Docker network: %s, driver: '%s'\n";;
            r ← call_msg_err (network_Create ctx network);
            match r.2 with
            | Some e =>
              Ret (Some ("failed to create network: " +:+ NetworkName network
                         +:+ ", err: " +:+ e +:+ ", msg: " +:+ r.1))
            | None => log "Successfully set up Docker network: %s\n";; Ret None
            end)) rest).
Proof.
  intros Hrest. induction (Networks task) as [|n ns IH]; [exact Hrest|].
  cbn. destruct (SkipCreation n); cbn.
  - constructor; [by intros ??? [=]|]. intros _ _. exact IH.
  - constructor; [by intros ??? [=]|]. intros _ _. constructor.
    + intros cl r e [= <-] Hse. destruct r as [| |msg [e0|]| | | | | |]; simpl in Hse; simplify_eq.
      reflexivity.
    + intros r Hok. destruct r as [| |msg [e0|]| | | | | |]; try discriminate Hok; cbn.
      * constructor.
      * constructor; [by intros ??? [=]|]. intros _ _. exact IH.
Qed.

Lemma aborts_logins (creds : list LoginCredential) (rest : prog error) :
  tree_inv aborts_on_setup_error rest →
  tree_inv aborts_on_setup_error
    (or_return
       (for_each_err creds (λ cred,
          let loginCtx := WithTimeout ctx loginTimeoutInSec in
          log "Logging in to registry: %s\n";;
          try call_err (dockerLoginWithRetries loginCtx (Registry cred)
                          (Username cred) (Password cred) 0);
          log "Successfully logged into %s\n";; Ret None)) rest).
Proof.
  intros Hrest. induction creds as [|c cs IH]; [exact Hrest|].
  cbn. constructor; [by intros ??? [=]|]. intros _ _. constructor.
  - intros cl r e [= <-] Hse. destruct r as [|[e0|]| | | | | | |]; simpl in Hse; simplify_eq.
    reflexivity.
  - intros r Hok. destruct r as [|[e0|]| | | | | | |]; try discriminate Hok; cbn.
    + constructor.
    + constructor; [by intros ??? [=]|]. intros _ _. exact IH.
Qed.

Lemma aborts_volumes (vs : list Volume) (rest : prog error) :
  tree_inv aborts_on_setup_error rest →
  tree_inv aborts_on_setup_error
    (or_return (for_each_err vs (λ volMount, call_err (prepareVolumeSource ctx volMount)))
       rest).
Proof.
  intros Hrest. induction vs as [|v vs IH]; [exact Hrest|].
  cbn. constructor.
  - intros cl r e [= <-] Hse. destruct r as [|[e0|]| | | | | | |]; simpl in Hse; simplify_eq.
    reflexivity.
  - intros r Hok. destruct r as [|[e0|]| | | | | | |]; try discriminate Hok; cbn.
    + constructor.
    + exact IH.
Qed.

Lemma RunTask_aborts task : tree_inv aborts_on_setup_error (RunTask b task).
Proof.
  unfold RunTask.
  apply aborts_networks. apply aborts_log. cbv zeta.
  apply aborts_call.
  { intros r e Hse. destruct r as [|[e0|]| | | | | | |]; simpl in Hse; by simplify_eq. }
  apply aborts_log.
  match goal with
  | |- tree_inv _ (or_return _ ?rest) =>
      assert (Hrest : tree_inv aborts_on_setup_error rest)
  end.
  { apply aborts_quiet.
    { unfold initBuildkitContainer. walk_ops; unfold no_setup; intros; by simplify_eq. }
    intros _. apply aborts_volumes.
    apply (tree_inv_all_ops _ no_setup).
    - intros o k Ho cl r e Hcl Hse. by rewrite (Ho cl r Hcl) in Hse.
    - walk_ops; unfold no_setup; intros; by simplify_eq. }
  destruct (UsingRegistryCreds task); [by apply aborts_logins | exact Hrest].
Qed.

(** Before [RunTask] starts a goroutine, its setup is over. *)
Definition setup_is_over (o : op) (k : reply → prog error) : Prop :=
  (∃ parent child, o = OGo parent child) → ∀ r, all_ops no_setup (k r).


Definition not_go (o : op) : Prop := ∀ parent child, o ≠ OGo parent child.

Lemma setup_is_over_go parent cs (rest : prog error) :
  all_ops no_setup rest → all_ops not_go rest →
  tree_inv setup_is_over (for_each cs (λ c, perform (OGo parent c));; rest).
Proof.
  intros Hns Hng. induction cs as [|c cs IH]; cbn.
  - apply (tree_inv_all_ops _ not_go); [|exact Hng].
    intros o k Ho (p & c & ->). by destruct (Ho p c).
  - constructor; [|intros _ _; exact IH].
    intros _ r. apply all_ops_bind; [|by intros _].
    apply all_ops_for_each. intros c'. apply all_ops_perform. by intros ?? [=].
Qed.

Lemma RunTask_setup_is_over task : tree_inv setup_is_over (RunTask b task).
Proof.
  unfold RunTask.
  descend not_go Children.
  all: try (unfold not_go, initBuildkitContainer; walk_ops; by intros).
  all: try (intros o k Ho (p & c & ->); by destruct (Ho p c)).
  cbn. constructor; [by intros (p & c & [=])|]. intros r _.
  apply setup_is_over_go.
  - walk_ops; unfold no_setup; intros; by simplify_eq.
  - walk_ops; unfold not_go; by intros.
Qed.

(** X13.  When a call of the setup of [RunTask] fails (the creation of a
    network, the set-up of the configuration, a login, the preparation of
    a volume), [RunTask] returns at once: the error of the call as it is,
    or, for a network, a message with the name of the network, the error
    and the output.  No goroutine has been started before. *)
Theorem RunTask_setup_error task h1 cl r e h2 q :
  runs_to (RunTask b task) (h1 ++ (OCall cl, r) :: h2) q →
  setup_error cl r = Some e →
  h2 = [] ∧ q = Ret (Some e) ∧ ∀ parent child r', (OGo parent child, r') ∉ h1.
Proof.
  intros Hrun Hse.
  pose proof Hrun as Hrun'.
  apply (tree_inv_event _ _ _ _ _ _ _ (RunTask_aborts task)) in Hrun
    as (k & H1 & HQ & Hok & H2).
  rewrite (HQ cl r e eq_refl Hse) in H2. apply runs_to_Ret in H2 as [-> ->].
  split; [done|]. split; [done|].
  intros parent child r' Hin.
  apply list_elem_of_split in Hin as (t1 & t2 & ->).
  rewrite <- app_assoc in Hrun'. simpl in Hrun'.
  apply (tree_inv_event _ _ _ _ _ _ _ (RunTask_setup_is_over task)) in Hrun'
    as (k' & _ & HQ' & _ & H2').
  assert (Hno : no_setup (OCall cl, r).1).
  { eapply all_ops_events; [apply HQ'; by eauto|exact H2'|].
    apply elem_of_app. right. by left. }
  by rewrite (Hno cl r eq_refl) in Hse.
Qed.

End setup.

(** ** [RunTask] after the initialization of the buildkitd container *)

(** The runs of a loop of calls that returns the first error. *)
Lemma call_loop_runs {A} (f : A → call) (xs : list A) h res :
  (∀ x r, reply_ok (OCall (f x)) r = true → ∃ e, r = RErr e) →
  runs (for_each_err xs (λ x, call_err (f x))) h res →
  stops_at_first_error (f <$> xs) h res.
Proof.
  intros Hf. revert h. induction xs as [|x xs IH]; intros h Hrun; unfold runs in Hrun;
    cbn in Hrun.
  - at_end Hrun. apply (all_nil []).
  - apply runs_to_Op in Hrun as [[_ Hrun]|(r & tr & -> & Hok & Hrun)]; [discriminate Hrun|].
    destruct (Hf _ _ Hok) as [e ->]. cbn in Hrun. destruct e as [e|].
    + at_end Hrun. eapply (first_error _ [] _ _ e). reflexivity.
    + apply stops_cons. by apply IH.
Qed.

Section RunTask.
Context `{Collaborators} (b : Builder).

(** What [RunTask] does from the loop over [task.Volumes] on, up to the
    barrier: it prepares the volumes in order, and returns the first error
    of that; then it reads the children of the root and starts a goroutine
    for each, and waits at the barrier, whose error it returns. *)
Definition prepares_and_executes (task : Task) (h : list event) (res : error) : Prop :=
  ∃ hv ev h3,
    h = hv ++ h3
    ∧ stops_at_first_error (prepareVolumeSource ctx <$> Volumes task) hv ev
    ∧ match ev with
      | Some e => res = Some e ∧ h3 = []
      | None =>
        ∃ cs hb eb h5,
          h3 = (OChildren (Root (TaskDag task)), RNodes cs)
               :: go_events (Root (TaskDag task)) cs ++ hb ++ h5
          ∧ runs (barrier ((λ node, ID (Value node)) <$> Nodes (TaskDag task))) hb eb
          ∧ (∀ e, eb = Some e → res = Some e ∧ h5 = [])
      end.

Definition continues_after_init (task : Task) (o : op) (k : reply → prog error) : Prop :=
  is_RunRepeatWithRetries o →
  (∀ e, k (RErr (Some e))
        = Op (OLog "buildx create --use failed with error: '%v'") (λ _, k (RErr None)))
  ∧ ∀ h res, runs (k (RErr None)) h res → prepares_and_executes task h res.

Lemma RunTask_continues_after_init task :
  tree_inv (continues_after_init task) (RunTask b task).
Proof.
  unfold RunTask.
  descend (λ o, ¬ is_RunRepeatWithRetries o) initBuildkitContainer.
  all: try (simpl; by auto).
  all: try (intros o k Hno Hyes; by destruct Hno).
  match goal with
  | |- tree_inv _ (_ ≫= ?f) =>
      assert (Hrest : tree_inv (continues_after_init task) (f tt));
      [|assert (Hruns : ∀ h res, runs (f tt) h res → prepares_and_executes task h res)]
  end.
  { apply (tree_inv_all_ops _ (λ o, ¬ is_RunRepeatWithRetries o)).
    - intros o k Hno Hyes. by destruct Hno.
    - walk_ops; simpl; by auto. }
  { intros h res Hrun. unfold or_return at 1 in Hrun.
    apply runs_bind in Hrun as (hv & h3 & ev & -> & Hv & Hrun).
    exists hv, ev, h3. split; [done|]. split.
    { apply (call_loop_runs (prepareVolumeSource ctx)); [|exact Hv].
      intros x r Hok. destruct r; try discriminate Hok. eauto. }
    destruct ev as [e|].
    { unfold runs in Hrun. by at_end Hrun. }
    unfold runs in Hrun. cbn in Hrun. next_op Hrun.
    apply runs_for_each_go in Hrun as (h4 & -> & Hrun).
    unfold or_return at 1 in Hrun.
    apply runs_bind in Hrun as (hb & h5 & eb & -> & Hb & Hrun).
    exists l, hb, eb, h5. split; [done|]. split; [done|].
    intros e ->. unfold runs in Hrun. by at_end Hrun. }
  destruct (InitBuildkitContainer task); [|exact Hrest].
  unfold initBuildkitContainer, when, log, perform, call_err.
  destruct (debug b); cbn.
  - constructor; [by intros []|]. intros _ _.
    constructor; [by intros []|]. intros _ _.
    constructor; [intros _; split; [by intros e|exact Hruns]|]. intros r Hok.
    destruct r as [|[e|]| | | | | | |]; try discriminate Hok; cbn; [|exact Hrest].
    constructor; [by intros []|]. intros _ _. exact Hrest.
  - constructor; [by intros []|]. intros _ _.
    constructor; [intros _; split; [by intros e|exact Hruns]|]. intros r Hok.
    destruct r as [|[e|]| | | | | | |]; try discriminate Hok; cbn; [|exact Hrest].
    constructor; [by intros []|]. intros _ _. exact Hrest.
Qed.

(** C9.  When the initialization of the buildkitd container (the call of
    [RunRepeatWithRetries] by [RunTask]) replies with an error, [RunTask]
    logs it and continues: it prepares the volumes of the task, in order,
    and, unless one of them fails, reads the children of the root, starts
    a goroutine for each, and waits at the barrier.  The error of the
    initialization is never what makes [RunTask] return non-nil: the run
    without the error and without the log line, all the rest the same, is
    a run of [RunTask] too, with the same result. *)
Theorem RunTask_buildkit_error_continues task h1 cl e h2 res :
  is_RunRepeatWithRetries (OCall cl) →
  runs (RunTask b task) (h1 ++ (OCall cl, RErr (Some e)) :: h2) res →
  ∃ h2',
    h2 = (OLog "buildx create --use failed with error: '%v'", RUnit) :: h2'
    ∧ prepares_and_executes task h2' res
    ∧ runs (RunTask b task) (h1 ++ (OCall cl, RErr None) :: h2') res.
Proof.
  intros Hcl Hrun.
  apply (tree_inv_event _ _ _ _ _ _ _ (RunTask_continues_after_init task)) in Hrun
    as (k & H1 & HQ & Hok & H2).
  destruct (HQ Hcl) as [Hlog Hnext]. rewrite (Hlog e) in H2.
  apply runs_to_Op in H2 as [[_ H2]|(r & h2' & -> & Hr & H2)]; [discriminate H2|].
  destruct r; try discriminate Hr.
  exists h2'. split; [done|]. split; [by apply Hnext|].
  apply runs_to_app. exists (Op (OCall cl) k). split; [done|].
  split; [done|]. split; [by destruct cl|]. exact H2.
Qed.

End RunTask.

(** ** The completion signals in a task run *)

Section signals.
Context `{Collaborators} (b : Builder).

(** The push of the completion signal is the last operation of
    [processVertex]: a run in which it has occurred is at its end. *)
Lemma processVertex_pushed task parent child h q id r :
  runs_to (processVertex b task parent child) h q →
  (OSendCompleted id, r) ∈ h → q = Ret tt.
Proof.
  unfold processVertex. cbn. intros Hrun Hin.
  apply runs_to_Op in Hrun as [[-> _]|(r1 & h1 & -> & Hok & Hrun)];
    [by apply elem_of_nil in Hin|].
  apply elem_of_cons in Hin as [Hin|Hin]; [done|].
  destruct r1 as [|[e|]| | | | | | |]; try discriminate Hok; cbn in Hrun.
  { assert (Hno : (λ o, ∀ id, o ≠ OSendCompleted id) (OSendCompleted id, r).1).
    { eapply all_ops_events; [|exact Hrun|exact Hin]. by apply all_ops_perform. }
    by destruct (Hno id). }
  apply runs_to_Op in Hrun as [[-> _]|(r2 & h2 & -> & Hok2 & Hrun)];
    [by apply elem_of_nil in Hin|].
  apply elem_of_cons in Hin as [Hin|Hin]; [done|].
  destruct r2; try discriminate Hok2; cbn in Hrun.
  destruct (z =? 0)%Z; [|apply runs_to_Ret in Hrun as [-> _]; by apply elem_of_nil in Hin].
  apply runs_to_bind in Hrun as [(p' & Hstep & _)|(t1 & t2 & err & -> & Hstep & Hrun)].
  { by apply (runStep_quiet _ _ _ _ _ _ _ Hstep) in Hin as (? & _). }
  apply elem_of_app in Hin as [Hin|Hin].
  { by apply (runStep_quiet _ _ _ _ _ _ _ Hstep) in Hin as (? & _). }
  cbn beta in Hrun.
  apply runs_to_bind in Hrun as [(p' & Hout & _)|(u1 & u2 & [] & -> & Hout & Hrun)].
  { assert (Hno : (λ o, ∀ id, o ≠ OSendCompleted id) (OSendCompleted id, r).1).
    { eapply all_ops_events; [|exact Hout|exact Hin]. walk_ops; simpl; done. }
    by destruct (Hno id). }
  apply elem_of_app in Hin as [Hin|Hin].
  { assert (Hno : (λ o, ∀ id, o ≠ OSendCompleted id) (OSendCompleted id, r).1).
    { eapply all_ops_events; [|exact Hout|exact Hin]. walk_ops; simpl; done. }
    by destruct (Hno id). }
  apply runs_to_Op in Hrun as [[-> _]|(r3 & h3 & -> & Hok3 & Hrun)];
    [by apply elem_of_nil in Hin|].
  by apply runs_to_Ret in Hrun as [_ ->].
Qed.

(** An operation a goroutine performs on its own and that cannot block. *)
Definition local_operation (o : op) : Prop :=
  match o with
  | OLog _ | OWrite _ _ | OChildren _ | OGo _ _ => True
  | _ => False
  end.

(** What the program has left is operations that cannot block, then the
    push of the completion signal of [id], then nothing. *)
Inductive signals_next (id : string) : prog unit → Prop :=
| signals_now : signals_next id (perform (OSendCompleted id))
| signals_later o k :
    local_operation o → (∀ r, reply_ok o r = true → signals_next id (k r)) →
    signals_next id (Op o k).

Lemma signals_next_go id parent cs :
  signals_next id
    (for_each cs (λ c, perform (OGo parent c));; perform (OSendCompleted id)).
Proof.
  induction cs as [|c cs IH]; cbn; [constructor|].
  apply signals_later; [done|]. intros r _. exact IH.
Qed.

(** What a goroutine has left once [runStep] has returned [err]. *)
Definition after_execution (child : Node) (err : error) (q : prog unit) : Prop :=
  match err with
  | Some e =>
    if IgnoreErrors (Value child) then signals_next (ID (Value child)) q
    else q = (perform (OWrite (ID (Value child)) (WStepStatus Failed));;
              perform (OSendError (Wrap e ("failed to run step ID: " +:+ ID (Value child))));;
              perform (OSendCompleted (ID (Value child))))
  | None => signals_next (ID (Value child)) q
  end.

Lemma processVertex_after_execution task parent child h0 err :
  runs (runStep b ctx (Value child) (Credentials task)) h0 err →
  ∃ q, runs_to (processVertex b task parent child)
         ([(ORemoveEdge (Name parent) (Name child), RErr None); (OGetDegree child, RInt 0)]
          ++ h0) q
       ∧ after_execution child err q.
Proof.
  intros Hstep. unfold processVertex. cbn.
  match goal with
  | |- ∃ q, (_ ∧ _ ∧ _ ∧ _ ∧ runs_to (_ ≫= ?f) _ _) ∧ _ =>
      pose proof (runs_to_bind_end _ f _ _ Hstep) as Hend
  end.
  eexists. split; [repeat split; exact Hend|].
  unfold after_execution.
  destruct err as [e|]; [destruct (IgnoreErrors (Value child))|]; cbn.
  - apply signals_later; [done|]. intros _ _.
    apply signals_later; [done|]. intros _ _.
    apply signals_later; [done|]. intros r _. apply signals_next_go.
  - reflexivity.
  - apply signals_later; [done|]. intros _ _.
    apply signals_later; [done|]. intros r _. apply signals_next_go.
Qed.

End signals.

Section task_run.
Context `{Collaborators} (b : Builder) (task : Task).
Context {D : Type} `{DagOps D} (capacity : nat).

Local Abbreviation lts_step := (lts_step b task capacity).
Local Abbreviation exec := (exec b task capacity).

(** [RunTask] pushes no completion signal. *)
Lemma pushed_by_goroutine d once tr σ t id r :
  exec (init b task d once) tr σ → (t, (OSendCompleted id, r)) ∈ tr → ∃ i, t = Worker i.
Proof.
  intros Hexec Hin. destruct t as [|i]; [|by exists i]. exfalso.
  pose proof (exec_inv _ _ _ _ _ _ _ Hexec) as Hinv.
  apply events_of_elem in Hin.
  by apply (all_ops_events _ _ _ _ _ (RunTask_ops b task) (inv_main _ _ _ _ Hinv)) in Hin.
Qed.

(** A goroutine that has pushed a completion signal. *)
Lemma pushed_after_execution d once tr σ i id r :
  exec (init b task d once) tr σ →
  (Worker i, (OSendCompleted id, r)) ∈ tr →
  ∃ parent child h0 err cs msg,
    id = ID (Value child) ∧ r = RUnit
    ∧ st_pool σ !! i = Some (Ret tt)
    ∧ runs (runStep b ctx (Value child) (Credentials task)) h0 err
    ∧ events_of (Worker i) tr
      = [(ORemoveEdge (Name parent) (Name child), RErr None); (OGetDegree child, RInt 0)]
        ++ h0 ++ outcome_events child err cs msg ++ [(OSendCompleted id, RUnit)]
    ∧ completions (events_of (Worker i) tr) = 1
    ∧ (∀ e, err = Some e → IgnoreErrors (Value child) = false →
         st_main σ = Ret (Some (Wrap e ("failed to run step ID: " +:+ id)))).
Proof.
  intros Hexec Hin. pose proof (exec_inv _ _ _ _ _ _ _ Hexec) as Hinv.
  pose proof (inv_workers _ _ _ _ Hinv _ _ Hin) as Hlt.
  apply lookup_lt_is_Some_2 in Hlt as [p Hp].
  destruct (inv_pool _ _ _ _ Hinv _ _ Hp) as (parent & child & Hrun).
  pose proof Hin as Hin'. apply events_of_elem in Hin'.
  pose proof (processVertex_pushed _ _ _ _ _ _ _ _ Hrun Hin') as ->.
  apply processVertex_runs in Hrun.
  remember (events_of (Worker i) tr) as h eqn:Hh.
  destruct Hrun as [e0|d0 Hd0|h0 err cs msg Hstep].
  - rewrite !elem_of_cons, elem_of_nil in Hin'. naive_solver.
  - rewrite !elem_of_cons, elem_of_nil in Hin'. naive_solver.
  - assert (id = ID (Value child) ∧ r = RUnit) as [-> ->].
    { rewrite !elem_of_app, !elem_of_cons, ?elem_of_nil in Hin'.
      destruct_or?; try done.
      - by apply (runStep_quiet _ _ _ _ _ _ _ Hstep) in Hin' as (? & _).
      - by apply outcome_events_quiet in Hin' as (? & _).
      - by simplify_eq. }
    exists parent, child, h0, err, cs, msg.
    split; [done|]. split; [done|]. split; [done|]. split; [done|]. split; [done|].
    split.
    + assert (Hc0 : completions h0 = 0).
      { apply completions_none. intros ev Hev.
        by apply (runStep_quiet _ _ _ _ _ _ _ Hstep) in Hev as (? & _). }
      assert (Hc1 : completions (outcome_events child err cs msg) = 0).
      { apply completions_none. intros ev Hev.
        by apply outcome_events_quiet in Hev as (? & _). }
      rewrite !completions_app, Hc0, Hc1. done.
    + intros e -> Hig.
      assert (Hsent : (Worker i, (OSendError
                         (Wrap e ("failed to run step ID: " +:+ ID (Value child))), RUnit))
                      ∈ tr).
      { apply events_of_elem. rewrite <- Hh. unfold outcome_events. rewrite Hig.
        set_solver. }
      apply (inv_error _ _ _ _ Hinv) in Hsent as (id' & Hsel).
      apply (main_returned_at_select _ _ _ _ _ _ _ _ _ _ Hexec Hsel). by right.
Qed.

(** Once [RunTask] has returned, it performs no operation. *)
Lemma returned_step σ res a σ' evs :
  st_main σ = Ret res → lts_step σ a = Some (σ', evs) →
  st_main σ' = Ret res ∧ ∀ ev, (Main, ev) ∉ evs.
Proof.
  intros Hm Hstep. destruct a as [e|[|j] r| | |j|j]; simpl in Hstep;
    try (by rewrite Hm in Hstep).
  - destruct (st_done σ); simplify_eq. split; [done|].
    intros ev Hin. by apply elem_of_nil in Hin.
  - destruct (st_pool σ !! j) as [[|o k]|] eqn:Hj; try done.
    destruct (local_op b task capacity σ o r) as [[σ1 r']|] eqn:Hop; simplify_eq.
    pose proof (local_op_spec _ _ _ _ _ _ _ _ Hop) as (_ & Hm1 & _).
    split; [simpl; congruence|].
    intros ev Hin. apply list_elem_of_singleton in Hin. congruence.
Qed.

Lemma returned_exec σ res tr σ' :
  st_main σ = Ret res → exec σ tr σ' → st_main σ' = Ret res ∧ ∀ ev, (Main, ev) ∉ tr.
Proof.
  intros Hσ. induction 1 as [|tr σ' a σ'' evs _ [IH1 IH2] Hstep].
  - split; [done|]. intros ev Hin. by apply elem_of_nil in Hin.
  - destruct (returned_step _ _ _ _ _ IH1 Hstep) as [Hσ'' Hevs].
    split; [done|]. intros ev Hin. apply elem_of_app in Hin as [Hin|Hin].
    + by apply IH2 in Hin.
    + by apply Hevs in Hin.
Qed.

(** A goroutine that can never go on: [RunTask] has returned, and the
    goroutine is sending on the error channel, or pushing to a completion
    channel that has no room. *)
Definition stuck (i : nat) (σ : state D) : Prop :=
  (∃ res, st_main σ = Ret res)
  ∧ ((∃ e k, st_pool σ !! i = Some (Op (OSendError e) k))
     ∨ (∃ id k, st_pool σ !! i = Some (Op (OSendCompleted id) k)
                ∧ (capacity ≤ buffered σ id)%nat)).

Lemma local_op_buffered σ o r σ1 r' id :
  local_op b task capacity σ o r = Some (σ1, r') → (buffered σ id ≤ buffered σ1 id)%nat.
Proof.
  destruct o; simpl; intros Hop; repeat case_match; simplify_eq; simpl; try done.
  unfold buffered. simpl.
  destruct (decide (id0 = id)) as [->|Hne].
  - rewrite lookup_insert_eq. simpl. fold (buffered σ id). lia.
  - by rewrite lookup_insert_ne.
Qed.

Lemma stuck_step i σ a σ' evs :
  stuck i σ → lts_step σ a = Some (σ', evs) →
  stuck i σ' ∧ ∀ ev, (Worker i, ev) ∉ evs.
Proof.
  intros [[res Hm] Hi] Hstep. destruct a as [e|[|j] r| | |j|j]; simpl in Hstep.
  - destruct (st_done σ); simplify_eq. split; [by split; eauto|].
    intros ev Hin. by apply elem_of_nil in Hin.
  - by rewrite Hm in Hstep.
  - destruct (st_pool σ !! j) as [[|o k]|] eqn:Hj; try done.
    destruct (local_op b task capacity σ o r) as [[σ1 r']|] eqn:Hop; simplify_eq.
    pose proof (local_op_spec _ _ _ _ _ _ _ _ Hop) as (_ & Hm1 & _ & Hp & _).
    assert (Hne : j ≠ i).
    { intros ->. destruct Hi as [(e & k' & Hi)|(id & k' & Hi & Hcap)];
        rewrite Hi in Hj; simplify_eq; simpl in Hop; try done.
      apply Nat.ltb_ge in Hcap. by rewrite Hcap in Hop. }
    assert (Hsame : st_pool σ1 !! i = st_pool σ !! i).
    { destruct Hp as [->|(? & ? & _ & ->)]; [done|].
      apply lookup_app_l.
      destruct Hi as [(? & ? & Hi)|(? & ? & Hi & _)]; by apply lookup_lt_Some in Hi. }
    split.
    + split; [exists res; simpl; congruence|]. simpl.
      rewrite list_lookup_insert_ne by done. rewrite Hsame.
      destruct Hi as [Hi|(id & k' & Hi & Hcap)]; [by left|]. right.
      exists id, k'. split; [done|].
      pose proof (local_op_buffered _ _ _ _ _ id Hop). unfold buffered in *. simpl. lia.
    + intros ev Hin. apply list_elem_of_singleton in Hin. congruence.
  - by rewrite Hm in Hstep.
  - by rewrite Hm in Hstep.
  - by rewrite Hm in Hstep.
  - by rewrite Hm in Hstep.
Qed.

Lemma stuck_exec i σ tr σ' :
  stuck i σ → exec σ tr σ' → stuck i σ' ∧ ∀ ev, (Worker i, ev) ∉ tr.
Proof.
  intros Hσ. induction 1 as [|tr σ' a σ'' evs _ [IH1 IH2] Hstep].
  - split; [done|]. intros ev Hin. by apply elem_of_nil in Hin.
  - destruct (stuck_step _ _ _ _ _ IH1 Hstep) as [Hσ'' Hevs].
    split; [done|]. intros ev Hin. apply elem_of_app in Hin as [Hin|Hin].
    + by apply IH2 in Hin.
    + by apply Hevs in Hin.
Qed.


Lemma local_operation_enabled σ i o k :
  st_pool σ !! i = Some (Op o k) → local_operation o →
  ∃ σ' r', lts_step σ (AStep (Worker i) RUnit) = Some (σ', [(Worker i, (o, r'))]).
Proof. intros Hi Ho. simpl. rewrite Hi. destruct o; try done; simpl; eauto. Qed.

Lemma push_enabled σ i id k :
  st_pool σ !! i = Some (Op (OSendCompleted id) k) →
  ((buffered σ id < capacity)%nat →
   ∃ σ', lts_step σ (AStep (Worker i) RUnit)
         = Some (σ', [(Worker i, (OSendCompleted id, RUnit))]))
  ∧ (∀ k', st_main σ = Op (OSelect id) k' →
     ∃ σ', lts_step σ (ARecvCompleted i)
           = Some (σ', [(Worker i, (OSendCompleted id, RUnit));
                        (Main, (OSelect id, RSel SelCompleted))])).
Proof.
  intros Hi. split.
  - intros Hlt. simpl. rewrite Hi. simpl. apply Nat.ltb_lt in Hlt. rewrite Hlt. eauto.
  - intros k' Hm. simpl. rewrite Hm, Hi, String.eqb_refl. eauto.
Qed.

(** C2, as the code has it.  In a task run:
    - a completion signal is pushed only by a goroutine, which has executed
      the step of that signal (it has read the degree 0 and [runStep] has
      returned), has set a final status, pushes once, as its last
      operation; when the step has failed without [IgnoreErrors], it has
      sent the error before, and [RunTask] has received it and returned it:
      [RunTask] is no longer there to receive the signal;
    - a signal [RunTask] has received was pushed by a goroutine;
    - a step that no goroutine executes is neither signalled nor received;
    - once [runStep] has returned without error, or with an error that is
      ignored, the goroutine has only operations that cannot block left
      before the push; once it has returned an error that is not ignored,
      the goroutine sets [Failed], then sends the error, then pushes;
    - a goroutine can always take an operation that cannot block, and can
      push when the channel has room or [RunTask] waits for that signal;
    - a goroutine that is sending an error, or pushing to a channel without
      room, when [RunTask] has returned, performs no operation ever
      after. *)
Theorem RunTask_completion_signals d once tr σ :
  exec (init b task d once) tr σ →
  (∀ t id r, (t, (OSendCompleted id, r)) ∈ tr →
     ∃ i parent child h0 err cs msg,
       t = Worker i ∧ id = ID (Value child) ∧ r = RUnit
       ∧ st_pool σ !! i = Some (Ret tt)
       ∧ runs (runStep b ctx (Value child) (Credentials task)) h0 err
       ∧ events_of (Worker i) tr
         = [(ORemoveEdge (Name parent) (Name child), RErr None);
            (OGetDegree child, RInt 0)]
           ++ h0 ++ outcome_events child err cs msg ++ [(OSendCompleted id, RUnit)]
       ∧ completions (events_of (Worker i) tr) = 1
       ∧ (∀ e, err = Some e → IgnoreErrors (Value child) = false →
            st_main σ = Ret (Some (Wrap e ("failed to run step ID: " +:+ id)))))
  ∧ (∀ id, (Main, (OSelect id, RSel SelCompleted)) ∈ tr →
       ∃ i, (Worker i, (OSendCompleted id, RUnit)) ∈ tr)
  ∧ (∀ id,
       (∀ i child, ID (Value child) = id → (Worker i, (OGetDegree child, RInt 0)) ∉ tr) →
       (∀ t r, (t, (OSendCompleted id, r)) ∉ tr)
       ∧ (Main, (OSelect id, RSel SelCompleted)) ∉ tr)
  ∧ (∀ parent child h0 err,
       runs (runStep b ctx (Value child) (Credentials task)) h0 err →
       ∃ q, runs_to (processVertex b task parent child)
              ([(ORemoveEdge (Name parent) (Name child), RErr None);
                (OGetDegree child, RInt 0)] ++ h0) q
            ∧ after_execution child err q)
  ∧ (∀ i o k, st_pool σ !! i = Some (Op o k) →
       (local_operation o →
        ∃ σ' r', lts_step σ (AStep (Worker i) RUnit) = Some (σ', [(Worker i, (o, r'))]))
       ∧ (∀ id, o = OSendCompleted id →
          ((buffered σ id < capacity)%nat →
           ∃ σ', lts_step σ (AStep (Worker i) RUnit)
                 = Some (σ', [(Worker i, (OSendCompleted id, RUnit))]))
          ∧ (∀ k', st_main σ = Op (OSelect id) k' →
             ∃ σ', lts_step σ (ARecvCompleted i)
                   = Some (σ', [(Worker i, (OSendCompleted id, RUnit));
                                (Main, (OSelect id, RSel SelCompleted))]))))
  ∧ (∀ i, stuck i σ →
       ∀ tr' σ', exec σ tr' σ' → stuck i σ' ∧ ∀ ev, (Worker i, ev) ∉ tr').
Proof.
  intros Hexec. pose proof (exec_inv _ _ _ _ _ _ _ Hexec) as Hinv.
  assert (Hpushed : ∀ t id r, (t, (OSendCompleted id, r)) ∈ tr →
     ∃ i parent child h0 err cs msg,
       t = Worker i ∧ id = ID (Value child) ∧ r = RUnit
       ∧ st_pool σ !! i = Some (Ret tt)
       ∧ runs (runStep b ctx (Value child) (Credentials task)) h0 err
       ∧ events_of (Worker i) tr
         = [(ORemoveEdge (Name parent) (Name child), RErr None);
            (OGetDegree child, RInt 0)]
           ++ h0 ++ outcome_events child err cs msg ++ [(OSendCompleted id, RUnit)]
       ∧ completions (events_of (Worker i) tr) = 1
       ∧ (∀ e, err = Some e → IgnoreErrors (Value child) = false →
            st_main σ = Ret (Some (Wrap e ("failed to run step ID: " +:+ id))))).
  { intros t id r Hin.
    destruct (pushed_by_goroutine _ _ _ _ _ _ _ Hexec Hin) as [i ->].
    destruct (pushed_after_execution _ _ _ _ _ _ _ Hexec Hin)
      as (parent & child & h0 & err & cs & msg & Hrest).
    exists i, parent, child, h0, err, cs, msg. by split. }
  assert (Hreceived : ∀ id, (Main, (OSelect id, RSel SelCompleted)) ∈ tr →
                      ∃ i, (Worker i, (OSendCompleted id, RUnit)) ∈ tr).
  { intros id Hsel.
    destruct (inv_completed _ _ _ _ Hinv id) as (t & Hin); [by left|].
    destruct (pushed_by_goroutine _ _ _ _ _ _ _ Hexec Hin) as [i ->]. by exists i. }
  split; [exact Hpushed|]. split; [exact Hreceived|].
  split; [|split; [|split]].
  - intros id Hnone.
    assert (Hno : ∀ t r, (t, (OSendCompleted id, r)) ∉ tr).
    { intros t r Hin.
      destruct (Hpushed _ _ _ Hin)
        as (i & parent & child & h0 & err & cs & msg & -> & -> & _ & _ & _ & Hev & _).
      apply (Hnone i child eq_refl). apply events_of_elem. rewrite Hev. set_solver. }
    split; [exact Hno|]. intros Hsel. destruct (Hreceived _ Hsel) as [i Hin].
    by apply Hno in Hin.
  - intros parent child h0 err Hstep. by apply processVertex_after_execution.
  - intros i o k Hi. split.
    + by apply (local_operation_enabled _ _ _ k).
    + intros id ->. by apply (push_enabled _ _ _ k).
  - intros i Hi tr' σ' Hexec'. by apply (stuck_exec _ _ _ _ Hi Hexec').
Qed.

End task_run.

(** ** The definitions at work *)

Section instances.
Import example example_more.

Lemma getPopulateDigests_runs_witness :
  stops_at_first_error
    (concat (digest_calls ctx true []
               <$> [{| Image := "reg/app:1"; Runtime := "alpine"; Buildtime := ["golang"] |}]))
    [(OCall (PopulateDigest dockerStoreDigester ctx "reg/app:1"), RErr None);
     (OCall (PopulateDigest (remoteDigester []) ctx "alpine"), RErr (Some "manifest unknown"))]
    (Some "manifest unknown").
Proof.
  apply (getPopulateDigests_runs ctx
           [{| Image := "reg/app:1"; Runtime := "alpine"; Buildtime := ["golang"] |}]
           true []).
  vm_compute. repeat split.
Defined.

Lemma runStep_times_witness :
  ∃ h1 t0 h2 t1,
    cmd_events (step_a false) None
    = h1 ++ [(OWrite "a" (WStepStatus InProgress), RUnit); (ONow, RInt t0);
             (OWrite "a" (WStartTime t0), RUnit)]
         ++ h2 ++ [(ONow, RInt t1); (OWrite "a" (WEndTime t1), RUnit)]
    ∧ Forall (λ ev, ¬ is_write ev.1) h1
    ∧ Forall (λ ev, ∀ id w r, ev = (OWrite id w, r) → status_or_time w = false) h2.
Proof.
  destruct (runStep_times builder0 ctx (step_a false) [] (cmd_events (step_a false) None)
              None) as [Hpull|Hran].
  - vm_compute. repeat split.
  - destruct Hpull as (e & _ & He & _). discriminate He.
  - exact Hran.
Defined.

Lemma runStep_result_witness :
  ∃ h1 cl r h2,
    cmd_events (step_a false) (Some "exit status 1") = h1 ++ (OCall cl, r) :: h2
    ∧ decides cl r (Some "exit status 1")
    ∧ Forall (λ ev, ¬ is_call ev.1) h2.
Proof.
  apply (runStep_result builder0 ctx (step_a false) []).
  vm_compute. repeat split.
Defined.




Lemma RunTask_setup_error_witness :
  @nil event = []
  ∧ @Ret error
      (Some "failed to create network: acb_default, err: exit status 1, msg: daemon unreachable")
    = Ret (Some "failed to create network: acb_default, err: exit status 1, msg: daemon unreachable")
  ∧ ∀ parent child r',
      (OGo parent child, r')
      ∉ [(OLog "Creating Docker network: %s, driver: '%s'\n", RUnit)].
Proof.
  apply (RunTask_setup_error builder0 chain_net
           [(OLog "Creating Docker network: %s, driver: '%s'\n", RUnit)]
           (network_Create ctx net)
           (RMsgErr "daemon unreachable" (Some "exit status 1"))).
  - vm_compute. repeat split.
  - reflexivity.
Defined.

Lemma runStep_runs_command_witness :
  ∃ t0 h',
    step_ran builder0 ctx
      (apply_write (WStartTime t0) (apply_write (WStepStatus InProgress) (step_a false))) []
      (h' ++ [(OCall (RunRepeatWithRetries (WithTimeout ctx 600)
                        ["docker"; "run"; "--name"; "a"; "bash echo a"]
                        Nil Stdout Stderr "" 3 ["transient"] 2 "a" 1), RErr None)])
      None.
Proof.
  destruct (runStep_runs_command builder0 ctx (step_a false) []
              (cmd_events (step_a false) None) None) as [_ [Hpull|Hran]].
  - vm_compute. repeat split.
  - destruct Hpull as (e & _ & He & _). discriminate He.
  - destruct Hran as (h1 & t0 & h2 & t1 & s1 & -> & _ & _ & _ & Hran).
    exists t0.
    inversion Hran as [h' res Hb Hp Hh' Heq|res Hb Hp|h' deps e Hb|h' deps h'' res Hb];
      subst.
    all: try discriminate.
    exists h'. exact Hran.
Defined.

Lemma RunTask_buildkit_error_continues_witness :
  ∃ h2',
    cached_tail = (OLog "buildx create --use failed with error: '%v'", RUnit) :: h2'
    ∧ prepares_and_executes chain_cached h2' None
    ∧ runs (RunTask builder0 chain_cached)
        (init_start ++ (OCall init_call, RErr None) :: h2') None.
Proof.
  apply (RunTask_buildkit_error_continues builder0 chain_cached init_start init_call
           "exit status 125" cached_tail None).
  - exact I.
  - vm_compute. repeat split.
Defined.

(** C2 fails as stated: in the task [a → b], step [a] fails without
    [IgnoreErrors] and [RunTask] returns the error.  With unbuffered
    channels no completion signal is pushed, neither before nor ever
    after: not that of [a], whose goroutine is left at the push, and not
    that of [b], which no goroutine executes.  With channels of capacity 1
    the signal of [b] is never pushed either. *)
Lemma RunTask_failed_step_counterexample :
  node (step_a false) ∈ Nodes (TaskDag (chain false false))
  ∧ node step_b ∈ Nodes (TaskDag (chain false false))
  ∧ (exec builder0 (chain false false) 0
       (init builder0 (chain false false) (chain_dag false) false)
       (chain_fail_end 0).2 (chain_fail_end 0).1
     ∧ st_main (chain_fail_end 0).1 = Ret (Some "failed to run step ID: a: exit status 1")
     ∧ st_pool (chain_fail_end 0).1 = [perform (OSendCompleted "a")]
     ∧ ∀ tr' σ',
         exec builder0 (chain false false) 0 (chain_fail_end 0).1 tr' σ' →
         ∀ t id r, (t, (OSendCompleted id, r)) ∉ (chain_fail_end 0).2 ++ tr')
  ∧ (exec builder0 (chain false false) 1
       (init builder0 (chain false false) (chain_dag false) false)
       (chain_fail_end 1).2 (chain_fail_end 1).1
     ∧ st_main (chain_fail_end 1).1 = Ret (Some "failed to run step ID: a: exit status 1")
     ∧ ∀ tr' σ',
         exec builder0 (chain false false) 1 (chain_fail_end 1).1 tr' σ' →
         ∀ t r, (t, (OSendCompleted "b", r)) ∉ (chain_fail_end 1).2 ++ tr').
Proof.
  split; [left|]. split; [right; left|]. split.
  - split; [apply chain_fail_end_exec|]. split; [by vm_compute|]. split; [by vm_compute|].
    intros tr' σ' Hexec t id r Hin.
    apply elem_of_app in Hin as [Hin|Hin].
    { revert Hin. vm_compute. intros Hin.
      repeat (apply elem_of_cons in Hin as [Hin|Hin]; [discriminate Hin|]).
      by apply elem_of_nil in Hin. }
    assert (Hm : st_main (chain_fail_end 0).1
                 = Ret (Some "failed to run step ID: a: exit status 1")) by (by vm_compute).
    assert (Hstuck : stuck 0 0 (chain_fail_end 0).1).
    { split; [by eexists|]. right. exists "a", (λ _, Ret tt). split; [by vm_compute|].
      vm_compute. lia. }
    assert (Hfailed : a_failed (chain_fail_end 0).1) by (split; [|left]; by vm_compute).
    destruct (a_failed_exec _ _ _ _ Hfailed Hexec) as [[_ Hpool] _].
    pose proof (exec_trans _ _ _ _ _ _ _ _ (chain_fail_end_exec 0) Hexec) as Hall.
    pose proof (exec_inv _ _ _ _ _ _ _ Hall) as Hinv.
    destruct t as [|[|i]].
    + by apply (proj2 (returned_exec _ _ _ _ _ _ _ Hm Hexec)) in Hin.
    + by apply (proj2 (stuck_exec _ _ _ _ _ _ _ Hstuck Hexec)) in Hin.
    + assert (Hin' : (Worker (S i), (OSendCompleted id, r)) ∈ (chain_fail_end 0).2 ++ tr')
        by (apply elem_of_app; by right).
      apply (inv_workers _ _ _ _ Hinv) in Hin'.
      destruct Hpool as [Hpool|Hpool]; rewrite Hpool in Hin'; simpl in Hin'; lia.
  - split; [apply chain_fail_end_exec | apply chain_fail_unreached].
Qed.

Lemma RunTask_completion_signals_witness :
  completions (events_of (Worker 1) (chain_end 0).2) = 1
  ∧ ∀ tr' σ',
      exec builder0 (chain false false) 0 (chain_fail_end 0).1 tr' σ' →
      ∀ ev, (Worker 0, ev) ∉ tr'.
Proof.
  split.
  - destruct (RunTask_completion_signals builder0 (chain false false) 0 (chain_dag false)
                false (chain_end 0).2 (chain_end 0).1 (chain_end_exec 0)) as (Hpushed & _).
    destruct (Hpushed (Worker 1) "b" RUnit)
      as (i & parent & child & h0 & err & cs & msg & Ht & _ & _ & _ & _ & _ & Hone & _).
    + apply events_of_elem. vm_compute. repeat first [by left | right].
    + injection Ht as <-. exact Hone.
  - intros tr' σ' Hexec.
    destruct (RunTask_completion_signals builder0 (chain false false) 0 (chain_dag false)
                false (chain_fail_end 0).2 (chain_fail_end 0).1 (chain_fail_end_exec 0))
      as (_ & _ & _ & _ & _ & Hstuck).
    refine (proj2 (Hstuck 0%nat _ tr' σ' Hexec)).
    split; [eexists; by vm_compute|]. right.
    exists "a", (λ _, Ret tt). split; [by vm_compute|]. vm_compute. lia.
Defined.

Lemma diamond_end_exec capacity :
  exec builder0 diamond capacity (init builder0 diamond diamond_dag false)
    (diamond_end capacity).2 (diamond_end capacity).1.
Proof. apply (run_actions_exec _ _ _ _ diamond_actions). by vm_compute. Qed.

(** C1: the code breaks the claim on the task [a → {b, c} → d] (no step
    has [IgnoreErrors]), whatever the capacity of the completion
    channels.  The goroutines started for [d] by [b] and by [c] both
    remove their edge before either reads the degree of [d]: both read 0
    and both execute [d].  The first execution
    succeeds and its completion signal is received; the second fails, sets
    the status [Failed] after the first has set [Successful], and is left
    sending its error.  [RunTask] reads [d] as [Failed] and returns nil;
    the error is never received. *)
Theorem RunTask_nil_with_failed_step (capacity : nat) :
  exec builder0 diamond capacity (init builder0 diamond diamond_dag false)
    (diamond_end capacity).2 (diamond_end capacity).1
  ∧ node step_d ∈ Nodes (TaskDag diamond)
  ∧ IgnoreErrors step_d = false
  ∧ (diamond_end capacity).2 !! 48%nat = Some (Worker 3, (ORemoveEdge "b" "d", RErr None))
  ∧ (diamond_end capacity).2 !! 49%nat = Some (Worker 4, (ORemoveEdge "c" "d", RErr None))
  ∧ (diamond_end capacity).2 !! 50%nat = Some (Worker 3, (OGetDegree (node step_d), RInt 0))
  ∧ (diamond_end capacity).2 !! 51%nat = Some (Worker 4, (OGetDegree (node step_d), RInt 0))
  ∧ (diamond_end capacity).2 !! 53%nat = Some (Worker 3, (OWrite "d" (WStepStatus InProgress), RUnit))
  ∧ (diamond_end capacity).2 !! 59%nat = Some (Worker 3, (OWrite "d" (WStepStatus Successful), RUnit))
  ∧ (diamond_end capacity).2 !! 61%nat = Some (Worker 4, (OWrite "d" (WStepStatus InProgress), RUnit))
  ∧ (diamond_end capacity).2 !! 64%nat
    = Some (Worker 4,
            (OCall (RunRepeatWithRetries (WithTimeout ctx 600)
                      ["docker"; "run"; "--name"; "d"; "bash echo d"]
                      Nil Stdout Stderr "" 3 ["transient"] 2 "d" 1),
             RErr (Some "exit status 1")))
  ∧ (diamond_end capacity).2 !! 67%nat = Some (Worker 4, (OWrite "d" (WStepStatus Failed), RUnit))
  ∧ (diamond_end capacity).2 !! 69%nat = Some (Worker 3, (OSendCompleted "d", RUnit))
  ∧ (diamond_end capacity).2 !! 70%nat = Some (Main, (OSelect "d", RSel SelCompleted))
  ∧ (∃ s, (diamond_end capacity).2 !! 77%nat = Some (Main, (ORead "d", RStep s))
          ∧ StepStatus s = Failed)
  ∧ st_main (diamond_end capacity).1 = Ret None
  ∧ StepStatus <$> st_steps (diamond_end capacity).1 !! "d" = Some Failed
  ∧ st_pool (diamond_end capacity).1 !! 4%nat
    = Some (perform (OSendError "failed to run step ID: d: exit status 1");;
            perform (OSendCompleted "d"))
  ∧ ∀ tr' σ', exec builder0 diamond capacity (diamond_end capacity).1 tr' σ' →
      st_main σ' = Ret None
      ∧ (∀ ev, (Main, ev) ∉ tr')
      ∧ (∀ ev, (Worker 4, ev) ∉ tr').
Proof.
  split; [apply diamond_end_exec|].
  split; [do 3 right; left|].
  do 12 (split; [by vm_compute|]).
  split; [eexists; split; by vm_compute|].
  do 3 (split; [by vm_compute|]).
  intros tr' σ' Hexec.
  assert (Hm : st_main (diamond_end capacity).1 = Ret None) by (by vm_compute).
  destruct (returned_exec builder0 diamond capacity _ _ _ _ Hm Hexec) as [Hm' Hmain].
  split; [exact Hm'|]. split; [exact Hmain|].
  assert (Hstuck : stuck capacity 4 (diamond_end capacity).1).
  { split; [by exists None|]. left. eexists _, _. by vm_compute. }
  exact (proj2 (stuck_exec builder0 diamond capacity 4 _ _ _ Hstuck Hexec)).
Qed.

End instances.

End builder_more.

(** * Cleanup and secret volumes *)

Module builder_shell_props.
Import graph builder builder_shell.
Local Open Scope list_scope.

Section does.
Context {R : Type}.
Implicit Types (p q : proc R) (tr : list occurrence).

Lemma does_Done (r : R) tr q : does (Done r) tr q → tr = [] ∧ q = Done r.
Proof. destruct tr; simpl; [intros <-; done | done]. Qed.

Lemma does_Do c (k : answer → proc R) tr res :
  completes (Do c k) tr res →
  ∃ a tr', tr = (c, a) :: tr' ∧ answer_ok c a ∧ completes (k a) tr' res.
Proof.
  unfold completes. destruct tr as [|[c' a] tr']; simpl; [done|].
  intros (-> & Hok & Hrun). eauto.
Qed.

End does.

Lemma completes_Done {R} (r res : R) tr : completes (Done r) tr res → tr = [] ∧ res = r.
Proof. intros Hrun. apply does_Done in Hrun as [-> [= ->]]. done. Qed.

(** The complete runs of [p ≫= f]: a complete run of [p], then one of
    [f]. *)
Lemma completes_bind {A B} (p : proc A) (f : A → proc B) tr res :
  completes (p ≫= f) tr res ↔
  ∃ t1 t2 a, tr = t1 ++ t2 ∧ completes p t1 a ∧ completes (f a) t2 res.
Proof.
  unfold completes, mbind, proc_mbind. revert tr.
  induction p as [a|c k IH]; intros tr; simpl.
  - split.
    + intros Hrun. by exists [], tr, a.
    + intros (t1 & t2 & a' & -> & Ha & Hrun).
      destruct t1; simpl in Ha; [by injection Ha as <-|done].
  - split.
    + destruct tr as [|oc tr]; simpl; [done|].
      intros (-> & Hok & Hrun). apply IH in Hrun as (t1 & t2 & a & -> & Ha & Hrun).
      by exists (oc :: t1), t2, a.
    + intros (t1 & t2 & a & -> & Ha & Hrun).
      destruct t1 as [|oc t1]; simpl in Ha; [done|].
      destruct Ha as (-> & Hok & Ha). simpl. split; [done|]. split; [done|].
      apply IH. by exists t1, t2, a.
Qed.

(** The first command of a complete run, and the end of one. *)
Ltac first_command H :=
  apply does_Do in H as (?a & ?tr & -> & ?Hok & H);
  match type of H with completes (Done _) _ _ => idtac | _ => cbn in H end.

Ltac finished H := apply completes_Done in H as [-> ?].

(** ** What a trace shows *)

(** The arguments of the commands run by the process manager, with the
    error of each. *)
Definition ran (tr : list occurrence) : list (list string * error) :=
  omap (λ oc, match oc with
              | (procManager_Run _ args _ _ _ _, AOutErr _ e) => Some (args, e)
              | _ => None
              end) tr.

(** The networks deleted. *)
Definition deleted (tr : list occurrence) : list network :=
  omap (λ oc, match oc.1 with network_Delete _ n => Some n | _ => None end) tr.

(** The statuses read, with the step of each. *)
Definition statuses (tr : list occurrence) : list (string * status) :=
  omap (λ oc, match oc with
              | (step_StepStatus id, AStatus st) => Some (id, st)
              | _ => None
              end) tr.

(** The failures logged, and those replied by [network.Delete]. *)
Definition logged_failures (tr : list occurrence) : list (list string) :=
  omap (λ oc, match oc.1 with
              | log_Printf format args =>
                if String.eqb format ("Failed to delete network: %s, err: %v, msg: %s" +:+ LF)
                then Some args else None
              | _ => None
              end) tr.

Definition failed_deletions (tr : list occurrence) : list (list string) :=
  omap (λ oc, match oc with
              | (network_Delete _ n, AOutErr msg (Some e)) => Some [NetworkName n; e; msg]
              | _ => None
              end) tr.

Definition is_removal (c : command) : Prop :=
  match c with
  | step_StepStatus _ | procManager_Run _ _ _ _ _ _ => True
  | _ => False
  end.

Definition is_deletion (c : command) : Prop :=
  match c with
  | network_Delete _ _ | log_Printf _ _ => True
  | _ => False
  end.

Section CleanTask.
Context `{Collaborators} `{ShellCollaborators} (b : Builder).

(** The loop of [CleanTask] over the nodes. *)
Lemma CleanTask_removals c (nodes : list Node) tr :
  completes
    (range nodes (λ n,
       st ← get_StepStatus (Value n);
       if negb (is_Skipped st)
       then _ ← Run c (["docker"; "rm"; "-f"] ++ [ID (Value n)]) Nil Nil Nil ""; Done tt
       else Done tt)) tr tt →
  Forall (λ oc, is_removal oc.1) tr
  ∧ (statuses tr).*1 = (λ n, ID (Value n)) <$> nodes
  ∧ (ran tr).*1
    = (λ p, ["docker"; "rm"; "-f"; p.1]) <$> filter (λ p, negb (is_Skipped p.2)) (statuses tr).
Proof.
  revert tr. induction nodes as [|n nodes IH]; intros tr Hrun; cbn [range] in Hrun.
  - finished Hrun. done.
  - apply completes_bind in Hrun as (t1 & t2 & [] & -> & H1 & H2).
    apply IH in H2 as (Hall & Hst & Hran).
    unfold get_StepStatus in H1. cbn in H1. first_command H1.
    destruct a; try done. cbn in H1.
    destruct st; cbn in H1.
    + finished H1. cbn. split; [by constructor|]. split; [by f_equal|done].
    + first_command H1. finished H1. destruct a; try done.
      cbn. split; [by repeat constructor|]. split; [by f_equal|].
      destruct (decide True) as [_|[]]; [|done]. cbn. f_equal. exact Hran.
    + first_command H1. finished H1. destruct a; try done.
      cbn. split; [by repeat constructor|]. split; [by f_equal|].
      destruct (decide True) as [_|[]]; [|done]. cbn. f_equal. exact Hran.
    + first_command H1. finished H1. destruct a; try done.
      cbn. split; [by repeat constructor|]. split; [by f_equal|].
      destruct (decide True) as [_|[]]; [|done]. cbn. f_equal. exact Hran.
Qed.

(** The loop of [CleanTask] over the networks. *)
Lemma CleanTask_deletions c (networks : list network) tr :
  completes
    (range networks (λ network,
       if SkipCreation network
       then Printf ("Skip deleting network: %s" +:+ LF) [NetworkName network]
       else
         r ← Delete c network;
         match r.2 with
         | Some e =>
           Printf ("Failed to delete network: %s, err: %v, msg: %s" +:+ LF)
                  [NetworkName network; e; r.1]
         | None => Done tt
         end)) tr tt →
  Forall (λ oc, is_deletion oc.1) tr
  ∧ deleted tr = filter (λ n, negb (SkipCreation n)) networks
  ∧ logged_failures tr = failed_deletions tr.
Proof.
  revert tr. induction networks as [|n networks IH]; intros tr Hrun; cbn [range] in Hrun.
  - finished Hrun. done.
  - apply completes_bind in Hrun as (t1 & t2 & [] & -> & H1 & H2).
    apply IH in H2 as (Hall & Hdel & Hlog).
    destruct (SkipCreation n) eqn:Hskip.
    + unfold Printf in H1. first_command H1. finished H1.
      rewrite filter_cons_False by (rewrite Hskip; simpl; tauto).
      split; [by constructor|]. done.
    + unfold Delete in H1. cbn in H1. first_command H1. destruct a; try done.
      cbn in H1. destruct e as [e|]; cbn in H1.
      * first_command H1. finished H1.
        rewrite filter_cons_True by (by rewrite Hskip).
        split; [by repeat constructor|]. split; [cbn; by f_equal|].
        unfold logged_failures, failed_deletions in *. cbn. by f_equal.
      * finished H1.
        rewrite filter_cons_True by (by rewrite Hskip).
        split; [by repeat constructor|]. split; [cbn; by f_equal|done].
Qed.

(** X14.  [CleanTask] never stops early.  In every run of it: it reads the
    status of each step, in the order of the nodes, and runs
    [docker rm -f <id>] for exactly the steps whose status it read as not
    [Skipped]; then it deletes exactly the networks not flagged
    [SkipCreation], in order, whatever the removals and the earlier
    deletions replied, and logs the deletions that failed (and no other
    failure); and it stops the process manager, once, as its last
    command. *)
Theorem CleanTask_best_effort c task tr :
  completes (CleanTask c task) tr tt →
  ∃ t1 t2 a,
    tr = t1 ++ t2 ++ [(procManager_Stop, a)]
    ∧ Forall (λ oc, is_removal oc.1) t1
    ∧ Forall (λ oc, is_deletion oc.1) t2
    ∧ (statuses tr).*1 = (λ n, ID (Value n)) <$> Nodes (TaskDag task)
    ∧ (ran tr).*1
      = (λ p, ["docker"; "rm"; "-f"; p.1]) <$> filter (λ p, negb (is_Skipped p.2)) (statuses tr)
    ∧ deleted tr = filter (λ n, negb (SkipCreation n)) (Networks task)
    ∧ logged_failures tr = failed_deletions tr.
Proof.
  intros Hrun. unfold CleanTask in Hrun.
  apply completes_bind in Hrun as (t1 & t23 & [] & -> & H1 & Hrun).
  apply completes_bind in Hrun as (t2 & t3 & [] & -> & H2 & Hrun).
  apply CleanTask_removals in H1 as (Hall1 & Hst & Hran).
  apply CleanTask_deletions in H2 as (Hall2 & Hdel & Hlog).
  unfold Stop in Hrun. cbn in Hrun. first_command Hrun. finished Hrun.
  exists t1, t2, a. split; [done|]. split; [done|]. split; [done|].
  assert (Hno1 : ∀ t, Forall (λ oc : occurrence, is_deletion oc.1) t →
                      statuses t = [] ∧ ran t = []).
  { induction 1 as [|[[] []] t Hd _ [IH1 IH2]]; done. }
  assert (Hno2 : ∀ t, Forall (λ oc : occurrence, is_removal oc.1) t →
                      deleted t = [] ∧ logged_failures t = [] ∧ failed_deletions t = []).
  { induction 1 as [|[[] []] t Hd _ (IH1 & IH2 & IH3)]; done. }
  destruct (Hno1 _ Hall2) as [Hs2 Hr2]. destruct (Hno2 _ Hall1) as (Hd1 & Hl1 & Hf1).
  unfold statuses, ran, deleted, logged_failures, failed_deletions in *.
  rewrite !omap_app, ?Hs2, ?Hr2, ?Hd1, ?Hl1, ?Hf1.
  destruct a; try done. cbn. rewrite !app_nil_r. done.
Qed.

End CleanTask.

(** ** Secret volumes *)

Section volumes.
Context `{Collaborators} `{ShellCollaborators} (b : Builder).

(** No command is run after one that failed, and then the function
    returns an error. *)
Definition stops_at_failure (tr : list occurrence) (res : error) : Prop :=
  ∀ t1 args e t2, ran tr = t1 ++ (args, Some e) :: t2 → t2 = [] ∧ is_Some res.

Lemma stops_at_failure_nil res : stops_at_failure [] res.
Proof. intros [|? ?] ? ? ? [=]. Qed.

Lemma stops_at_failure_last c args i o e' out e msg :
  stops_at_failure [(procManager_Run c args i o e' "", AOutErr out (Some e))] (Some msg).
Proof.
  intros [|x t1] args' e0 t2 Heq; cbn in Heq.
  - injection Heq as _ _ <-. done.
  - injection Heq as _ Heq. by destruct t1.
Qed.

Lemma stops_at_failure_cons oc tr res :
  (∀ args e, ran [oc] ≠ [(args, Some e)]) →
  stops_at_failure tr res → stops_at_failure (oc :: tr) res.
Proof.
  intros Hoc Htr t1 args e t2 Heq.
  change (oc :: tr) with ([oc] ++ tr) in Heq. unfold ran in Heq. rewrite omap_app in Heq.
  fold (ran [oc]) (ran tr) in Heq.
  destruct (ran [oc]) as [|x [|]] eqn:Hx.
  - by apply (Htr t1 args e).
  - destruct t1 as [|y t1]; cbn in Heq.
    + injection Heq as -> _. by destruct (Hoc args e).
    + injection Heq as _ Heq. by apply (Htr t1 args e).
  - destruct oc as [[] []]; cbn in Hx; discriminate Hx.
Qed.

(** The command that makes the directory, and the one that writes a file. *)
Definition mkdir_args (volMount : Volume) : list string :=
  getShell ++ ["mkdir " +:+ VolumeName volMount].

Definition write_args (volMount : Volume) (kv : string * string) (val : string)
  : list string :=
  getShell ++ [write_command volMount kv.1 val].

(** Nothing is logged. *)
Definition quiet (tr : list occurrence) : Prop :=
  Forall (λ oc, match oc.1 with log_Println _ | log_Printf _ _ => False | _ => True end) tr.

Definition all_nil (l : list (list string * error)) : Prop := Forall (λ p, p.2 = None) l.

Lemma all_nil_app_failure l1 l2 x args e y :
  all_nil l1 → l1 ++ l2 = x ++ (args, Some e) :: y →
  ∃ x', x = l1 ++ x' ∧ l2 = x' ++ (args, Some e) :: y.
Proof.
  intros Hnil. revert x. induction Hnil as [|p l1 Hp _ IH]; intros x Heq; cbn in Heq.
  - by exists x.
  - destruct x as [|q x]; cbn in Heq.
    + injection Heq as -> _. discriminate Hp.
    + injection Heq as -> Heq. destruct (IH _ Heq) as (x' & -> & ->). by exists x'.
Qed.

(** The loop of [createSecretFiles]. *)
Lemma createSecretFiles_loop c volMount (entries : list (string * string)) tr res :
  completes
    (range_err entries (λ kv,
       match DecodeString kv.2 with
       | None =>
         Done (Some "failed to decode Base64 value. please make sure value provided is Base64 encoded")
       | Some val =>
         r ← Run c (getShell ++ [write_command volMount kv.1 val]) Nil Buffer Buffer "";
         match r.2 with
         | Some e => Done (Some (Wrap e ("failed to write value, " +:+ r.1)))
         | None => Done None
         end
       end)) tr res →
  stops_at_failure tr res
  ∧ (res = None →
     ∃ vals, Forall2 (λ kv val, DecodeString kv.2 = Some val) entries vals
             ∧ ran tr = zip_with (λ kv val, (write_args volMount kv val, None)) entries vals
             ∧ all_nil (ran tr))
  ∧ ((∃ kv, kv ∈ entries ∧ DecodeString kv.2 = None) → is_Some res)
  ∧ quiet tr.
Proof.
  revert tr. induction entries as [|kv entries IH]; intros tr Hrun; cbn [range_err] in Hrun.
  - finished Hrun. subst res. split; [apply stops_at_failure_nil|].
    split; [intros _; exists []; by repeat split; constructor|].
    split; [|constructor]. intros (kv & Hin & _). by apply elem_of_nil in Hin.
  - apply completes_bind in Hrun as (t1 & t2 & e1 & -> & H1 & H2).
    destruct (DecodeString kv.2) as [val|] eqn:Hdec.
    + unfold Run in H1. cbn in H1. first_command H1. destruct a as [| |out e|  |]; try done.
      cbn in H1. destruct e as [e|]; cbn in H1; finished H1; subst e1.
      * finished H2. subst res. cbn.
        split; [apply stops_at_failure_last|]. split; [done|].
        split; [by intros _|by repeat constructor].
      * apply IH in H2 as (Hstop & Hok' & Hbad & Hquiet). cbn [app]. split.
        { apply stops_at_failure_cons; [|exact Hstop]. intros args e. by cbn. }
        split.
        { intros Hres. destruct (Hok' Hres) as (vals & Hvals & Hran & Hnil).
          exists (val :: vals). split; [by constructor|].
          split; [cbn; by f_equal|by constructor]. }
        split; [|by constructor].
        intros (kv' & Hin & Hdec'). apply elem_of_cons in Hin as [->|Hin].
        { by rewrite Hdec in Hdec'. }
        apply Hbad. by exists kv'.
    + finished H1. subst e1. finished H2. subst res. cbn.
      split; [apply stops_at_failure_nil|]. split; [done|].
      split; [by intros _|constructor].
Qed.

(** The runs of [createSecretFiles]. *)
Lemma createSecretFiles_shape c volMount tr res :
  completes (createSecretFiles c volMount) tr res →
  stops_at_failure tr res
  ∧ (res = None →
     ∃ entries vals,
       entries ≡ₚ default [] (Secret volMount)
       ∧ Forall2 (λ kv val, DecodeString kv.2 = Some val) entries vals
       ∧ ran tr = (mkdir_args volMount, None)
                  :: zip_with (λ kv val, (write_args volMount kv val, None)) entries vals
       ∧ all_nil (ran tr))
  ∧ ((∃ kv, kv ∈ default [] (Secret volMount) ∧ DecodeString kv.2 = None) → is_Some res)
  ∧ quiet tr.
Proof.
  intros Hrun. unfold createSecretFiles, Run in Hrun. cbn in Hrun.
  first_command Hrun. destruct a as [| |out e| |]; try done. cbn in Hrun.
  destruct e as [e|]; cbn in Hrun.
  - finished Hrun. subst res. split; [apply stops_at_failure_last|]. split; [done|].
    split; [by intros _|by repeat constructor].
  - first_command Hrun. destruct a as [| | | |entries]; try done. cbn in Hok0.
    apply createSecretFiles_loop in Hrun as (Hstop & Hres & Hbad & Hquiet). split.
    { apply stops_at_failure_cons; [by intros args e|].
      apply stops_at_failure_cons; [by intros args e|]. exact Hstop. }
    split.
    { intros Hnone. destruct (Hres Hnone) as (vals & Hvals & Hran & Hnil).
      exists entries, vals. split; [done|]. split; [done|].
      split; [cbn; by f_equal|by constructor]. }
    split; [|by repeat constructor].
    intros (kv & Hin & Hdec). apply Hbad. exists kv. split; [|done].
    by rewrite Hok0.
Qed.

(** X15.  [createSecretFiles] stops at the first failure: no command is
    run after one that failed, and a value of the map that is not Base64
    makes it return an error.  When it returns nil, it has run [mkdir]
    for the directory of the volume and then one command per entry of
    the map, in the order its [range] yields them, which writes the
    decoded value to the file of the key; every one of them replied
    nil. *)
Theorem createSecretFiles_runs c volMount tr res :
  completes (createSecretFiles c volMount) tr res →
  stops_at_failure tr res
  ∧ (res = None →
     ∃ entries vals,
       entries ≡ₚ default [] (Secret volMount)
       ∧ Forall2 (λ kv val, DecodeString kv.2 = Some val) entries vals
       ∧ ran tr = (mkdir_args volMount, None)
                  :: zip_with (λ kv val, (write_args volMount kv val, None)) entries vals)
  ∧ ((∃ kv, kv ∈ default [] (Secret volMount) ∧ DecodeString kv.2 = None) → is_Some res).
Proof.
  intros Hrun. apply createSecretFiles_shape in Hrun as (Hstop & Hres & Hbad & _).
  split; [done|]. split; [|done].
  intros Hnone. destruct (Hres Hnone) as (entries & vals & ? & ? & ? & _). eauto.
Qed.

(** The runs of [populateSecretVolume]. *)
Lemma populateSecretVolume_shape c volMount tr res :
  completes (populateSecretVolume b c volMount) tr res →
  ∃ entries out e pre,
    entries ≡ₚ default [] (Secret volMount)
    ∧ tr = pre ++ [(procManager_Run c (getShell ++ [populate_command b volMount entries])
                      Nil Buffer Buffer "", AOutErr out e)]
    ∧ ran pre = [] ∧ quiet pre
    ∧ res = (λ e, Wrap e ("failed to populate container, " +:+ out)) <$> e.
Proof.
  intros Hrun. unfold populateSecretVolume, populate_command in *.
  destruct (String.eqb GOOS WindowsOS) eqn:Hos.
  - unfold Run in Hrun. cbn in Hrun. first_command Hrun.
    destruct a as [| |out e| |]; try done. cbn in Hrun.
    exists (default [] (Secret volMount)), out, e, []. split; [done|].
    destruct e; cbn in Hrun; finished Hrun; subst res.
    all: split; [done|]; split; [done|]; split; [constructor|done].
  - unfold Run, range_map in Hrun. cbn in Hrun. first_command Hrun.
    destruct a as [| | | |entries]; try done. cbn in Hok.
    first_command Hrun. destruct a as [| |out e| |]; try done. cbn in Hrun.
    exists entries, out, e, [(range_Secret (default [] (Secret volMount)), AEntries entries)].
    split; [done|].
    destruct e; cbn in Hrun; finished Hrun; subst res.
    all: split; [done|]; split; [done|]; split; [by repeat constructor|done].
Qed.

(** X16.  [populateSecretVolume] runs one command, the copy into the
    volume (on Linux: of the file of every key of the map), and returns
    nil exactly when that command replied nil; else it returns the error,
    wrapped with the output of the command. *)
Theorem populateSecretVolume_runs c volMount tr res :
  completes (populateSecretVolume b c volMount) tr res →
  ∃ entries out e,
    entries ≡ₚ default [] (Secret volMount)
    ∧ ran tr = [(getShell ++ [populate_command b volMount entries], e)]
    ∧ (procManager_Run c (getShell ++ [populate_command b volMount entries])
         Nil Buffer Buffer "", AOutErr out e) ∈ tr
    ∧ res = (λ e, Wrap e ("failed to populate container, " +:+ out)) <$> e.
Proof.
  intros Hrun.
  apply populateSecretVolume_shape in Hrun as (entries & out & e & pre & Hp & -> & Hpre & _ & ->).
  exists entries, out, e. split; [done|]. split; [|split; [|done]].
  - unfold ran in *. rewrite omap_app, Hpre. done.
  - apply elem_of_app. right. by left.
Qed.

(** The line [prepareVolumeSource] logs when the volume is ready. *)
Definition created (volMount : Volume) : occurrence :=
  (log_Println ("Volume source " +:+ VolumeName volMount +:+ " successfully created"),
   AUnit).

Lemma quiet_not_created volMount tr : quiet tr → created volMount ∉ tr.
Proof.
  intros Hq Hin. unfold quiet in Hq. rewrite Forall_forall in Hq.
  by apply (Hq _ Hin).
Qed.

(** X17.  [prepareVolumeSource] supports the source [Secret] only: for
    another it returns an error and runs nothing.  For a secret source it
    creates the files, and stops there with the error when that fails;
    else it populates the volume, and stops there with the error when
    that fails; else it logs that the volume was created.  So it stops at
    the first command that failed, and the volume is logged as created
    exactly when it returns nil. *)
Theorem prepareVolumeSource_runs c volMount tr res :
  completes (prepareVolumeSource b c volMount) tr res →
  match Secret volMount with
  | None => tr = [] ∧ res = Some "volume source type not supported yet"
  | Some _ =>
    stops_at_failure tr res
    ∧ (created volMount ∈ tr ↔ res = None)
    ∧ ∃ t1 e1,
        completes (createSecretFiles c volMount) t1 e1
        ∧ match e1 with
          | Some e => tr = t1 ∧ res = Some e
          | None =>
            ∃ t2 e2,
              completes (populateSecretVolume b c volMount) t2 e2
              ∧ match e2 with
                | Some e => tr = t1 ++ t2 ∧ res = Some e
                | None => tr = t1 ++ t2 ++ [created volMount] ∧ res = None
                end
          end
  end.
Proof.
  intros Hrun. unfold prepareVolumeSource in Hrun.
  destruct (Secret volMount) as [secret|] eqn:Hsecret; [|by finished Hrun].
  apply completes_bind in Hrun as (t1 & t23 & e1 & -> & H1 & Hrun).
  pose proof (createSecretFiles_shape _ _ _ _ H1) as (Hstop1 & Hres1 & _ & Hq1).
  destruct e1 as [e1|].
  { finished Hrun. subst res. rewrite app_nil_r. split; [done|]. split.
    - split; [|done]. intros Hin. by apply quiet_not_created in Hin.
    - exists t1, (Some e1). done. }
  apply completes_bind in Hrun as (t2 & t3 & e2 & -> & H2 & Hrun).
  pose proof (populateSecretVolume_shape _ _ _ _ H2)
    as (entries & out & e & pre & Hp & Ht2 & Hpre & Hq2 & He2).
  destruct (Hres1 eq_refl) as (entries1 & vals1 & _ & _ & _ & Hnil).
  assert (Hran2 : ran t2 = [(getShell ++ [populate_command b volMount entries], e)]).
  { subst t2. unfold ran in *. by rewrite omap_app, Hpre. }
  assert (Hq2' : quiet t2).
  { subst t2. apply Forall_app. split; [done|]. by repeat constructor. }
  destruct e2 as [e2|].
  - finished Hrun. subst res. rewrite app_nil_r. split.
    { intros pre' args e' post' Heq. unfold ran in Heq. rewrite omap_app in Heq.
      fold (ran t1) (ran t2) in Heq.
      destruct (all_nil_app_failure _ _ _ _ _ _ Hnil Heq) as (x' & -> & Heq').
      rewrite Hran2 in Heq'. destruct x' as [|? [|]]; [|done..].
      injection Heq' as _ _ <-. done. }
    split.
    { split; [|done]. intros Hin. apply elem_of_app in Hin as [Hin|Hin];
        by apply quiet_not_created in Hin. }
    exists t1, None. split; [done|]. exists t2, (Some e2). done.
  - unfold Println in Hrun. cbn in Hrun. first_command Hrun. finished Hrun. subst res.
    destruct a; try done. fold (created volMount). split.
    { intros pre' args e' post' Heq. unfold ran in Heq. rewrite !omap_app in Heq.
      fold (ran t1) (ran t2) in Heq. cbn in Heq. rewrite app_nil_r in Heq.
      destruct (all_nil_app_failure _ _ _ _ _ _ Hnil Heq) as (x' & -> & Heq').
      rewrite Hran2 in Heq'. destruct x' as [|? [|]]; [|done..].
      destruct e as [e|]; [discriminate He2|discriminate Heq']. }
    split.
    { split; [done|]. intros _. apply elem_of_app. right. apply elem_of_app. right.
      by left. }
    exists t1, None. split; [done|]. exists t2, None. done.
Qed.

End volumes.

Section instances.
Import example example_more example_shell.

Lemma CleanTask_best_effort_witness :
  ∃ t1 t2 a,
    cleanup = t1 ++ t2 ++ [(procManager_Stop, a)]
    ∧ Forall (λ oc, is_removal oc.1) t1
    ∧ Forall (λ oc, is_deletion oc.1) t2
    ∧ (statuses cleanup).*1 = ["a"; "b"]
    ∧ (ran cleanup).*1
      = (λ p, ["docker"; "rm"; "-f"; p.1])
          <$> filter (λ p, negb (is_Skipped p.2)) (statuses cleanup)
    ∧ deleted cleanup = [net]
    ∧ logged_failures cleanup = failed_deletions cleanup.
Proof.
  apply (CleanTask_best_effort ctx chain_nets cleanup).
  vm_compute. repeat split.
Defined.

Lemma createSecretFiles_runs_witness :
  stops_at_failure files_created None
  ∧ ((None : error) = None →
     ∃ entries vals,
       entries ≡ₚ [("token", "c2VjcmV0")]
       ∧ Forall2 (λ kv val, DecodeString kv.2 = Some val) entries vals
       ∧ ran files_created
         = (mkdir_args secrets, None)
           :: zip_with (λ kv val, (write_args secrets kv val, None)) entries vals)
  ∧ ((∃ kv, kv ∈ [("token", "c2VjcmV0")] ∧ DecodeString kv.2 = None) → is_Some (None : error)).
Proof.
  apply (createSecretFiles_runs ctx secrets files_created None).
  vm_compute. repeat split. reflexivity.
Defined.

Lemma populateSecretVolume_runs_witness :
  ∃ entries out e,
    entries ≡ₚ [("token", "c2VjcmV0")]
    ∧ ran (populated "no space left on device" (Some "exit status 1"))
      = [(getShell ++ [populate_command builder0 secrets entries], e)]
    ∧ (procManager_Run ctx (getShell ++ [populate_command builder0 secrets entries])
         Nil Buffer Buffer "", AOutErr out e)
      ∈ populated "no space left on device" (Some "exit status 1")
    ∧ Some "failed to populate container, no space left on device: exit status 1"
      = (λ e, Wrap e ("failed to populate container, " +:+ out)) <$> e.
Proof.
  apply (populateSecretVolume_runs builder0 ctx secrets
           (populated "no space left on device" (Some "exit status 1"))).
  vm_compute. repeat split. reflexivity.
Defined.

Lemma prepareVolumeSource_runs_witness :
  stops_at_failure (files_created ++ populated "" None ++ [created secrets]) None
  ∧ (created secrets ∈ files_created ++ populated "" None ++ [created secrets] ↔ (None : error) = None)
  ∧ ∃ t1 e1,
      completes (createSecretFiles ctx secrets) t1 e1
      ∧ match e1 with
        | Some e => files_created ++ populated "" None ++ [created secrets] = t1
                    ∧ (None : error) = Some e
        | None =>
          ∃ t2 e2,
            completes (populateSecretVolume builder0 ctx secrets) t2 e2
            ∧ match e2 with
              | Some e => files_created ++ populated "" None ++ [created secrets] = t1 ++ t2
                          ∧ (None : error) = Some e
              | None => files_created ++ populated "" None ++ [created secrets]
                        = t1 ++ t2 ++ [created secrets]
                        ∧ (None : error) = None
              end
        end.
Proof.
  apply (prepareVolumeSource_runs builder0 ctx secrets
           (files_created ++ populated "" None ++ [created secrets]) None).
  vm_compute. repeat split; reflexivity.
Defined.

End instances.

End builder_shell_props.
